(** * sat_parallel: the clause- and unit-sharing layer of the parallel SAT solver

    A shallow embedding of [src/sat/sat_parallel.cpp]: the broadcast ring
    buffer [parallel::vector_pool], the unit exchange [parallel::exchange],
    the share heuristic [parallel::enable_add], the clause exchange
    [parallel::share_clause] and [parallel::get_clauses] and the clone set-up
    [parallel::init_solvers], followed by the properties of the
    specification that were checked against them and by further properties
    of the code.

    Conventions.
    - A C++ [unsigned] is a value of [N]; every arithmetic operation of the
      source is followed by its wrap-around [u32]. The size of a vector is
      taken as it is: a vector of the source keeps its size in an [unsigned].
    - A [vector<T>] is a [list T]; [v[i]] outside the vector is a failed
      assertion ([AssertFail]), as are the [SASSERT]s of the source.
    - A [while] loop takes a fuel argument and answers [OutOfFuel] when it is
      exhausted; termination theorems show that enough fuel gives [Ok]. *)

From Stdlib Require Import ZArith NArith Lia.
From stdpp Require Import base tactics option list gmap strings.

Local Open Scope N_scope.

(** ** Machine words and fallible computations *)

Definition word_modulus : N := 4294967296.

Definition u32 (x : N) : N := x mod word_modulus.

Inductive res (A : Type) : Type :=
| Ok (a : A)
| AssertFail
| OutOfFuel.
Arguments Ok {A} a.
Arguments AssertFail {A}.
Arguments OutOfFuel {A}.

Definition bind {A B : Type} (m : res A) (k : A -> res B) : res B :=
  match m with
  | Ok a => k a
  | AssertFail => AssertFail
  | OutOfFuel => OutOfFuel
  end.

Notation "x <- m ;; k" := (bind m (fun x => k))
  (at level 100, m at next level, right associativity).

Definition sassert (b : bool) : res unit :=
  if b then Ok tt else AssertFail.

Notation "'SASSERT' b ;; k" := (bind (sassert b) (fun _ => k))
  (at level 100, b at next level, right associativity).

(** [v[i]] as an r-value *)
Definition vget {A : Type} (v : list A) (i : N) : res A :=
  match v !! N.to_nat i with
  | Some x => Ok x
  | None => AssertFail
  end.

(** [v[i] = x] *)
Definition vset {A : Type} (v : list A) (i : N) (x : A) : res (list A) :=
  if decide (N.to_nat i < length v)%nat
  then Ok (<[N.to_nat i := x]> v)
  else AssertFail.

(** [v.reserve(s, d)]: grow to [s] elements, filling with [d]; never shrinks *)
Definition vreserve {A : Type} (v : list A) (s : N) (d : A) : list A :=
  if N.of_nat (length v) <? s
  then v ++ replicate (N.to_nat s - length v) d
  else v.

(** ** parallel::vector_pool *)

Module vector_pool.

Record t : Type := mk {
  m_vectors : list N;
  m_size : N;
  m_tail : N;
  m_heads : list N;
  m_at_end : list bool
}.

Definition set_vectors (p : t) (v : list N) : t :=
  mk v (m_size p) (m_tail p) (m_heads p) (m_at_end p).
Definition set_tail (p : t) (x : N) : t :=
  mk (m_vectors p) (m_size p) x (m_heads p) (m_at_end p).
Definition set_heads (p : t) (h : list N) : t :=
  mk (m_vectors p) (m_size p) (m_tail p) h (m_at_end p).
Definition set_at_end (p : t) (a : list bool) : t :=
  mk (m_vectors p) (m_size p) (m_tail p) (m_heads p) a.

(** Modelled from the spec: the accessors [get_owner], [get_length] and
    [get_ptr] are declared in sat_parallel.h, which is not among the sources.
    The spec fixes the layout they read: a record is a 2-word header
    [(owner, len)] followed by [len] payload words, and [begin_add_vector]
    writes the owner first and the length second. [get_ptr] is the offset of
    the payload inside [m_vectors]. *)
Definition get_owner (p : t) (index : N) : res N :=
  vget (m_vectors p) index.
Definition get_length (p : t) (index : N) : res N :=
  vget (m_vectors p) (u32 (index + 1)).
Definition get_ptr (index : N) : N := index + 2.

(** the words [ptr[0 .. n)] handed to the caller of [get_vector] *)
Definition slice (p : t) (ptr n : N) : list N :=
  take (N.to_nat n) (drop (N.to_nat ptr) (m_vectors p)).

(** [next(index)]: the value left in [index] *)
Definition next (p : t) (index : N) : res N :=
  SASSERT (index <? m_size p) ;;
  len <- get_length p index ;;
  let n := u32 (index + 2 + len) in
  if m_size p <=? n then Ok 0 else Ok n.

Definition reserve (num_threads sz : N) : t :=
  mk (replicate (N.to_nat sz) 0)
     sz
     0
     (replicate (N.to_nat num_threads) 0)
     (replicate (N.to_nat num_threads) true).

(** the inner loop of [begin_add_vector]:
    [while (m_tail < m_heads[i] && m_heads[i] < m_tail + capacity) next(m_heads[i]);] *)
Fixpoint advance_head (fuel : nat) (capacity i : N) (p : t) : res t :=
  match fuel with
  | O => OutOfFuel
  | S fuel' =>
      h <- vget (m_heads p) i ;;
      if (m_tail p <? h) && (h <? u32 (m_tail p + capacity)) then
        h' <- next p h ;;
        hs <- vset (m_heads p) i h' ;;
        advance_head fuel' capacity i (set_heads p hs)
      else Ok p
  end.

(** [for (unsigned i = 0; i < m_heads.size(); ++i) { while ...; m_at_end[i] = false; }],
    with [todo] iterations left *)
Fixpoint for_heads (fuel : nat) (capacity : N) (todo : nat) (i : N) (p : t) : res t :=
  match todo with
  | O => Ok p
  | S todo' =>
      p1 <- advance_head fuel capacity i p ;;
      ae <- vset (m_at_end p1) i false ;;
      for_heads fuel capacity todo' (u32 (i + 1)) (set_at_end p1 ae)
  end.

(** [m_vectors[m_tail++] = x] *)
Definition push (x : N) (p : t) : res t :=
  v <- vset (m_vectors p) (m_tail p) x ;;
  Ok (set_tail (set_vectors p v) (u32 (m_tail p + 1))).

Definition begin_add_vector (fuel : nat) (owner n : N) (p : t) : res t :=
  SASSERT (m_tail p <? m_size p) ;;
  let capacity := u32 (n + 2) in
  let p := set_vectors p (vreserve (m_vectors p) (u32 (m_size p + capacity)) 0) in
  p <- for_heads fuel capacity (length (m_heads p)) 0 p ;;
  p <- push owner p ;;
  push n p.

Definition add_vector_elem (e : N) (p : t) : res t := push e p.

Definition end_add_vector (p : t) : t :=
  if m_size p <=? m_tail p then set_tail p 0 else p.

(** the loop of [get_vector], entered with the local [head] *)
Fixpoint get_vector_loop (fuel : nat) (owner head : N) (p : t)
  : res (option (N * N) * t) :=
  match fuel with
  | O => OutOfFuel
  | S fuel' =>
      continue <- (if negb (head =? m_tail p) then Ok true
                   else ae <- vget (m_at_end p) owner ;; Ok (negb ae)) ;;
      if (continue : bool) then
        SASSERT ((head <? m_size p) && (m_tail p <? m_size p)) ;;
        o <- get_owner p head ;;
        let is_self := owner =? o in
        h <- vget (m_heads p) owner ;;
        h' <- next p h ;;
        hs <- vset (m_heads p) owner h' ;;
        let p := set_heads p hs in
        ae' <- vset (m_at_end p) owner (h' =? m_tail p) ;;
        let p := set_at_end p ae' in
        if negb is_self then
          n <- get_length p head ;;
          Ok (Some (n, get_ptr head), p)
        else
          head' <- vget (m_heads p) owner ;;
          get_vector_loop fuel' owner head' p
      else Ok (None, p)
  end.

(** [get_vector(owner, n, ptr)]: [Some (n, ptr)] for [true], [None] for [false] *)
Definition get_vector (fuel : nat) (owner : N) (p : t) : res (option (N * N) * t) :=
  head <- vget (m_heads p) owner ;;
  get_vector_loop fuel owner head p.

(** the producer protocol as [parallel::share_clause] runs it:
    [begin_add_vector(owner, n)], [n] calls of [add_vector_elem], [end_add_vector()] *)
Fixpoint add_vector_elems (es : list N) (p : t) : res t :=
  match es with
  | [] => Ok p
  | e :: es' => p' <- add_vector_elem e p ;; add_vector_elems es' p'
  end.

Definition add_vector (fuel : nat) (owner : N) (es : list N) (p : t) : res t :=
  p <- begin_add_vector fuel owner (N.of_nat (length es)) p ;;
  p <- add_vector_elems es p ;;
  Ok (end_add_vector p).

End vector_pool.

(** ** parallel *)

Module parallel.

(** Modelled from the spec: [sat::literal] (sat_types.h) is an opaque small
    integer identifier; only its integer encoding [index()] is stored, and
    [to_literal] rebuilds it. *)
Record literal : Type := to_literal { index : N }.

(** Modelled from the spec: a [sat::clause] (sat_clause.h) is a sequence of
    literals with a size and a quality score, the glue. *)
Record clause : Type := mk_clause { m_lits : list literal; m_glue : N }.

Definition size (c : clause) : N := N.of_nat (length (m_lits c)).
Definition glue (c : clause) : N := m_glue c.

(** Modelled from the spec: [params_ref] (util/params.h) is the configuration
    read/write surface; an entry is an unsigned or a symbol, [set_*] replaces
    the entry of a key and [get_sym] answers the default when the key has no
    symbol entry. *)
Inductive param : Type :=
| p_uint (v : N)
| p_sym (v : string).

Definition get_sym (p : gmap string param) (k : string) (default : string) : string :=
  match p !! k with
  | Some (p_sym v) => v
  | _ => default
  end.

Definition get_uint (p : gmap string param) (k : string) (default : N) : N :=
  match p !! k with
  | Some (p_uint v) => v
  | _ => default
  end.

Definition set_sym (p : gmap string param) (k : string) (v : string) : gmap string param :=
  <[k := p_sym v]> p.

Definition set_uint (p : gmap string param) (k : string) (v : N) : gmap string param :=
  <[k := p_uint v]> p.

(** Modelled from the spec: a [reslimit] (util/rlimit.h) is a cooperative
    cancellation token; a solver refers either to the root token of the
    master or to an entry of [m_limits]. *)
Record reslimit : Type := mk_reslimit { m_cancel : N }.

Inductive rlimit_ref : Type :=
| root_rlimit
| child_rlimit (i : N).

(** Modelled from the spec: the part of [sat::solver] (sat_solver.h) this file
    reads and writes: its configuration, its random generator (the state
    [m_data] of a [random_gen]), its resource limit, the id and the reentrancy
    flag owned by the coordinator, and its clauses, the solving state that
    [copy] clones. *)
Record solver : Type := mk_solver {
  m_params : gmap string param;
  m_rand : N;
  m_rlimit : rlimit_ref;
  m_par_id : N;
  m_par_syncing_clauses : bool;
  m_clauses : list (list literal)
}.

Definition set_params (s : solver) (p : gmap string param) : solver :=
  mk_solver p (m_rand s) (m_rlimit s) (m_par_id s) (m_par_syncing_clauses s) (m_clauses s).
Definition set_rand (s : solver) (g : N) : solver :=
  mk_solver (m_params s) g (m_rlimit s) (m_par_id s) (m_par_syncing_clauses s) (m_clauses s).
Definition set_syncing (s : solver) (b : bool) : solver :=
  mk_solver (m_params s) (m_rand s) (m_rlimit s) (m_par_id s) b (m_clauses s).

(** Modelled from the spec: [set_par(this, id)] (sat_solver.h) binds the
    solver to the coordinator under the id [id]; the reentrancy flag of a
    solver that has been bound starts cleared. *)
Definition set_par (s : solver) (id : N) : solver :=
  mk_solver (m_params s) (m_rand s) (m_rlimit s) id false (m_clauses s).

(** Modelled from the spec: [alloc(sat::solver, p, limit)] makes a solver
    configured from [p] and bound to the resource limit [limit], with no
    clauses, its reentrancy flag cleared and its generator seeded from the
    configuration. *)
Definition alloc_solver (p : gmap string param) (limit : rlimit_ref) : solver :=
  mk_solver p (get_uint p "random_seed" 0) limit 0 false [].

(** Modelled from the spec: [dst->copy(src)] gives [dst] the solving state of
    [src] and nothing of its configuration. *)
Definition copy (dst src : solver) : solver :=
  mk_solver (m_params dst) (m_rand dst) (m_rlimit dst) (m_par_id dst)
            (m_par_syncing_clauses dst) (m_clauses src).

Record t : Type := mk {
  m_pool : vector_pool.t;
  m_units : list literal;
  m_unit_set : gset N;
  m_solvers : list (option solver);
  m_limits : list reslimit;
  m_scoped_rlimit : list rlimit_ref
}.

Definition set_pool (par : t) (p : vector_pool.t) : t :=
  mk p (m_units par) (m_unit_set par) (m_solvers par) (m_limits par) (m_scoped_rlimit par).
Definition set_solvers (par : t) (v : list (option solver)) : t :=
  mk (m_pool par) (m_units par) (m_unit_set par) v (m_limits par) (m_scoped_rlimit par).
Definition set_limits (par : t) (v : list reslimit) : t :=
  mk (m_pool par) (m_units par) (m_unit_set par) (m_solvers par) v (m_scoped_rlimit par).

(** [m_scoped_rlimit.push_child(&l)] *)
Definition push_child (par : t) (l : rlimit_ref) : t :=
  mk (m_pool par) (m_units par) (m_unit_set par) (m_solvers par) (m_limits par)
     (m_scoped_rlimit par ++ [l]).

(** the body of the loop of [exchange]:
    [if (!m_unit_set.contains(lit.index())) { m_unit_set.insert(lit.index()); m_units.push_back(lit); }] *)
Definition add_unit (par : t) (lit : literal) : t :=
  if decide (index lit ∈ m_unit_set par) then par
  else mk (m_pool par) (m_units par ++ [lit]) ({[index lit]} ∪ m_unit_set par)
          (m_solvers par) (m_limits par) (m_scoped_rlimit par).

(** [exchange(s, in, limit, out)]: the coordinator, the solver, [limit] and
    [out] after the call. [flet] sets the flag for the call and puts the old
    value back on exit. *)
Definition exchange (par : t) (s : solver) (inp : list literal) (limit : N)
    (out : list literal) : t * solver * N * list literal :=
  if m_par_syncing_clauses s then (par, s, limit, out)
  else
    let saved := m_par_syncing_clauses s in
    let s := set_syncing s true in
    let sz := N.of_nat (length (m_units par)) in
    let out :=
      if limit <? sz
      then out ++ take (N.to_nat (sz - limit)) (drop (N.to_nat limit) (m_units par))
      else out in
    let par := fold_left add_unit inp par in
    let limit := N.of_nat (length (m_units par)) in
    (par, set_syncing s saved, limit, out).

Definition enable_add (c : clause) : bool :=
  ((size c <=? 40) && (glue c <=? 8)) || (glue c <=? 2).

(** [share_clause(s, l1, l2)] *)
Definition share_clause2 (fuel : nat) (par : t) (s : solver) (l1 l2 : literal)
  : res (t * solver) :=
  if m_par_syncing_clauses s then Ok (par, s)
  else
    let saved := m_par_syncing_clauses s in
    let s := set_syncing s true in
    p <- vector_pool.begin_add_vector fuel (m_par_id s) 2 (m_pool par) ;;
    p <- vector_pool.add_vector_elem (index l1) p ;;
    p <- vector_pool.add_vector_elem (index l2) p ;;
    Ok (set_pool par (vector_pool.end_add_vector p), set_syncing s saved).

(** [share_clause(s, c)] *)
Definition share_clause (fuel : nat) (par : t) (s : solver) (c : clause)
  : res (t * solver) :=
  if negb (enable_add c) || m_par_syncing_clauses s then Ok (par, s)
  else
    let saved := m_par_syncing_clauses s in
    let s := set_syncing s true in
    let n := size c in
    let owner := m_par_id s in
    p <- vector_pool.begin_add_vector fuel owner n (m_pool par) ;;
    p <- vector_pool.add_vector_elems (map index (m_lits c)) p ;;
    Ok (set_pool par (vector_pool.end_add_vector p), set_syncing s saved).

Section init.

(** [s.m_rand()] of util's [random_gen], which is not among the sources: from
    the generator state, the number drawn and the next state *)
Variable random_gen : N -> N * N.

(** the second loop of [init_solvers], with [todo] iterations left *)
Fixpoint init_loop (todo : nat) (num_threads i : N) (par : t) (s : solver)
  : res (t * solver) :=
  match todo with
  | O => Ok (par, s)
  | S todo' =>
      let r := random_gen (m_rand s) in
      let s := set_rand s (snd r) in
      let s := set_params s (set_uint (m_params s) "random_seed" (fst r)) in
      let s :=
        if i =? u32 (1 + num_threads / 2)
        then set_params s (set_sym (m_params s) "phase" "random")
        else s in
      _ <- vget (m_limits par) i ;;
      let c := alloc_solver (m_params s) (child_rlimit i) in
      let c := copy c s in
      let c := set_par c i in
      v <- vset (m_solvers par) i (Some c) ;;
      let par := set_solvers par v in
      let par := push_child par (child_rlimit i) in
      init_loop todo' num_threads (u32 (i + 1)) par s
  end.

Definition init_solvers (par : t) (s : solver) (num_extra_solvers : N)
  : res (t * solver) :=
  let num_threads := u32 (num_extra_solvers + 1) in
  let par := set_solvers par (resize (N.to_nat num_extra_solvers) None (m_solvers par)) in
  let saved_phase := get_sym (m_params s) "phase" "caching" in
  let par := set_limits par
    (m_limits par ++ replicate (N.to_nat num_extra_solvers) (mk_reslimit 0)) in
  r <- init_loop (N.to_nat num_extra_solvers) num_threads 0 par s ;;
  let s := set_par (snd r) num_extra_solvers in
  let s := set_params s (set_sym (m_params s) "phase" saved_phase) in
  Ok (fst r, s).

End init.

Section get.

(** Modelled from the spec: [mk_clause_core(num_lits, lits, learned)]
    (sat_solver.h) is the clause-insertion interface of the solver, here with
    [learned = true]; it is a parameter. It runs while the reentrancy flag of
    the solver is set, so every sharing call it makes returns at once and the
    coordinator is as it was when it returns. *)
Variable mk_clause_core : list literal -> solver -> solver.

(** [for (unsigned i = 0; i < n; ++i) m_lits.push_back(to_literal(ptr[i]));],
    with [todo] iterations left; [ptr] is an offset into [m_vectors], and
    [ptr[i]] outside the vector is a failure *)
Fixpoint read_lits (todo : nat) (ptr i : N) (p : vector_pool.t)
    (m_lits : list literal) : res (list literal) :=
  match todo with
  | O => Ok m_lits
  | S todo' =>
      x <- vget (vector_pool.m_vectors p) (ptr + i) ;;
      read_lits todo' ptr (u32 (i + 1)) p (m_lits ++ [to_literal x])
  end.

(** the loop of [_get_clauses], with [owner] read before it: [m_lits.reset()],
    the literals of the record, [SASSERT(n >= 2)], [s.mk_clause_core(...)];
    [inner] is the fuel of each [get_vector]. The buffer [m_lits] of the
    coordinator is passed beside it. *)
Fixpoint _get_clauses_loop (fuel inner : nat) (owner : N) (par : t)
    (m_lits : list literal) (s : solver) : res (t * list literal * solver) :=
  match fuel with
  | O => OutOfFuel
  | S fuel' =>
      r <- vector_pool.get_vector inner owner (m_pool par) ;;
      let par := set_pool par (snd r) in
      match fst r with
      | Some (n, ptr) =>
          m_lits <- read_lits (N.to_nat n) ptr 0 (m_pool par) [] ;;
          SASSERT (2 <=? n) ;;
          let s := mk_clause_core m_lits s in
          _get_clauses_loop fuel' inner owner par m_lits s
      | None => Ok (par, m_lits, s)
      end
  end.

(** [_get_clauses(s)]: the coordinator, its buffer [m_lits] and the solver
    after the call *)
Definition _get_clauses (fuel : nat) (par : t) (m_lits : list literal)
    (s : solver) : res (t * list literal * solver) :=
  let owner := m_par_id s in
  _get_clauses_loop fuel fuel owner par m_lits s.

(** [get_clauses(s)] *)
Definition get_clauses (fuel : nat) (par : t) (m_lits : list literal)
    (s : solver) : res (t * list literal * solver) :=
  if m_par_syncing_clauses s then Ok (par, m_lits, s)
  else
    let saved := m_par_syncing_clauses s in
    let s := set_syncing s true in
    r <- _get_clauses fuel par m_lits s ;;
    Ok (r.1.1, r.1.2, set_syncing r.2 saved).

End get.

(** a coordinator with nothing shared yet and no clones *)
Definition empty : t :=
  mk (vector_pool.reserve 0 0) [] ∅ [] [] [].

End parallel.

(** ** The record layout of the pool *)

Import vector_pool.

(** one [next] step of the source, as a relation on positions *)
Definition next_step (p : vector_pool.t) (a b : N) : Prop := next p a = Ok b.

(** [seg v a b]: whole records lie back to back from position [a] up to
    position [b] *)
Inductive seg (v : list N) : N -> N -> Prop :=
| seg_nil a : seg v a a
| seg_cons a len b :
    v !! N.to_nat (a + 1) = Some len ->
    seg v (a + 2 + len) b ->
    seg v a b.

(** [good v sz a]: whole records lie back to back from [a] up to the last
    record that starts below [sz]; that one ends at or after [sz] *)
Inductive good (v : list N) (sz : N) : N -> Prop :=
| good_last a len :
    v !! N.to_nat (a + 1) = Some len ->
    a < sz ->
    sz <= a + 2 + len ->
    a + 2 + len < word_modulus ->
    good v sz a
| good_step a len :
    v !! N.to_nat (a + 1) = Some len ->
    a + 2 + len < sz ->
    good v sz (a + 2 + len) ->
    good v sz a.

(** where a read cursor [h] with at-tail flag [e] can be: on a record of the
    current lap before the write cursor, at the write cursor having read
    everything, or on a record of the previous lap not overwritten yet *)
Definition head_ok (v : list N) (sz tl h : N) (e : bool) : Prop :=
  (h < tl /\ seg v h tl) \/ (h = tl /\ e = true) \/ (tl <= h /\ good v sz h).

Record pool_inv (p : vector_pool.t) : Prop := mk_pool_inv {
  inv_size : m_size p < word_modulus;
  inv_tail : m_tail p < m_size p;
  inv_vectors : m_size p <= N.of_nat (length (m_vectors p));
  inv_flags : length (m_at_end p) = length (m_heads p);
  inv_threads : N.of_nat (length (m_heads p)) < word_modulus;
  inv_lap : seg (m_vectors p) 0 (m_tail p);
  inv_heads : forall i h e,
    m_heads p !! i = Some h -> m_at_end p !! i = Some e ->
    head_ok (m_vectors p) (m_size p) (m_tail p) h e
}.

(** the states of the pool: [reserve], then complete producer writes and
    consumer reads in any order *)
Inductive reachable : vector_pool.t -> Prop :=
| reach_reserve num_threads sz :
    0 < sz -> sz < word_modulus -> num_threads < word_modulus ->
    reachable (reserve num_threads sz)
| reach_add p fuel owner es p' :
    reachable p ->
    m_size p + N.of_nat (length es) + 2 < word_modulus ->
    add_vector fuel owner es p = Ok p' ->
    reachable p'
| reach_get p fuel c r p' :
    reachable p ->
    get_vector fuel c p = Ok (r, p') ->
    reachable p'.

(** [skips p c a b]: from [a], [next] passes over records owned by [c] only
    and arrives at [b] *)
Inductive skips (p : vector_pool.t) (c : N) : N -> N -> Prop :=
| skips_nil a : skips p c a a
| skips_cons a b d :
    get_owner p a = Ok c ->
    next p a = Ok b ->
    skips p c b d ->
    skips p c a d.

(** the record [(owner, es)] is stored at position [pos] *)
Definition record_at (p : vector_pool.t) (pos owner : N) (es : list N) : Prop :=
  get_owner p pos = Ok owner /\
  get_length p pos = Ok (N.of_nat (length es)) /\
  slice p (get_ptr pos) (N.of_nat (length es)) = es.

(** [q] is [p] with a longer backing store and other cursors *)
Definition grows (p q : vector_pool.t) : Prop :=
  m_size q = m_size p /\ m_tail q = m_tail p /\
  forall j x, m_vectors p !! j = Some x -> m_vectors q !! j = Some x.

(** what the loop of [begin_add_vector] does to a cursor [h] when a record of
    [cap] words is about to be written: a cursor strictly inside the span moves
    by whole records until it leaves the span, to the start of the buffer or
    to a record behind the span; any other cursor stays *)
Definition advanced (p : vector_pool.t) (cap h h' : N) : Prop :=
  rtc (next_step p) h h' /\
  ((~ (m_tail p < h /\ h < m_tail p + cap) /\ h' = h) \/
   (m_tail p < h /\ h < m_tail p + cap /\
    (h' = 0 \/ (m_tail p + cap <= h' /\ good (m_vectors p) (m_size p) h')))).

(** [advances p cap h h']: the run of the loop
    [while (m_tail < h && h < m_tail + cap) next(h)] of [begin_add_vector]
    from the cursor [h]: as long as the cursor lies strictly between the write cursor
    and the end of the span it moves to the next record; [h'] is the first
    position it reaches that does not *)
Inductive advances (p : vector_pool.t) (cap : N) : N -> N -> Prop :=
| advances_stop h :
    ~ (m_tail p < h /\ h < m_tail p + cap) ->
    advances p cap h h
| advances_step h h1 h' :
    m_tail p < h -> h < m_tail p + cap ->
    next p h = Ok h1 ->
    advances p cap h1 h' ->
    advances p cap h h'.

(** the pool after [get_vector] left the cursor of consumer [c] at [h'] *)
Definition moved (p : vector_pool.t) (c h' : N) : vector_pool.t :=
  set_at_end (set_heads p (<[N.to_nat c := h']> (m_heads p)))
             (<[N.to_nat c := h' =? m_tail p]> (m_at_end p)).

(** [scan p c h e r h']: the run of the loop of [get_vector] for consumer [c]
    from cursor [h] with at-tail flag [e]: it stops at the write cursor with
    nothing to read, hands out a foreign record, or passes over an own record
    and goes on; [r] is the answer and [h'] the cursor left behind *)
Inductive scan (p : vector_pool.t) (c : N) : N -> bool -> option (N * N) -> N -> Prop :=
| scan_none :
    scan p c (m_tail p) true None (m_tail p)
| scan_found h e o n h' :
    h <> m_tail p \/ e = false ->
    get_owner p h = Ok o -> o <> c ->
    get_length p h = Ok n ->
    next p h = Ok h' ->
    scan p c h e (Some (n, get_ptr h)) h'
| scan_skip h e h1 r h' :
    h <> m_tail p \/ e = false ->
    get_owner p h = Ok c ->
    next p h = Ok h1 ->
    scan p c h1 (h1 =? m_tail p) r h' ->
    scan p c h e r h'.

(** ** Pools that hold clauses *)

(** [cseg v a b]: as [seg], and every record has two payload words or more *)
Inductive cseg (v : list N) : N -> N -> Prop :=
| cseg_nil a : cseg v a a
| cseg_cons a len b :
    v !! N.to_nat (a + 1) = Some len ->
    2 <= len ->
    cseg v (a + 2 + len) b ->
    cseg v a b.

(** [cgood v sz a]: as [good], and every record has two payload words or more
    and lies inside the backing store *)
Inductive cgood (v : list N) (sz : N) : N -> Prop :=
| cgood_last a len :
    v !! N.to_nat (a + 1) = Some len ->
    2 <= len ->
    a < sz ->
    sz <= a + 2 + len ->
    a + 2 + len < word_modulus ->
    (N.to_nat (a + 2 + len) <= length v)%nat ->
    cgood v sz a
| cgood_step a len :
    v !! N.to_nat (a + 1) = Some len ->
    2 <= len ->
    a + 2 + len < sz ->
    cgood v sz (a + 2 + len) ->
    cgood v sz a.

Definition chead_ok (v : list N) (sz tl h : N) (e : bool) : Prop :=
  (h < tl /\ cseg v h tl) \/ (h = tl /\ e = true) \/ (tl <= h /\ cgood v sz h).

(** the layout invariant of a pool that holds clauses only *)
Record clause_inv (p : vector_pool.t) : Prop := mk_clause_inv {
  cinv_pool : pool_inv p;
  cinv_lap : cseg (m_vectors p) 0 (m_tail p);
  cinv_heads : forall i h e,
    m_heads p !! i = Some h -> m_at_end p !! i = Some e ->
    chead_ok (m_vectors p) (m_size p) (m_tail p) h e
}.

(** the states of a pool that holds clauses: [reserve], then complete writes
    of two words or more and reads in any order *)
Inductive clause_reachable : vector_pool.t -> Prop :=
| creach_reserve num_threads sz :
    0 < sz -> sz < word_modulus -> num_threads < word_modulus ->
    clause_reachable (reserve num_threads sz)
| creach_add p fuel owner es p' :
    clause_reachable p ->
    (2 <= length es)%nat ->
    m_size p + N.of_nat (length es) + 2 < word_modulus ->
    add_vector fuel owner es p = Ok p' ->
    clause_reachable p'
| creach_get p fuel c r p' :
    clause_reachable p ->
    get_vector fuel c p = Ok (r, p') ->
    clause_reachable p'.

(** a bound on the words between the cursor [h] (with flag [e]) and the write
    cursor, the way the cursor goes *)
Definition pending (p : vector_pool.t) (h : N) (e : bool) : nat :=
  if (h =? m_tail p) && e then 0%nat
  else if h <? m_tail p then N.to_nat (m_tail p - h)
  else (N.to_nat (m_size p - h + m_tail p) + 1)%nat.

(** [drain p c h e cls]: the records that consumer [c] is handed by repeated
    [get_vector] from cursor [h] with flag [e], until the answer is none *)
Inductive drain (p : vector_pool.t) (c : N) : N -> bool -> list (list N) -> Prop :=
| drain_done h e h' :
    scan p c h e None h' ->
    drain p c h e []
| drain_more h e n ptr h' cls :
    scan p c h e (Some (n, ptr)) h' ->
    drain p c h' (h' =? m_tail p) cls ->
    drain p c h e (slice p ptr n :: cls).

(** ** The unit log and the configuration of a solver *)

Import parallel.

(** the unit log and its index set agree, and no literal index occurs twice *)
Definition units_inv (par : parallel.t) : Prop :=
  NoDup (index <$> m_units par) /\
  forall i, i ∈ m_unit_set par <-> i ∈ index <$> m_units par.

(** the search-phase policy a solver is configured with *)
Definition phase_of (s : solver) : string := get_sym (m_params s) "phase" "caching".

(** the states of a coordinator: made by the constructor, with nothing in the
    unit log; then the pool is reserved, clones are set up, and solvers
    exchange units, share clauses and fetch clauses, in any order and whatever
    their reentrancy flags are *)
Inductive par_reachable : parallel.t -> Prop :=
| preach_new :
    par_reachable parallel.empty
| preach_reserve par num_threads sz :
    par_reachable par ->
    par_reachable (set_pool par (reserve num_threads sz))
| preach_init random_gen par s k par' s' :
    par_reachable par ->
    init_solvers random_gen par s k = Ok (par', s') ->
    par_reachable par'
| preach_exchange par s inp limit out :
    par_reachable par ->
    par_reachable (exchange par s inp limit out).1.1.1
| preach_share2 fuel par s l1 l2 par' s' :
    par_reachable par ->
    share_clause2 fuel par s l1 l2 = Ok (par', s') ->
    par_reachable par'
| preach_share fuel par s c par' s' :
    par_reachable par ->
    share_clause fuel par s c = Ok (par', s') ->
    par_reachable par'
| preach_get mk_clause_core fuel par m_lits s par' m_lits' s' :
    par_reachable par ->
    get_clauses mk_clause_core fuel par m_lits s = Ok (par', m_lits', s') ->
    par_reachable par'.

(** [par'] has the unit log of [par] *)
Definition same_units (par par' : parallel.t) : Prop :=
  m_units par' = m_units par /\ m_unit_set par' = m_unit_set par.

(** the state of a generator after [j] draws, and the number drawn next *)
Definition state_after (random_gen : N -> N * N) (j : nat) (d : N) : N :=
  Nat.iter j (fun d => (random_gen d).2) d.

Definition draw (random_gen : N -> N * N) (j : nat) (d : N) : N :=
  (random_gen (state_after random_gen j d)).1.

(** ** The statements of the specification that the code does not meet *)

(** C1 as the specification states it: the record written from state [p] lies
    at the write cursor when it fits before the end of the buffer and at [0]
    when it does not, and ends at or before [m_size] *)
Definition fits_before_end (p p' : vector_pool.t) (owner : N) (es : list N) : Prop :=
  exists pos,
    record_at p' pos owner es /\
    pos + 2 + N.of_nat (length es) <= m_size p' /\
    (pos = m_tail p \/
     (m_size p < m_tail p + 2 + N.of_nat (length es) /\ pos = 0)).

(** C2 as the specification states it: every cursor in [[tail, tail+n+2)],
    the write cursor included, is outside that span after the call, with its
    at-tail flag cleared *)
Definition cleared_of_span (p p' : vector_pool.t) (n : N) : Prop :=
  forall i h,
    m_heads p !! i = Some h ->
    m_tail p <= h -> h < m_tail p + n + 2 ->
    exists h',
      m_heads p' !! i = Some h' /\
      ~ (m_tail p <= h' /\ h' < m_tail p + n + 2) /\
      m_at_end p' !! i = Some false.

(** C3 as the specification states it, for the pool [p2] reached by the two
    writes: the cursor of consumer [c] has left the span [[0, 8)] of the first
    record, and [get_vector(c)] does not answer with the first record *)
Definition lost_under_pressure (fuel : nat) (c : N) (p2 : vector_pool.t) : Prop :=
  (forall h, m_heads p2 !! N.to_nat c = Some h -> 8 <= h) /\
  (forall r p3, get_vector fuel c p2 = Ok (r, p3) -> r <> Some (6, get_ptr 0)).

(** C8 as the specification states it: of the clones made by
    [init_solvers(s, k)], the one with index [1 + k/2] has the random phase
    and every other has the phase of the master *)
Definition designated_as_stated (random_gen : N -> N * N) (par : parallel.t)
    (s : solver) (k : N) : Prop :=
  exists par' s',
    init_solvers random_gen par s k = Ok (par', s') /\
    forall j cl, m_solvers par' !! j = Some (Some cl) ->
      phase_of cl = if decide (N.of_nat j = 1 + k / 2) then "random"%string else phase_of s.

(** C9 as the specification states it: the phase and the random seed of the
    master after [init_solvers(s, k)] are those before it *)
Definition configuration_restored (random_gen : N -> N * N) (par : parallel.t)
    (s : solver) (k : N) : Prop :=
  forall par' s',
    init_solvers random_gen par s k = Ok (par', s') ->
    phase_of s' = phase_of s /\
    m_params s' !! "random_seed"%string = m_params s !! "random_seed"%string.

(** ** Pools, solvers and a generator to run the examples on *)

(** the answer of a computation that is known to succeed *)
Definition run {A : Type} (m : res A) (d : A) : A :=
  match m with Ok a => a | _ => d end.

(** a pool that has wrapped: three records written, the second consumer has
    read the first of them *)
Definition two_records : vector_pool.t :=
  let p := reserve 2 10 in
  let p := run (add_vector 11 0 [1; 2] p) p in
  run (add_vector 11 0 [3; 4] p) p.

Definition one_read : vector_pool.t :=
  run (r <- get_vector 11 1 two_records ;; Ok (snd r)) two_records.

Definition lapped_pool : vector_pool.t :=
  run (add_vector 11 0 [5; 6] one_read) one_read.

(** a coordinator that has logged one unit, and a solver that is not inside a
    sharing call *)
Definition one_unit : parallel.t :=
  parallel.mk (vector_pool.reserve 0 0) [to_literal 1] {[1]} [] [] [].

Definition idle_solver (id : N) : solver :=
  mk_solver ∅ 0 root_rlimit id false [].

(** a generator to run [init_solvers] with: the linear congruential step
    [m_data = m_data * 214013 + 2531011; return (m_data >> 16) & 0x7fff] *)
Definition lcg (d : N) : N * N :=
  let d' := u32 (d * 214013 + 2531011) in
  (N.land (N.shiftr d' 16) 32767, d').

(** a clause insertion to run the examples with: the clause is appended to
    the clauses of the solver *)
Definition learn (lits : list literal) (s : solver) : solver :=
  mk_solver (m_params s) (m_rand s) (m_rlimit s) (m_par_id s)
            (m_par_syncing_clauses s) (m_clauses s ++ [lits]).

(** a coordinator with a pool for two solvers, a pool that holds one clause of
    solver [0], and clauses to share *)
Definition sharing : parallel.t := set_pool parallel.empty (reserve 2 10).

Definition clause_pool : vector_pool.t :=
  run (add_vector 11 0 [7; 8; 9] (reserve 2 10)) (reserve 2 10).

Definition three_lits : clause :=
  mk_clause [to_literal 7; to_literal 8; to_literal 9] 2.

Definition one_lit : clause := mk_clause [to_literal 7] 2.

(** ** Tactics *)

(** linear arithmetic below the word modulus *)
Ltac word_lia := unfold word_modulus in *; lia.

(** case analysis on the first computation of a sequence that succeeded *)
Ltac bind_ok H :=
  match type of H with
  | bind ?m _ = Ok _ =>
      let E := fresh "E" in
      destruct m eqn:E; simpl in H; [|discriminate H..]
  | (if ?b then _ else _) = Ok _ =>
      let E := fresh "E" in destruct b eqn:E
  end.

(** * Properties *)

(** ** Words and vectors *)

Lemma u32_small x : x < word_modulus -> u32 x = x.
Proof. intros Hx. unfold u32. by apply N.mod_small. Qed.

Lemma vget_Ok {A : Type} (v : list A) (i : N) (x : A) :
  vget v i = Ok x <-> v !! N.to_nat i = Some x.
Proof.
  unfold vget. destruct (v !! N.to_nat i); split; intros H; by inversion H.
Qed.

Lemma vget_lookup {A : Type} (v : list A) (i : N) (x : A) :
  v !! N.to_nat i = Some x -> vget v i = Ok x.
Proof. apply vget_Ok. Qed.

Lemma vset_Ok {A : Type} (v : list A) (i : N) (x : A) :
  (N.to_nat i < length v)%nat -> vset v i x = Ok (<[N.to_nat i := x]> v).
Proof. intros Hi. unfold vset. by rewrite decide_True. Qed.

Lemma vreserve_length {A : Type} (v : list A) (s : N) (d : A) :
  length (vreserve v s d) = (length v `max` N.to_nat s)%nat.
Proof.
  unfold vreserve. destruct (N.ltb_spec (N.of_nat (length v)) s).
  - rewrite length_app, length_replicate. lia.
  - lia.
Qed.

Lemma vreserve_lookup {A : Type} (v : list A) (s : N) (d : A) (j : nat) (x : A) :
  v !! j = Some x -> vreserve v s d !! j = Some x.
Proof.
  intros Hj. unfold vreserve. destruct (_ <? _); [|done].
  by apply lookup_app_l_Some.
Qed.

(** ** Layout lemmas *)

Lemma seg_le v a b : seg v a b -> a <= b.
Proof. induction 1; lia. Qed.

Lemma seg_trans v a b c : seg v a b -> seg v b c -> seg v a c.
Proof. induction 1; [done|]. intros Hc. eapply seg_cons; eauto. Qed.

Lemma seg_ext v v' a b :
  (forall j x, (j < N.to_nat b)%nat -> v !! j = Some x -> v' !! j = Some x) ->
  seg v a b -> seg v' a b.
Proof.
  intros Hext. induction 1 as [|a len b Hlen Hseg IH]; [constructor|].
  apply seg_le in Hseg as Hle.
  eapply seg_cons; [|by apply IH]. apply Hext; [lia|done].
Qed.

Lemma good_lt v sz a : good v sz a -> a < sz.
Proof. induction 1; lia. Qed.

Lemma good_ext v v' sz a :
  (forall j x, (N.to_nat a < j)%nat -> v !! j = Some x -> v' !! j = Some x) ->
  good v sz a -> good v' sz a.
Proof.
  intros Hext Hg. induction Hg as [a len Hlen Ha Hsz Hw|a len Hlen Ha Hg IH].
  - eapply good_last; eauto. apply Hext; [lia|done].
  - eapply good_step; eauto.
    + apply Hext; [lia|done].
    + apply IH. intros j x Hj. apply Hext. lia.
Qed.

Lemma seg_good v sz a b : seg v a b -> good v sz b -> good v sz a.
Proof.
  induction 1 as [|a len b Hlen Hseg IH]; [done|]. intros Hg.
  specialize (IH Hg). apply good_lt in IH as Hlt.
  eapply good_step; eauto.
Qed.

Lemma next_eq p a len :
  a < m_size p -> m_size p < word_modulus ->
  m_vectors p !! N.to_nat (a + 1) = Some len ->
  next p a = Ok (if m_size p <=? u32 (a + 2 + len) then 0 else u32 (a + 2 + len)).
Proof.
  intros Ha Hsz Hlen. unfold next, get_length, sassert.
  apply N.ltb_lt in Ha as Hb. rewrite Hb. simpl.
  rewrite (u32_small (a + 1)) by word_lia. rewrite (vget_lookup _ _ _ Hlen). simpl.
  by destruct (_ <=? _).
Qed.

Lemma next_seg p a b :
  m_size p < word_modulus -> b < m_size p -> a < b ->
  seg (m_vectors p) a b ->
  exists a', next p a = Ok a' /\ a + 2 <= a' /\ a' <= b /\ seg (m_vectors p) a' b.
Proof.
  intros Hsz Hb Hab Hseg. inversion Hseg as [|a0 len b0 Hlen Hrest]; subst; [lia|].
  apply seg_le in Hrest as Hle.
  exists (a + 2 + len). rewrite (next_eq p a len) by (done || lia).
  rewrite u32_small by word_lia.
  destruct (N.leb_spec (m_size p) (a + 2 + len)); [lia|].
  repeat split; (done || lia).
Qed.

Lemma next_good p a :
  m_size p < word_modulus ->
  good (m_vectors p) (m_size p) a ->
  exists a', next p a = Ok a' /\
    (a' = 0 \/ (a + 2 <= a' /\ good (m_vectors p) (m_size p) a')).
Proof.
  intros Hsz Hg. inversion Hg as [a0 len Hlen Ha Hend Hw|a0 len Hlen Ha Hrest]; subst.
  - exists 0. rewrite (next_eq p a len) by done.
    rewrite u32_small by done.
    destruct (N.leb_spec (m_size p) (a + 2 + len)); [|lia]. auto.
  - exists (a + 2 + len). rewrite (next_eq p a len) by (done || lia).
    rewrite u32_small by lia.
    destruct (N.leb_spec (m_size p) (a + 2 + len)); [lia|].
    split; [done|]. right. split; [lia|done].
Qed.

(** ** The producer protocol *)

Lemma set_heads_id p : set_heads p (m_heads p) = p.
Proof. by destruct p. Qed.

Lemma next_grows p q a b : grows p q -> next p a = Ok b -> next q a = Ok b.
Proof.
  intros (Hsz & _ & Hv). unfold next, get_length. rewrite Hsz.
  destruct (sassert _); simpl; try done.
  destruct (vget (m_vectors p) _) as [len| |] eqn:Hlen; simpl; try done.
  apply vget_Ok, Hv, vget_Ok in Hlen. by rewrite Hlen.
Qed.

Lemma advance_head_ok fuel cap i p q h :
  grows p q ->
  m_size p < word_modulus ->
  m_tail p + cap < word_modulus ->
  m_heads q !! N.to_nat i = Some h ->
  (m_tail p < h -> good (m_vectors p) (m_size p) h) ->
  (N.to_nat (m_size p - h) + 1 < fuel)%nat \/ (h <= m_tail p /\ (0 < fuel)%nat) ->
  exists h',
    advance_head fuel cap i q = Ok (set_heads q (<[N.to_nat i := h']> (m_heads q))) /\
    advanced p cap h h'.
Proof.
  unfold advanced.
  revert q h. induction fuel as [|fuel IH]; intros q h Hq Hsz Hcap Hh Hgood Hfuel; [lia|].
  destruct Hq as (Hqsz & Hqt & Hqv).
  simpl. rewrite (vget_lookup _ _ _ Hh). simpl. rewrite Hqt.
  rewrite (u32_small (m_tail p + cap)) by done.
  destruct (N.ltb_spec (m_tail p) h) as [Hlt|Hge]; simpl;
    [destruct (N.ltb_spec h (m_tail p + cap)) as [Hin|Hout]; simpl|].
  - destruct (next_good p h Hsz (Hgood Hlt)) as (h1 & Hnext & Hh1).
    rewrite (next_grows p q h h1) by done. simpl.
    apply lookup_lt_Some in Hh as Hi.
    rewrite vset_Ok by done. simpl.
    specialize (Hgood Hlt). apply good_lt in Hgood as Hhsz.
    destruct (IH (set_heads q (<[N.to_nat i:=h1]> (m_heads q))) h1)
      as (h' & Hrun & Hsteps & Hpost); try done.
    + simpl. by rewrite list_lookup_insert_eq.
    + intros Ht1. destruct Hh1 as [->|[_ ?]]; [lia|done].
    + destruct Hh1 as [->|[Hlt1 Hg1]]; [right; lia|].
      apply good_lt in Hg1. destruct Hfuel as [?|?]; [left|]; lia.
    + exists h'. rewrite Hrun. simpl in *. rewrite list_insert_insert_eq.
      split; [done|]. split.
      * eapply rtc_l; [exact Hnext|]. exact Hsteps.
      * right. split; [done|]. split; [done|].
        destruct Hpost as [[Hn ->]|(_ & _ & ?)]; [|done].
        destruct Hh1 as [->|[Hlt1 Hg1]]; [by left|].
        right. split; [lia|done].
  - exists h. rewrite list_insert_id by done. rewrite set_heads_id.
    split; [done|]. split; [apply rtc_refl|]. left. split; [lia|done].
  - exists h. rewrite list_insert_id by done. rewrite set_heads_id.
    split; [done|]. split; [apply rtc_refl|]. left. split; [lia|done].
Qed.

Lemma for_heads_ok fuel cap todo i p q :
  grows p q ->
  m_size p < word_modulus ->
  m_tail p + cap < word_modulus ->
  (N.to_nat (m_size p) < fuel)%nat ->
  length (m_at_end q) = length (m_heads q) ->
  N.of_nat (length (m_heads q)) < word_modulus ->
  (N.to_nat i + todo = length (m_heads q))%nat ->
  (forall j h, (N.to_nat i <= j)%nat -> m_heads q !! j = Some h ->
     m_tail p < h -> good (m_vectors p) (m_size p) h) ->
  exists hs ae,
    for_heads fuel cap todo i q = Ok (set_at_end (set_heads q hs) ae) /\
    length hs = length (m_heads q) /\
    length ae = length (m_heads q) /\
    (forall j, (j < N.to_nat i)%nat ->
       hs !! j = m_heads q !! j /\ ae !! j = m_at_end q !! j) /\
    (forall j h, (N.to_nat i <= j)%nat -> m_heads q !! j = Some h ->
       exists h', hs !! j = Some h' /\ ae !! j = Some false /\ advanced p cap h h').
Proof.
  revert i q. induction todo as [|todo IH];
    intros i q Hq Hsz Hcap Hfuel Hlen Hthr Hi Hgood.
  - exists (m_heads q), (m_at_end q). simpl. split; [by destruct q|].
    repeat split; try done.
    intros j h Hj Hh. apply lookup_lt_Some in Hh. lia.
  - simpl.
    destruct (lookup_lt_is_Some_2 (m_heads q) (N.to_nat i)) as [h Hh]; [lia|].
    destruct (advance_head_ok fuel cap i p q h) as (h1 & Hrun & Hadv); try done.
    { intros Hlt. by apply (Hgood (N.to_nat i) h). }
    { destruct (N.le_gt_cases h (m_tail p)); [right; lia|left].
      assert (h < m_size p) by (eapply good_lt, (Hgood (N.to_nat i)); (done || lia)).
      lia. }
    rewrite Hrun. simpl.
    rewrite vset_Ok by lia. simpl.
    rewrite (u32_small (i + 1)) by lia.
    set (q2 := set_at_end (set_heads q (<[N.to_nat i:=h1]> (m_heads q)))
                          (<[N.to_nat i:=false]> (m_at_end q))).
    destruct (IH (i + 1) q2) as (hs & ae & Hfor & Hlhs & Hlae & Hbefore & Hafter);
      try done.
    { simpl. by rewrite !length_insert. }
    { simpl. by rewrite length_insert. }
    { simpl. rewrite length_insert. lia. }
    { simpl. intros j h2 Hj Hh2. rewrite list_lookup_insert_ne in Hh2 by lia.
      apply (Hgood j h2); (done || lia). }
    simpl in *. rewrite length_insert in Hlhs, Hlae.
    exists hs, ae. split; [exact Hfor|]. split; [done|]. split; [done|]. split.
    + intros j Hj. destruct (Hbefore j) as [H1 H2]; [lia|].
      rewrite H1, H2. rewrite !list_lookup_insert_ne by lia. done.
    + intros j h2 Hj Hh2. destruct (decide (j = N.to_nat i)) as [->|Hne].
      * destruct (Hbefore (N.to_nat i)) as [H1 H2]; [lia|].
        rewrite list_lookup_insert_eq in H1 by lia.
        rewrite list_lookup_insert_eq in H2 by lia.
        exists h1. rewrite Hh in Hh2. inversion Hh2; subst h2. done.
      * destruct (Hafter j h2) as (h' & ? & ? & ?); [lia| |].
        { by rewrite list_lookup_insert_ne. }
        exists h'. done.
Qed.

Lemma push_ok x p :
  m_tail p + 1 < word_modulus ->
  (N.to_nat (m_tail p) < length (m_vectors p))%nat ->
  push x p = Ok (set_tail (set_vectors p (<[N.to_nat (m_tail p) := x]> (m_vectors p)))
                          (m_tail p + 1)).
Proof.
  intros Hw Hlen. unfold push. rewrite vset_Ok by done. simpl.
  by rewrite u32_small.
Qed.

Lemma add_vector_elems_ok es p :
  m_tail p + N.of_nat (length es) < word_modulus ->
  (N.to_nat (m_tail p) + length es <= length (m_vectors p))%nat ->
  exists v,
    add_vector_elems es p
      = Ok (set_tail (set_vectors p v) (m_tail p + N.of_nat (length es))) /\
    length v = length (m_vectors p) /\
    (forall j, (j < N.to_nat (m_tail p) \/ N.to_nat (m_tail p) + length es <= j)%nat ->
       v !! j = m_vectors p !! j) /\
    (forall k e, es !! k = Some e -> v !! (N.to_nat (m_tail p) + k)%nat = Some e).
Proof.
  revert p. induction es as [|e es IH]; intros p Hw Hlen.
  - exists (m_vectors p). simpl. rewrite N.add_0_r.
    split; [by destruct p|]. split; [done|]. split; [done|].
    intros k e Hk. done.
  - simpl in *. unfold add_vector_elem. rewrite push_ok by lia. simpl.
    set (p1 := set_tail _ _).
    destruct (IH p1) as (v & Hrun & Hlv & Hout & Hin).
    { simpl. lia. }
    { simpl. rewrite length_insert. lia. }
    simpl in *. rewrite length_insert in Hlv.
    exists v. split.
    { rewrite Hrun. f_equal. f_equal. lia. }
    split; [done|]. split.
    + intros j Hj. rewrite Hout by lia. apply list_lookup_insert_ne. lia.
    + intros [|k] e' Hk; simpl in Hk.
      * inversion Hk; subst e'. rewrite Hout by lia.
        rewrite Nat.add_0_r. apply list_lookup_insert_eq. lia.
      * specialize (Hin k e' Hk). rewrite <- Hin. f_equal. lia.
Qed.

Lemma grows_reserve p s :
  grows p (set_vectors p (vreserve (m_vectors p) s 0)).
Proof.
  split; [done|]. split; [done|]. simpl. intros j x. apply vreserve_lookup.
Qed.

Lemma begin_add_vector_ok fuel owner n p :
  pool_inv p ->
  m_size p + n + 2 < word_modulus ->
  (N.to_nat (m_size p) < fuel)%nat ->
  exists hs ae,
    begin_add_vector fuel owner n p
      = Ok (vector_pool.mk
              (<[N.to_nat (m_tail p + 1) := n]>
                 (<[N.to_nat (m_tail p) := owner]>
                    (vreserve (m_vectors p) (m_size p + (n + 2)) 0)))
              (m_size p) (m_tail p + 1 + 1) hs ae) /\
    length hs = length (m_heads p) /\
    length ae = length (m_heads p) /\
    (forall j h, m_heads p !! j = Some h ->
       exists h', hs !! j = Some h' /\ ae !! j = Some false /\ advanced p (n + 2) h h').
Proof.
  intros Hinv Hw Hfuel. destruct Hinv as [Hsz Ht Hv Hfl Hthr Hlap Hheads].
  unfold begin_add_vector, sassert.
  apply N.ltb_lt in Ht as Htb. rewrite Htb. simpl.
  rewrite (u32_small (n + 2)) by word_lia.
  rewrite (u32_small (m_size p + (n + 2))) by word_lia.
  pose proof (grows_reserve p (m_size p + (n + 2))) as Hgrow.
  pose proof (vreserve_length (m_vectors p) (m_size p + (n + 2)) 0) as Hlq.
  remember (vreserve (m_vectors p) (m_size p + (n + 2)) 0) as v0 eqn:Hv0.
  destruct (for_heads_ok fuel (n + 2) (length (m_heads p)) 0 p (set_vectors p v0))
    as (hs & ae & Hfor & Hlhs & Hlae & _ & Hadv); try done.
  { word_lia. }
  { intros j h _ Hh Hlt.
    destruct (lookup_lt_is_Some_2 (m_at_end p) j) as [e He].
    { rewrite Hfl. by eapply lookup_lt_Some. }
    destruct (Hheads j h e Hh He) as [[? _]|[[? _]|[_ ?]]]; (done || word_lia). }
  simpl in Hfor, Hlhs, Hlae, Hadv.
  rewrite Hfor. simpl.
  rewrite push_ok; simpl; [|word_lia|word_lia].
  rewrite push_ok; simpl; [|word_lia|rewrite length_insert; word_lia].
  exists hs, ae. split; [done|]. split; [done|]. split; [done|].
  intros j h Hh. apply Hadv; [lia|done].
Qed.

Lemma add_vector_ok fuel owner es p :
  let n := N.of_nat (length es) in
  let tl := N.to_nat (m_tail p) in
  pool_inv p ->
  m_size p + n + 2 < word_modulus ->
  (N.to_nat (m_size p) < fuel)%nat ->
  exists v hs ae,
    add_vector fuel owner es p
      = Ok (vector_pool.mk v (m_size p)
              (if m_size p <=? m_tail p + 2 + n then 0 else m_tail p + 2 + n) hs ae) /\
    length v = (length (m_vectors p) `max` N.to_nat (m_size p + n + 2))%nat /\
    (forall j x, (j < tl \/ tl + 2 + length es <= j)%nat ->
       m_vectors p !! j = Some x -> v !! j = Some x) /\
    v !! tl = Some owner /\
    v !! S tl = Some n /\
    (forall k e, es !! k = Some e -> v !! (tl + 2 + k)%nat = Some e) /\
    length hs = length (m_heads p) /\
    length ae = length (m_heads p) /\
    (forall j h, m_heads p !! j = Some h ->
       exists h', hs !! j = Some h' /\ ae !! j = Some false /\ advanced p (n + 2) h h').
Proof.
  intros n tl Hinv Hw Hfuel.
  destruct (begin_add_vector_ok fuel owner n p Hinv Hw Hfuel)
    as (hs & ae & Hbegin & Hlhs & Hlae & Hadv).
  destruct Hinv as [Hsz Ht Hv Hfl Hthr Hlap Hheads].
  unfold add_vector. fold n. rewrite Hbegin. simpl.
  pose proof (vreserve_length (m_vectors p) (m_size p + (n + 2)) 0) as Hlq.
  remember (vreserve (m_vectors p) (m_size p + (n + 2)) 0) as v0 eqn:Hv0.
  destruct (add_vector_elems_ok es
    (vector_pool.mk
       (<[N.to_nat (m_tail p + 1):=n]> (<[N.to_nat (m_tail p):=owner]> v0))
       (m_size p) (m_tail p + 1 + 1) hs ae)) as (v & Hrun & Hlv & Hout & Hin).
  { simpl. fold n. word_lia. }
  { simpl. rewrite !length_insert. word_lia. }
  simpl in Hrun, Hlv, Hout, Hin. rewrite Hrun. simpl. rewrite !length_insert in Hlv.
  replace (N.to_nat (m_tail p + 1 + 1)) with (tl + 2)%nat in * by lia.
  replace (N.to_nat (m_tail p + 1)) with (S tl) in * by lia.
  fold tl in Hout, Hin.
  exists v, hs, ae. split.
  { unfold end_add_vector. simpl. fold n.
    replace (m_tail p + 1 + 1 + n) with (m_tail p + 2 + n) by lia.
    by destruct (_ <=? _). }
  split; [word_lia|]. split.
  { intros j x Hj Hx. rewrite Hout by lia.
    rewrite !list_lookup_insert_ne by lia. subst v0. by apply vreserve_lookup. }
  split.
  { rewrite Hout by lia. rewrite list_lookup_insert_ne by lia.
    apply list_lookup_insert_eq. word_lia. }
  split.
  { rewrite Hout by lia. apply list_lookup_insert_eq. rewrite length_insert. word_lia. }
  done.
Qed.

Lemma reserve_inv num_threads sz :
  0 < sz -> sz < word_modulus -> num_threads < word_modulus ->
  pool_inv (reserve num_threads sz).
Proof.
  intros Hpos Hsz Hthr. split; simpl.
  - done.
  - done.
  - rewrite length_replicate. lia.
  - by rewrite !length_replicate.
  - rewrite length_replicate. lia.
  - constructor.
  - intros i h e Hh He. apply lookup_replicate in Hh as [-> _].
    apply lookup_replicate in He as [-> _]. right. left. done.
Qed.

Lemma add_vector_inv fuel owner es p p' :
  pool_inv p ->
  m_size p + N.of_nat (length es) + 2 < word_modulus ->
  (N.to_nat (m_size p) < fuel)%nat ->
  add_vector fuel owner es p = Ok p' ->
  pool_inv p'.
Proof.
  intros Hinv Hw Hfuel Hrun.
  destruct (add_vector_ok fuel owner es p Hinv Hw Hfuel)
    as (v & hs & ae & Hrun' & Hlv & Hout & Hown & Hn & Hin & Hlhs & Hlae & Hadv).
  rewrite Hrun in Hrun'. inversion Hrun' as [Hp']. clear Hrun Hrun' Hp' p'.
  destruct Hinv as [Hsz Ht Hv Hfl Hthr Hlap Hheads].
  set (n := N.of_nat (length es)) in *.
  set (tl := m_tail p) in *.
  assert (seg v tl (tl + 2 + n)) as Hrec.
  { eapply seg_cons; [|apply seg_nil].
    replace (N.to_nat (tl + 1)) with (S (N.to_nat tl)) by lia. done. }
  assert (forall a, seg (m_vectors p) a tl -> seg v a tl) as Hkeep.
  { intros a. apply seg_ext. intros j x Hj. apply Hout. lia. }
  assert (forall a, tl + 2 + n <= a ->
            good (m_vectors p) (m_size p) a -> good v (m_size p) a) as Hold.
  { intros a Ha. apply good_ext. intros j x Hj. apply Hout. lia. }
  split; simpl.
  - done.
  - destruct (N.leb_spec (m_size p) (tl + 2 + n)); lia.
  - lia.
  - lia.
  - lia.
  - destruct (N.leb_spec (m_size p) (tl + 2 + n)); [constructor|].
    eapply seg_trans; [by apply Hkeep|done].
  - intros i h' e Hh' He.
    destruct (lookup_lt_is_Some_2 (m_heads p) i) as [h Hh].
    { rewrite <- Hlhs. by eapply lookup_lt_Some. }
    destruct (lookup_lt_is_Some_2 (m_at_end p) i) as [e0 He0].
    { rewrite Hfl. by eapply lookup_lt_Some. }
    destruct (Hadv i h Hh) as (h2 & Hh2 & He2 & _ & Hpost).
    rewrite Hh' in Hh2. inversion Hh2; subst h2. clear Hh2.
    rewrite He in He2. inversion He2; subst e. clear He2.
    specialize (Hheads i h e0 Hh He0). fold tl in Hheads, Hpost.
    assert ((h' <= tl /\ seg (m_vectors p) h' tl) \/
            (tl + 2 + n <= h' /\ good (m_vectors p) (m_size p) h')) as Hmid.
    { destruct Hpost as [[Hnot ->]|(_ & _ & [->|[Hge Hg]])].
      - destruct Hheads as [[? ?]|[[-> _]|[Hge Hg]]].
        + left. split; [lia|done].
        + left. split; [lia|constructor].
        + destruct (decide (h = tl)) as [->|Hne].
          * left. split; [lia|constructor].
          * right. split; [lia|done].
      - left. split; [lia|done].
      - right. split; [lia|done]. }
    unfold head_ok.
    destruct (N.leb_spec (m_size p) (tl + 2 + n)) as [Hwrap|Hfit].
    + right. right. split; [lia|].
      destruct Hmid as [[Hle Hs]|[Hge Hg]].
      * eapply seg_good; [by apply Hkeep|].
        eapply good_last; try done; [|lia].
        replace (N.to_nat (tl + 1)) with (S (N.to_nat tl)) by lia. done.
      * apply good_lt in Hg. lia.
    + destruct Hmid as [[Hle Hs]|[Hge Hg]].
      * left. split; [lia|]. eapply seg_trans; [by apply Hkeep|done].
      * right. right. split; [lia|]. by apply Hold.
Qed.


(** ** The consumer *)

Lemma next_length p a b :
  next p a = Ok b -> exists len, get_length p a = Ok len.
Proof.
  unfold next. destruct (get_length p a); simpl; eauto;
    destruct (sassert _); simpl; done.
Qed.

Lemma moved_inv p c h1 :
  pool_inv p ->
  (N.to_nat c < length (m_heads p))%nat ->
  head_ok (m_vectors p) (m_size p) (m_tail p) h1 (h1 =? m_tail p) ->
  pool_inv (moved p c h1).
Proof.
  intros [Hsz Ht Hv Hfl Hthr Hlap Hheads] Hc Hok. split; simpl; try done.
  - by rewrite !length_insert.
  - by rewrite length_insert.
  - intros i h e Hh He. destruct (decide (i = N.to_nat c)) as [->|Hne].
    + rewrite list_lookup_insert_eq in Hh by done.
      rewrite list_lookup_insert_eq in He by lia.
      inversion Hh; inversion He; subst. done.
    + rewrite list_lookup_insert_ne in Hh by done.
      rewrite list_lookup_insert_ne in He by done. by eapply Hheads.
Qed.

Lemma moved_moved p c h1 h2 : moved (moved p c h1) c h2 = moved p c h2.
Proof. unfold moved. simpl. by rewrite !list_insert_insert_eq. Qed.

Lemma moved_id p c :
  m_heads p !! N.to_nat c = Some (m_tail p) ->
  m_at_end p !! N.to_nat c = Some true ->
  moved p c (m_tail p) = p.
Proof.
  intros Hh He. unfold moved. rewrite N.eqb_refl.
  rewrite !list_insert_id by done. by destruct p.
Qed.

Lemma scan_moved p c d x h e r h' :
  scan (moved p d x) c h e r h' -> scan p c h e r h'.
Proof.
  induction 1 as [|h e o n h' Hc Ho Hne Hn Hnext|h e h1 r h' Hc Ho Hnext Hs IH].
  - exact (scan_none p c).
  - exact (scan_found p c h e o n h' Hc Ho Hne Hn Hnext).
  - exact (scan_skip p c h e h1 r h' Hc Ho Hnext IH).
Qed.

Lemma get_vector_loop_ok fuel c h e p :
  pool_inv p ->
  m_heads p !! N.to_nat c = Some h ->
  m_at_end p !! N.to_nat c = Some e ->
  (h = m_tail p /\ e = true /\ (0 < fuel)%nat) \/
  (h < m_tail p /\ (N.to_nat (m_tail p - h) + 2 <= 2 * fuel)%nat) \/
  (m_tail p <= h /\ (N.to_nat (m_size p - h + m_tail p) + 3 <= 2 * fuel)%nat) ->
  exists r h',
    get_vector_loop fuel c h p = Ok (r, moved p c h') /\
    pool_inv (moved p c h') /\
    scan p c h e r h'.
Proof.
  revert h e p. induction fuel as [|fuel IH]; intros h e p Hinv Hh He Hfuel; [lia|].
  pose proof Hinv as [Hsz Ht Hv Hfl Hthr Hlap Hheads].
  pose proof (Hheads _ _ _ Hh He) as Hok.
  apply lookup_lt_Some in Hh as Hc.
  simpl. rewrite (vget_lookup _ _ _ He). simpl.
  assert ((h = m_tail p /\ e = true) \/
          (h <> m_tail p \/ e = false) /\
          ((h < m_tail p /\ seg (m_vectors p) h (m_tail p)) \/
           (m_tail p <= h /\ good (m_vectors p) (m_size p) h))) as [[-> ->]|[Hcont Hcase]].
  { destruct (decide (h = m_tail p)) as [->|Hne].
    - destruct e; [by left|]. right. split; [by right|].
      destruct Hok as [[? _]|[[_ ?]|?]]; [lia|done|by right].
    - right. split; [by left|].
      destruct Hok as [?|[[? _]|?]]; [by left|done|by right]. }
  - (* at the write cursor, everything read *)
    rewrite N.eqb_refl. simpl. exists None, (m_tail p).
    rewrite moved_id by done.
    split; [done|]. split; [done|]. apply scan_none.
  - assert (exists h1, next p h = Ok h1 /\
              head_ok (m_vectors p) (m_size p) (m_tail p) h1 (h1 =? m_tail p) /\
              h < m_size p /\
              ((h1 = m_tail p /\ (0 < fuel)%nat) \/
               (h1 < m_tail p /\ (N.to_nat (m_tail p - h1) + 2 <= 2 * fuel)%nat) \/
               (m_tail p < h1 /\
                (N.to_nat (m_size p - h1 + m_tail p) + 3 <= 2 * fuel)%nat)))
      as (h1 & Hnext & Hok1 & Hhsz & Hfuel1).
    { destruct Hcase as [[Hlt Hseg]|[Hge Hg]].
      - destruct (next_seg p h (m_tail p)) as (h1 & Hnext & Hlt1 & Hle1 & Hseg1); try done.
        exists h1. split; [done|]. split; [|split; [lia|]].
        + destruct (N.eqb_spec h1 (m_tail p)); [by right; left|]. left. split; [lia|done].
        + destruct Hfuel as [?|[?|?]]; [lia| |lia].
          destruct (decide (h1 = m_tail p)); [left|right; left]; lia.
      - destruct (next_good p h Hsz Hg) as (h1 & Hnext & Hh1).
        apply good_lt in Hg as Hhsz.
        exists h1. split; [done|]. split; [|split; [done|]].
        + destruct Hh1 as [->|[Hlt1 Hg1]].
          * destruct (N.eqb_spec 0 (m_tail p)); [by right; left|].
            left. split; [lia|done].
          * right. right. split; [lia|done].
        + assert (N.to_nat (m_size p - h + m_tail p) + 3 <= 2 * S fuel)%nat as Hf.
          { destruct Hfuel as [(-> & -> & _)|[?|[_ ?]]]; [|lia|done].
            by destruct Hcont. }
          destruct Hh1 as [->|[Hlt1 Hg1]].
          * destruct (decide (0 = m_tail p)); [left|right; left]; lia.
          * apply good_lt in Hg1. right. right. lia. }
    assert ((if negb (h =? m_tail p) then Ok true else Ok (negb e)) = Ok true) as ->.
    { destruct (N.eqb_spec h (m_tail p)); simpl; [|done].
      destruct Hcont as [?| ->]; done. }
    simpl. unfold sassert.
    apply N.ltb_lt in Hhsz as Hhb. rewrite Hhb.
    apply N.ltb_lt in Ht as Htb. rewrite Htb. simpl.
    destruct (lookup_lt_is_Some_2 (m_vectors p) (N.to_nat h)) as [o Ho]; [lia|].
    unfold get_owner at 1. rewrite (vget_lookup _ _ _ Ho). simpl.
    rewrite (vget_lookup _ _ _ Hh). simpl.
    rewrite Hnext. simpl.
    rewrite vset_Ok by done. simpl.
    rewrite vset_Ok by lia. simpl.
    fold (moved p c h1).
    pose proof (moved_inv p c h1 Hinv Hc Hok1) as Hinv1.
    destruct (N.eqb_spec c o) as [<-|Hne]; simpl.
    + (* an own record: go on *)
      unfold moved at 1. simpl. unfold vget at 1.
      rewrite list_lookup_insert_eq by done. simpl. fold (moved p c h1).
      destruct (IH h1 (h1 =? m_tail p) (moved p c h1)) as (r & h' & Hrun & Hinv' & Hscan);
        try done.
      { simpl. by rewrite list_lookup_insert_eq. }
      { simpl. rewrite list_lookup_insert_eq by lia. done. }
      { simpl. destruct Hfuel1 as [[-> ?]|[?|[? ?]]].
        - left. by rewrite N.eqb_refl.
        - right. by left.
        - right. right. split; [lia|done]. }
      rewrite moved_moved in Hrun, Hinv'.
      exists r, h'. split; [done|]. split; [done|].
      eapply scan_skip; [done|by apply vget_lookup|done|]. by eapply scan_moved.
    + (* a foreign record: hand it out *)
      destruct (next_length p h h1 Hnext) as [len Hlen].
      change (get_length (moved p c h1) h) with (get_length p h). rewrite Hlen. simpl.
      exists (Some (len, get_ptr h)), h1. split; [done|]. split; [done|].
      eapply scan_found; [done|by apply vget_lookup|done|done|done].
Qed.

Lemma get_vector_ok fuel c h e p :
  pool_inv p ->
  m_heads p !! N.to_nat c = Some h ->
  m_at_end p !! N.to_nat c = Some e ->
  (N.to_nat (m_size p) + 3 <= 2 * fuel)%nat ->
  exists r h',
    get_vector fuel c p = Ok (r, moved p c h') /\
    pool_inv (moved p c h') /\
    scan p c h e r h'.
Proof.
  intros Hinv Hh He Hfuel. unfold get_vector. rewrite (vget_lookup _ _ _ Hh). simpl.
  apply get_vector_loop_ok; try done.
  pose proof Hinv as [Hsz Ht Hv Hfl Hthr Hlap Hheads].
  destruct (Hheads _ _ _ Hh He) as [[? _]|[[-> ->]|[? Hg]]].
  - right. left. split; [done|]. lia.
  - left. split; [done|]. split; [done|]. lia.
  - apply good_lt in Hg. right. right. split; [done|]. lia.
Qed.

(** ** Fuel *)

Lemma advance_head_mono f f' cap i p r :
  (f <= f')%nat -> advance_head f cap i p = Ok r -> advance_head f' cap i p = Ok r.
Proof.
  revert f' p. induction f as [|f IH]; intros f' p Hle H; [done|].
  destruct f' as [|f']; [lia|]. simpl in *.
  bind_ok H. simpl. bind_ok H; [|done].
  bind_ok H. simpl. bind_ok H. simpl. apply IH; [lia|done].
Qed.

Lemma for_heads_mono f f' cap todo i p r :
  (f <= f')%nat -> for_heads f cap todo i p = Ok r -> for_heads f' cap todo i p = Ok r.
Proof.
  intros Hle. revert i p. induction todo as [|todo IH]; intros i p H; [done|].
  simpl in *. bind_ok H. rewrite (advance_head_mono f f' _ _ _ _ Hle E). simpl.
  bind_ok H. simpl. by apply IH.
Qed.

Lemma add_vector_mono f f' owner es p r :
  (f <= f')%nat -> add_vector f owner es p = Ok r -> add_vector f' owner es p = Ok r.
Proof.
  intros Hle H. unfold add_vector, begin_add_vector in *.
  bind_ok H. bind_ok E. simpl. bind_ok E.
  rewrite (for_heads_mono f f' _ _ _ _ _ Hle E1). simpl. rewrite E. simpl. done.
Qed.

Lemma get_vector_loop_mono f f' c h p r :
  (f <= f')%nat -> get_vector_loop f c h p = Ok r -> get_vector_loop f' c h p = Ok r.
Proof.
  revert f' h p. induction f as [|f IH]; intros f' h p Hle H; [done|].
  destruct f' as [|f']; [lia|]. simpl in *.
  bind_ok H. simpl. bind_ok H; [|done].
  repeat (bind_ok H; simpl; try done).
  apply IH; [lia|done].
Qed.

Lemma get_vector_mono f f' c p r :
  (f <= f')%nat -> get_vector f c p = Ok r -> get_vector f' c p = Ok r.
Proof.
  intros Hle H. unfold get_vector in *. bind_ok H. simpl.
  by eapply get_vector_loop_mono.
Qed.

(** ** Reachable states *)

Lemma reachable_inv p : reachable p -> pool_inv p.
Proof.
  induction 1 as [k sz Hpos Hsz Hk|p fuel owner es p' Hr IH Hw Hrun|p fuel c r p' Hr IH Hrun].
  - by apply reserve_inv.
  - eapply (add_vector_inv (fuel `max` S (N.to_nat (m_size p)))); try done; [lia|].
    eapply add_vector_mono; [|done]. lia.
  - unfold get_vector in Hrun.
    destruct (vget (m_heads p) c) as [h| |] eqn:Hh; simpl in Hrun; try done.
    apply vget_Ok in Hh.
    destruct (lookup_lt_is_Some_2 (m_at_end p) (N.to_nat c)) as [e He].
    { rewrite (inv_flags p IH). by eapply lookup_lt_Some. }
    destruct (get_vector_ok (fuel `max` (N.to_nat (m_size p) + 3)) c h e p)
      as (r' & h' & Hrun' & Hinv' & _); try done; [lia|].
    unfold get_vector in Hrun'. rewrite (vget_lookup _ _ _ Hh) in Hrun'. simpl in Hrun'.
    eapply (get_vector_loop_mono _ (fuel `max` (N.to_nat (m_size p) + 3))) in Hrun; [|lia].
    rewrite Hrun in Hrun'. by inversion Hrun'.
Qed.

(** ** Records in the pool *)

Lemma slice_written (v : list N) (a : nat) (es : list N) :
  (forall k e, es !! k = Some e -> v !! (a + k)%nat = Some e) ->
  take (length es) (drop a v) = es.
Proof.
  intros Hes. apply list_eq. intros k.
  destruct (decide (k < length es)%nat) as [Hk|Hk].
  - rewrite lookup_take_lt by done. rewrite lookup_drop.
    destruct (lookup_lt_is_Some_2 es k Hk) as [e He]. rewrite He. by apply Hes.
  - rewrite lookup_take_ge by lia. symmetry. apply lookup_ge_None. lia.
Qed.

Lemma add_vector_record fuel owner es p :
  pool_inv p ->
  m_size p + N.of_nat (length es) + 2 < word_modulus ->
  (N.to_nat (m_size p) < fuel)%nat ->
  exists p',
    add_vector fuel owner es p = Ok p' /\
    record_at p' (m_tail p) owner es /\
    m_size p + N.of_nat (length es) + 2 <= N.of_nat (length (m_vectors p')) /\
    m_size p' = m_size p /\
    m_tail p' = (if m_size p <=? m_tail p + 2 + N.of_nat (length es)
                 then 0 else m_tail p + 2 + N.of_nat (length es)) /\
    (forall j x,
       (j < N.to_nat (m_tail p) \/ N.to_nat (m_tail p) + 2 + length es <= j)%nat ->
       m_vectors p !! j = Some x -> m_vectors p' !! j = Some x) /\
    (forall j h, m_heads p !! j = Some h ->
       exists h', m_heads p' !! j = Some h' /\ m_at_end p' !! j = Some false /\
         advanced p (N.of_nat (length es) + 2) h h').
Proof.
  intros Hinv Hw Hfuel.
  destruct (add_vector_ok fuel owner es p Hinv Hw Hfuel)
    as (v & hs & ae & Hrun & Hlv & Hout & Hown & Hn & Hin & Hlhs & Hlae & Hadv).
  pose proof Hinv as [Hsz Ht Hv Hfl Hthr Hlap Hheads].
  eexists. split; [exact Hrun|]. simpl.
  split; [|split; [lia|]; split; [done|]; split; [done|]; split; [exact Hout|]; exact Hadv].
  unfold record_at, get_owner, get_length, slice, get_ptr. simpl.
  split; [by apply vget_Ok|]. split.
  { rewrite (u32_small (m_tail p + 1)) by word_lia. apply vget_Ok.
    replace (N.to_nat (m_tail p + 1)) with (S (N.to_nat (m_tail p))) by lia. done. }
  rewrite Nat2N.id.
  replace (N.to_nat (m_tail p + 2)) with (N.to_nat (m_tail p) + 2)%nat by lia.
  by apply slice_written.
Qed.

Lemma slice_lookup (v : list N) (a : nat) (es : list N) (k : nat) (e : N) :
  take (length es) (drop a v) = es -> es !! k = Some e -> v !! (a + k)%nat = Some e.
Proof.
  intros Hs He. rewrite <- Hs in He. apply lookup_lt_Some in He as Hk.
  rewrite length_take in Hk. rewrite lookup_take_lt in He by lia.
  by rewrite lookup_drop in He.
Qed.

Lemma record_at_kept p p' pos owner es :
  pos + 1 < word_modulus ->
  (forall j x, (j < N.to_nat pos + 2 + length es)%nat ->
     m_vectors p !! j = Some x -> m_vectors p' !! j = Some x) ->
  record_at p pos owner es -> record_at p' pos owner es.
Proof.
  intros Hw Hkeep (Ho & Hn & Hs).
  unfold record_at, get_owner, get_length, slice, get_ptr in *.
  rewrite (u32_small (pos + 1)) in * by done.
  apply vget_Ok in Ho, Hn. rewrite Nat2N.id in *.
  split; [apply vget_Ok, Hkeep; [lia|done]|].
  split; [apply vget_Ok, Hkeep; [lia|done]|].
  apply slice_written. intros k e He.
  replace (N.to_nat (pos + 2) + k)%nat with (N.to_nat pos + 2 + k)%nat by lia.
  apply Hkeep; [apply lookup_lt_Some in He; lia|].
  replace (N.to_nat pos + 2 + k)%nat with (N.to_nat (pos + 2) + k)%nat by lia.
  by eapply slice_lookup.
Qed.

(** a cursor on a foreign record, with something to read: [get_vector] hands
    that record out *)
Lemma scan_foreign p c h e r h' owner n :
  scan p c h e r h' ->
  h <> m_tail p \/ e = false ->
  get_owner p h = Ok owner -> owner <> c ->
  get_length p h = Ok n ->
  r = Some (n, get_ptr h).
Proof.
  intros Hscan Hcont Ho Hne Hn.
  inversion Hscan as [|h0 e0 o n0 h0' Hc Ho' Hne' Hn' Hnext|h0 e0 h1 r0 h0' Hc Ho' Hnext Hs];
    subst.
  - by destruct Hcont.
  - congruence.
  - congruence.
Qed.


(** [share_clause] runs the producer protocol [add_vector] *)
Lemma share_clause_add_vector fuel par s c :
  enable_add c = true ->
  m_par_syncing_clauses s = false ->
  share_clause fuel par s c
    = (p <- add_vector fuel (m_par_id s) (index <$> m_lits c) (m_pool par) ;;
       Ok (set_pool par p, s)).
Proof.
  intros Hadd Hs. unfold share_clause, add_vector. rewrite Hadd, Hs. simpl.
  rewrite length_fmap. fold (parallel.size c).
  destruct (begin_add_vector _ _ _ _); simpl; [|done..].
  destruct (add_vector_elems _ _); simpl; [|done..].
  by destruct s; simpl in *; subst.
Qed.

Lemma share_clause2_add_vector fuel par s l1 l2 :
  m_par_syncing_clauses s = false ->
  share_clause2 fuel par s l1 l2
    = (p <- add_vector fuel (m_par_id s) [index l1; index l2] (m_pool par) ;;
       Ok (set_pool par p, s)).
Proof.
  intros Hs. unfold share_clause2, add_vector. rewrite Hs. simpl.
  destruct (begin_add_vector _ _ _ _); simpl; [|done..].
  destruct (add_vector_elem _ _); simpl; [|done..].
  destruct (add_vector_elem _ _); simpl; [|done..].
  by destruct s; simpl in *; subst.
Qed.

(** ** The ring buffer against the specification *)

Lemma lapped_pool_reachable : reachable lapped_pool.
Proof.
  apply (reach_add one_read 11 0 [5; 6]); [|reflexivity|reflexivity].
  apply (reach_get two_records 11 1 (Some (2, 2))); [|reflexivity].
  apply (reach_add (run (add_vector 11 0 [1; 2] (reserve 2 10)) (reserve 2 10))
           11 0 [3; 4]); [|reflexivity|reflexivity].
  apply (reach_add (reserve 2 10) 11 0 [1; 2]); [|reflexivity|reflexivity].
  apply reach_reserve; reflexivity.
Qed.

(** C1 (amended): after [reserve] and any complete writes and reads, a
    complete write stores its record in one piece in the span
    [[pos, pos+2+len)] that starts at the write cursor [pos], with [pos]
    below [m_size] and the whole span inside the backing vector, which the
    write has grown for it; the span may end past [m_size]. The write cursor
    goes back to [0] after the record is written, when it has reached or
    passed [m_size], and so stays below [m_size]. *)
Theorem add_vector_contiguous p fuel owner es :
  reachable p ->
  m_size p + N.of_nat (length es) + 2 < word_modulus ->
  (N.to_nat (m_size p) < fuel)%nat ->
  exists p',
    add_vector fuel owner es p = Ok p' /\
    record_at p' (m_tail p) owner es /\
    m_tail p < m_size p /\
    m_size p + N.of_nat (length es) + 2 <= N.of_nat (length (m_vectors p')) /\
    m_size p' = m_size p /\
    m_tail p' = (if m_size p <=? m_tail p + 2 + N.of_nat (length es)
                 then 0 else m_tail p + 2 + N.of_nat (length es)) /\
    m_tail p' < m_size p'.
Proof.
  intros Hr Hw Hfuel. apply reachable_inv in Hr as Hinv.
  destruct (add_vector_record fuel owner es p Hinv Hw Hfuel)
    as (p' & Hrun & Hrec & Hlen & Hsz & Ht & _).
  exists p'. repeat (split; [done|]). split; [apply Hinv|].
  split; [done|]. split; [done|]. split; [done|].
  eapply inv_tail, add_vector_inv; eauto.
Qed.

(** the write of one record into a fresh pool of four words *)
Lemma add_vector_contiguous_witness :
  exists p',
    add_vector 5 0 [7] (reserve 1 4) = Ok p' /\
    record_at p' 0 0 [7] /\ m_tail p' = 3.
Proof.
  destruct (add_vector_contiguous (reserve 1 4) 5 0 [7])
    as (p' & Hrun & Hrec & _ & _ & _ & Ht & _).
  - apply reach_reserve; reflexivity.
  - reflexivity.
  - simpl. lia.
  - exists p'. split; [exact Hrun|]. split; [exact Hrec|]. exact Ht.
Defined.

(** C1 fails as stated: after [reserve(1,4)] and a record of three words, the
    next record of three words lies in [[3, 6)], past [m_size = 4] *)
Lemma record_past_end :
  exists p1 p2,
    add_vector 5 0 [7] (reserve 1 4) = Ok p1 /\
    add_vector 5 0 [8] p1 = Ok p2 /\
    record_at p2 3 0 [8] /\
    m_size p2 = 4 /\
    ~ fits_before_end p1 p2 0 [8].
Proof.
  eexists. eexists.
  split; [vm_compute; reflexivity|]. split; [vm_compute; reflexivity|].
  split; [by repeat split|]. split; [done|].
  intros (pos & (_ & _ & Hsl) & Hend & [Hpos|[_ Hpos]]); simpl in *.
  - subst pos. apply Hend. reflexivity.
  - subst pos. vm_compute in Hsl. discriminate.
Qed.

Lemma advances_heads p hs ae cap h h' :
  advances (set_at_end (set_heads p hs) ae) cap h h' -> advances p cap h h'.
Proof.
  induction 1 as [h Hout|h h1 h' Hlt Hin Hnext _ IH].
  - by apply advances_stop.
  - by eapply advances_step.
Qed.

(** the loop on the grown store goes the way it goes on the records of [p] *)
Lemma advances_grows p q cap h h' :
  grows p q ->
  m_size p < word_modulus ->
  (m_tail p < h -> good (m_vectors p) (m_size p) h) ->
  advances q cap h h' -> advances p cap h h'.
Proof.
  intros Hq Hsz Hgood Hadv. pose proof Hq as (Hqsz & Hqt & Hqv).
  induction Hadv as [h Hout|h h1 h' Hlt Hin Hnext _ IH].
  - apply advances_stop. by rewrite <- Hqt.
  - rewrite Hqt in Hlt, Hin.
    destruct (next_good p h Hsz (Hgood Hlt)) as (h2 & Hnext' & Hh2).
    pose proof (next_grows p q h h2 Hq Hnext') as Hnext2.
    rewrite Hnext in Hnext2. inversion Hnext2; subst h2.
    eapply advances_step; [done|done|done|]. apply IH.
    intros Hlt1. destruct Hh2 as [->|[_ ?]]; [lia|done].
Qed.

Lemma advance_head_advances fuel cap i q q' h :
  m_tail q + cap < word_modulus ->
  advance_head fuel cap i q = Ok q' ->
  m_heads q !! N.to_nat i = Some h ->
  exists h',
    q' = set_heads q (<[N.to_nat i := h']> (m_heads q)) /\
    advances q cap h h'.
Proof.
  intros Hcap. revert q h Hcap.
  induction fuel as [|fuel IH]; intros q h Hcap Hrun Hh; [done|].
  simpl in Hrun. rewrite (vget_lookup _ _ _ Hh) in Hrun. simpl in Hrun.
  rewrite (u32_small (m_tail q + cap)) in Hrun by done.
  destruct (N.ltb_spec (m_tail q) h) as [Hlt|Hge]; simpl in Hrun;
    [destruct (N.ltb_spec h (m_tail q + cap)) as [Hin|Hout]; simpl in Hrun|].
  - destruct (next q h) as [h1| |] eqn:Hnext; simpl in Hrun; [|done..].
    apply lookup_lt_Some in Hh as Hi.
    rewrite vset_Ok in Hrun by done. simpl in Hrun.
    destruct (IH (set_heads q (<[N.to_nat i:=h1]> (m_heads q))) h1 Hcap Hrun)
      as (h' & -> & Hadv).
    { simpl. by rewrite list_lookup_insert_eq. }
    exists h'. simpl. rewrite list_insert_insert_eq. split; [done|].
    eapply advances_step; [done|done|done|].
    exact (advances_heads q _ (m_at_end q) cap h1 h' Hadv).
  - inversion Hrun; subst q'. exists h.
    rewrite list_insert_id by done. rewrite set_heads_id. split; [done|].
    apply advances_stop. lia.
  - inversion Hrun; subst q'. exists h.
    rewrite list_insert_id by done. rewrite set_heads_id. split; [done|].
    apply advances_stop. lia.
Qed.

Lemma for_heads_advances fuel cap todo i q q' :
  m_tail q + cap < word_modulus ->
  i + N.of_nat todo < word_modulus ->
  for_heads fuel cap todo i q = Ok q' ->
  (forall j, (j < N.to_nat i)%nat -> m_heads q' !! j = m_heads q !! j) /\
  (forall j h, (N.to_nat i <= j < N.to_nat i + todo)%nat ->
     m_heads q !! j = Some h ->
     exists h', m_heads q' !! j = Some h' /\ advances q cap h h').
Proof.
  revert i q. induction todo as [|todo IH]; intros i q Hcap Hw Hrun.
  - inversion Hrun; subst q'. split; [done|]. intros j h Hj. lia.
  - simpl in Hrun.
    destruct (advance_head fuel cap i q) as [q1| |] eqn:Hadv; simpl in Hrun; [|done..].
    destruct (m_heads q !! N.to_nat i) as [h0|] eqn:Hh0.
    2:{ destruct fuel; simpl in Hadv; [done|]. unfold vget in Hadv.
        by rewrite Hh0 in Hadv. }
    destruct (advance_head_advances fuel cap i q q1 h0 Hcap Hadv Hh0) as (h1 & -> & Hstep).
    destruct (vset _ _ _) as [ae| |] eqn:Hae; simpl in Hrun; [|done..].
    rewrite (u32_small (i + 1)) in Hrun by lia.
    destruct (IH (i + 1) (set_at_end (set_heads q (<[N.to_nat i:=h1]> (m_heads q))) ae)
                Hcap ltac:(lia) Hrun) as [Hold Hnew]. simpl in Hold, Hnew.
    apply lookup_lt_Some in Hh0 as Hi.
    split.
    + intros j Hj. rewrite Hold by lia. by rewrite list_lookup_insert_ne by lia.
    + intros j h Hj Hh. destruct (decide (j = N.to_nat i)) as [->|Hne].
      * rewrite Hh0 in Hh. inversion Hh; subst h0. exists h1.
        rewrite Hold by lia. by rewrite list_lookup_insert_eq.
      * destruct (Hnew j h) as (h' & Hh' & Hadv'); [lia|by rewrite list_lookup_insert_ne|].
        exists h'. split; [done|]. by eapply advances_heads.
Qed.

(** where [begin_add_vector] leaves every cursor *)
Lemma begin_add_vector_until fuel owner n p p' :
  pool_inv p ->
  m_size p + n + 2 < word_modulus ->
  begin_add_vector fuel owner n p = Ok p' ->
  forall i h, m_heads p !! i = Some h ->
    exists h', m_heads p' !! i = Some h' /\ advances p (n + 2) h h'.
Proof.
  intros Hinv Hw Hrun i h Hh. pose proof Hinv as [Hsz Ht Hv Hfl Hthr Hlap Hheads].
  unfold begin_add_vector in Hrun.
  destruct (sassert _); simpl in Hrun; [|done..].
  rewrite (u32_small (n + 2)) in Hrun by word_lia.
  rewrite (u32_small (m_size p + (n + 2))) in Hrun by word_lia.
  pose proof (grows_reserve p (m_size p + (n + 2))) as Hgrow.
  destruct (for_heads _ _ _ _ _) as [q1| |] eqn:Hfor; simpl in Hrun; [|done..].
  apply for_heads_advances in Hfor as [_ Hnew]; simpl; [|word_lia|word_lia].
  apply lookup_lt_Some in Hh as Hi.
  destruct (Hnew i h) as (h' & Hh' & Hadv); [simpl; lia|done|].
  exists h'. split.
  - unfold push in Hrun.
    destruct (vset (m_vectors q1) _ _); simpl in Hrun; [|done..].
    destruct (vset _ _ _); simpl in Hrun; [|done..].
    by inversion Hrun; subst p'.
  - eapply advances_grows; [exact Hgrow|done| |exact Hadv].
    intros Hlt. destruct (lookup_lt_is_Some_2 (m_at_end p) i) as [e He].
    { by rewrite Hfl. }
    destruct (Hheads i h e Hh He) as [[? _]|[[? _]|[_ ?]]]; (done || lia).
Qed.

(** the loop leaves a cursor at one position only *)
Lemma advances_det p cap h a b :
  advances p cap h a -> advances p cap h b -> a = b.
Proof.
  intros Ha. revert b.
  induction Ha as [h Hout|h h1 h' Hlt Hin Hnext _ IH]; intros b Hb.
  - inversion Hb; subst; [done|]. exfalso. by apply Hout.
  - inversion Hb as [h0 Hout|h0 h2 b0 _ _ Hnext' Hrest]; subst.
    + exfalso. by apply Hout.
    + rewrite Hnext in Hnext'. inversion Hnext'; subst h2. by apply IH.
Qed.

(** C2 (amended): from every reachable state, [begin_add_vector(owner, n)]
    moves each read cursor that lies strictly between the write cursor [tail]
    and [tail+n+2] forward by whole records until it is at or past [tail+n+2]
    or has wrapped to [0], and leaves it at the first such position; a cursor
    equal to [tail], like every cursor outside the span, stays where it is;
    the at-tail flag of every consumer is cleared. *)
Theorem begin_add_vector_advances p fuel owner n :
  reachable p ->
  m_size p + n + 2 < word_modulus ->
  (N.to_nat (m_size p) < fuel)%nat ->
  exists p',
    begin_add_vector fuel owner n p = Ok p' /\
    forall i h, m_heads p !! i = Some h ->
      exists h',
        m_heads p' !! i = Some h' /\
        m_at_end p' !! i = Some false /\
        advances p (n + 2) h h' /\
        rtc (next_step p) h h' /\
        (m_tail p < h -> h < m_tail p + n + 2 ->
           h' = 0 \/ m_tail p + n + 2 <= h') /\
        (~ (m_tail p < h /\ h < m_tail p + n + 2) -> h' = h).
Proof.
  intros Hr Hw Hfuel. apply reachable_inv in Hr as Hinv.
  destruct (begin_add_vector_ok fuel owner n p Hinv Hw Hfuel)
    as (hs & ae & Hrun & _ & _ & Hadv).
  eexists. split; [exact Hrun|]. intros i h Hh.
  destruct (Hadv i h Hh) as (h' & Hh' & He' & Hsteps & Hpost).
  destruct (begin_add_vector_until fuel owner n p _ Hinv Hw Hrun i h Hh)
    as (h2 & Hh2 & Huntil).
  simpl in Hh2. rewrite Hh' in Hh2. inversion Hh2; subst h2.
  exists h'. repeat (split; [done|]). split.
  - intros H1 H2. destruct Hpost as [[Hn _]|(_ & _ & [?|[? _]])]; [|by left|right; lia].
    exfalso. apply Hn. lia.
  - intros Hn. destruct Hpost as [[_ ?]|(? & ? & _)]; [done|]. exfalso. apply Hn. lia.
Qed.

(** in the lapped pool the cursor [4] of the second consumer lies in the span
    [(0, 5)] of a record of payload length 3 and is moved out of it *)
Lemma begin_add_vector_advances_witness :
  exists p',
    begin_add_vector 11 0 3 lapped_pool = Ok p' /\
    m_heads lapped_pool !! 1%nat = Some 4 /\
    exists h', m_heads p' !! 1%nat = Some h' /\
      advances lapped_pool (3 + 2) 4 h' /\
      (h' = 0 \/ m_tail lapped_pool + 3 + 2 <= h').
Proof.
  destruct (begin_add_vector_advances lapped_pool 11 0 3) as (p' & Hrun & Hheads).
  - apply lapped_pool_reachable.
  - reflexivity.
  - vm_compute. lia.
  - exists p'. split; [exact Hrun|]. split; [reflexivity|].
    destruct (Hheads 1%nat 4) as (h' & Hh' & _ & Hunt & _ & Hin & _); [reflexivity|].
    exists h'. split; [exact Hh'|]. split; [exact Hunt|]. apply Hin; reflexivity.
Defined.

(** C2 fails as stated: after [reserve(2,10)] the cursors equal the write
    cursor [0], and [begin_add_vector(0, 2)] leaves them inside [[0, 4)] *)
Lemma cursor_at_tail_stays :
  exists p',
    begin_add_vector 11 0 2 (reserve 2 10) = Ok p' /\
    m_heads p' !! 1%nat = Some 0 /\
    ~ cleared_of_span (reserve 2 10) p' 2.
Proof.
  eexists. split; [vm_compute; reflexivity|]. split; [reflexivity|].
  intros Hc. destruct (Hc 1%nat 0) as (h' & Hh' & Hout & _); [reflexivity|done|done|].
  vm_compute in Hh'. inversion Hh'; subst h'. apply Hout. done.
Qed.

(** C3 (amended): after [reserve(2,10)], a complete write of a record of
    payload length 6 and a complete write of a second record of payload
    length 2, the second record lies in [[8, 12)], past [m_size], and the
    first record is intact; the read cursor of a consumer that has not read
    yet is still [0], and its next [get_vector] returns the first record,
    unless the consumer is its owner. *)
Theorem no_loss_when_second_record_overhangs fuel o1 o2 es1 es2 c :
  length es1 = 6%nat -> length es2 = 2%nat ->
  c < 2 -> c <> o1 -> (10 < fuel)%nat ->
  exists p1 p2 p3,
    add_vector fuel o1 es1 (reserve 2 10) = Ok p1 /\
    m_heads p1 !! N.to_nat c = Some 0 /\
    add_vector fuel o2 es2 p1 = Ok p2 /\
    record_at p2 8 o2 es2 /\
    record_at p2 0 o1 es1 /\
    m_heads p2 !! N.to_nat c = Some 0 /\
    get_vector fuel c p2 = Ok (Some (6, get_ptr 0), p3) /\
    slice p3 (get_ptr 0) 6 = es1.
Proof.
  intros Hl1 Hl2 Hc Hne Hfuel.
  assert (pool_inv (reserve 2 10)) as Hinv0 by (by apply reserve_inv).
  destruct (add_vector_record fuel o1 es1 (reserve 2 10) Hinv0)
    as (p1 & Hrun1 & Hrec1 & _ & Hsz1 & Ht1 & _ & Hadv1).
  { rewrite Hl1. reflexivity. }
  { simpl. lia. }
  assert (pool_inv p1) as Hinv1.
  { eapply add_vector_inv; [exact Hinv0| | |exact Hrun1]; [by rewrite Hl1|simpl; lia]. }
  rewrite Hl1 in Ht1. simpl in Hsz1, Ht1.
  destruct (Hadv1 (N.to_nat c) 0) as (h1 & Hh1 & He1 & _ & Hpost1).
  { assert (c = 0 \/ c = 1) as [-> | ->] by lia; reflexivity. }
  assert (h1 = 0) as ->.
  { destruct Hpost1 as [[_ ?]|(Hlt & _)]; [done|]. simpl in Hlt. lia. }
  destruct (add_vector_record fuel o2 es2 p1 Hinv1)
    as (p2 & Hrun2 & Hrec2 & _ & Hsz2 & Ht2 & Hkeep & Hadv2).
  { rewrite Hl2, Hsz1. reflexivity. }
  { rewrite Hsz1. lia. }
  assert (pool_inv p2) as Hinv2.
  { eapply add_vector_inv; [exact Hinv1| | |exact Hrun2];
      [by rewrite Hl2, Hsz1|rewrite Hsz1; lia]. }
  rewrite Hl2, Hsz1, Ht1 in Ht2. simpl in Ht2. rewrite Ht1 in Hrec2.
  destruct (Hadv2 (N.to_nat c) 0 Hh1) as (h2 & Hh2 & He2 & _ & Hpost2).
  assert (h2 = 0) as ->.
  { destruct Hpost2 as [[_ ?]|(Hlt & _)]; [done|]. rewrite Ht1 in Hlt. lia. }
  assert (record_at p2 0 o1 es1) as Hrec1'.
  { eapply record_at_kept; [| |exact Hrec1]; [done|].
    intros j x Hj. apply Hkeep. rewrite Ht1. lia. }
  destruct (get_vector_ok fuel c 0 false p2 Hinv2 Hh2 He2) as (r & h3 & Hget & _ & Hscan).
  { rewrite Hsz2, Hsz1. lia. }
  destruct Hrec1' as (Ho & Hn & Hs). rewrite Hl1 in Hn, Hs.
  assert (r = Some (6, get_ptr 0)) as ->.
  { eapply scan_foreign; eauto. }
  exists p1, p2, (moved p2 c h3). repeat (split; [done|]).
  split; [by repeat split; rewrite ?Hl1|]. repeat (split; [done|]). exact Hs.
Qed.

(** the scenario with both records written by solver [0] and read by solver [1] *)
Lemma no_loss_when_second_record_overhangs_witness :
  exists p1 p2 p3,
    add_vector 11 0 [11; 12; 13; 14; 15; 16] (reserve 2 10) = Ok p1 /\
    m_heads p1 !! 1%nat = Some 0 /\
    add_vector 11 0 [21; 22] p1 = Ok p2 /\
    record_at p2 8 0 [21; 22] /\
    record_at p2 0 0 [11; 12; 13; 14; 15; 16] /\
    m_heads p2 !! 1%nat = Some 0 /\
    get_vector 11 1 p2 = Ok (Some (6, get_ptr 0), p3) /\
    slice p3 (get_ptr 0) 6 = [11; 12; 13; 14; 15; 16].
Proof.
  apply (no_loss_when_second_record_overhangs
           11 0 0 [11; 12; 13; 14; 15; 16] [21; 22] 1).
  - reflexivity.
  - reflexivity.
  - reflexivity.
  - discriminate.
  - lia.
Defined.

(** C3 fails as stated: the cursor of the second consumer is still [0] after
    the second write, and its next [get_vector] answers with the first record *)
Lemma first_record_still_read :
  exists p1 p2 p3,
    add_vector 11 0 [11; 12; 13; 14; 15; 16] (reserve 2 10) = Ok p1 /\
    add_vector 11 0 [21; 22] p1 = Ok p2 /\
    m_heads p2 !! 1%nat = Some 0 /\
    get_vector 11 1 p2 = Ok (Some (6, get_ptr 0), p3) /\
    slice p3 (get_ptr 0) 6 = [11; 12; 13; 14; 15; 16] /\
    ~ lost_under_pressure 11 1 p2.
Proof.
  eexists. eexists. eexists.
  split; [vm_compute; reflexivity|]. split; [vm_compute; reflexivity|].
  split; [vm_compute; reflexivity|]. split; [vm_compute; reflexivity|].
  split; [vm_compute; reflexivity|].
  intros [Hh _]. specialize (Hh 0 eq_refl). by apply Hh.
Qed.

(** C4: from a reachable state in which the cursor of consumer [c] is at the
    write cursor, a complete write of [es] by [owner], followed by
    [get_vector(c)] for a consumer [c] other than [owner], returns a record of
    length [length es] whose words are [es] in order (for every length,
    [0] included, and every owner id). *)
Theorem round_trip p fuel owner es c :
  reachable p ->
  m_heads p !! N.to_nat c = Some (m_tail p) ->
  c <> owner ->
  m_size p + N.of_nat (length es) + 2 < word_modulus ->
  (N.to_nat (m_size p) < fuel)%nat ->
  exists p1 p2 ptr,
    add_vector fuel owner es p = Ok p1 /\
    get_vector fuel c p1 = Ok (Some (N.of_nat (length es), ptr), p2) /\
    slice p2 ptr (N.of_nat (length es)) = es.
Proof.
  intros Hr Hc Hne Hw Hfuel. apply reachable_inv in Hr as Hinv.
  destruct (add_vector_record fuel owner es p Hinv Hw Hfuel)
    as (p1 & Hrun & Hrec & _ & Hsz & Ht & _ & Hadv).
  pose proof (add_vector_inv fuel owner es p p1 Hinv Hw Hfuel Hrun) as Hinv1.
  destruct (Hadv _ _ Hc) as (h' & Hh' & He' & _ & Hpost).
  assert (h' = m_tail p) as ->.
  { destruct Hpost as [[_ ?]|(? & _)]; [done|lia]. }
  destruct (get_vector_ok fuel c (m_tail p) false p1 Hinv1 Hh' He')
    as (r & h2 & Hget & _ & Hscan).
  { pose proof (inv_tail p Hinv). lia. }
  destruct Hrec as (Ho & Hn & Hs).
  assert (r = Some (N.of_nat (length es), get_ptr (m_tail p))) as ->.
  { eapply scan_foreign; eauto. }
  exists p1, (moved p1 c h2), (get_ptr (m_tail p)).
  split; [done|]. split; [done|]. exact Hs.
Qed.

(** a record of three words written by solver [0] and read by solver [1] *)
Lemma round_trip_witness :
  exists p1 p2 ptr,
    add_vector 11 0 [7; 8; 9] (reserve 2 10) = Ok p1 /\
    get_vector 11 1 p1 = Ok (Some (3, ptr), p2) /\
    slice p2 ptr 3 = [7; 8; 9].
Proof.
  apply (round_trip (reserve 2 10) 11 0 [7; 8; 9] 1).
  - apply reach_reserve; reflexivity.
  - reflexivity.
  - discriminate.
  - reflexivity.
  - vm_compute. lia.
Defined.


Lemma scan_skips p c h e r h' :
  scan p c h e r h' ->
  exists a, skips p c h a /\
    match r with
    | None => a = m_tail p /\ h' = m_tail p
    | Some (n, ptr) =>
        exists o, get_owner p a = Ok o /\ o <> c /\
          get_length p a = Ok n /\ ptr = get_ptr a /\ next p a = Ok h'
    end.
Proof.
  induction 1 as [|h e o n h' Hc Ho Hne Hn Hnext|h e h1 r h' Hc Ho Hnext Hs IH].
  - exists (m_tail p). split; [constructor|done].
  - exists h. split; [constructor|]. exists o. done.
  - destruct IH as (a & Hsk & Hr). exists a. split; [|done].
    eapply skips_cons; eauto.
Qed.

(** C5: from every reachable state, [get_vector(c)] of a consumer [c] with
    cursor [h] and at-tail flag [e] returns; it changes nothing but the cursor
    and the flag of [c]; it passes over records owned by [c] only, from [h] up
    to a position [a]; it answers with the record at [a], whose owner is not
    [c], or with none when [a] is the write cursor, where it leaves the
    cursor; and the flag it leaves says whether the cursor equals the write
    cursor. *)
Theorem get_vector_skips_own p fuel c h e :
  reachable p ->
  m_heads p !! N.to_nat c = Some h ->
  m_at_end p !! N.to_nat c = Some e ->
  (N.to_nat (m_size p) + 3 <= 2 * fuel)%nat ->
  exists r h',
    get_vector fuel c p = Ok (r, moved p c h') /\
    m_heads (moved p c h') !! N.to_nat c = Some h' /\
    m_at_end (moved p c h') !! N.to_nat c = Some (h' =? m_tail p) /\
    scan p c h e r h' /\
    exists a, skips p c h a /\
      match r with
      | None => a = m_tail p /\ h' = m_tail p
      | Some (n, ptr) =>
          exists o, get_owner p a = Ok o /\ o <> c /\
            get_length p a = Ok n /\ ptr = get_ptr a /\ next p a = Ok h'
      end.
Proof.
  intros Hr Hh He Hfuel. apply reachable_inv in Hr as Hinv.
  destruct (get_vector_ok fuel c h e p Hinv Hh He Hfuel) as (r & h' & Hget & _ & Hscan).
  exists r, h'. split; [done|].
  apply lookup_lt_Some in Hh as Hc. apply lookup_lt_Some in He as Hc'.
  simpl. rewrite !list_lookup_insert_eq by done.
  split; [done|]. split; [done|]. split; [done|]. by eapply scan_skips.
Qed.

(** the producer of both records finds nothing to read and ends at the write
    cursor [8] *)
Lemma get_vector_skips_own_witness :
  exists r h',
    get_vector 11 0 two_records = Ok (r, moved two_records 0 h') /\
    r = None /\ h' = 8.
Proof.
  destruct (get_vector_skips_own two_records 11 0 0 false)
    as (r & h' & Hget & _ & _ & _ & _).
  - apply (reach_add (run (add_vector 11 0 [1; 2] (reserve 2 10)) (reserve 2 10))
             11 0 [3; 4]); [|reflexivity|vm_compute; reflexivity].
    apply (reach_add (reserve 2 10) 11 0 [1; 2]); [|reflexivity|vm_compute; reflexivity].
    apply reach_reserve; reflexivity.
  - reflexivity.
  - reflexivity.
  - vm_compute. lia.
  - exists r, h'. split; [exact Hget|].
    vm_compute in Hget. inversion Hget. auto.
Defined.

(** C10: from every reachable state and for every consumer [c],
    [get_vector(c)] returns, a record or none, after at most [m_size / 2 + 1]
    rounds of its loop (records take two words or more, so this is one pass
    over the buffer); each round moves the cursor by one whole record, and
    the state it leaves is reachable again. *)
Theorem get_vector_terminates p c fuel :
  reachable p ->
  (N.to_nat c < length (m_heads p))%nat ->
  (N.to_nat (m_size p) / 2 + 2 <= fuel)%nat ->
  exists r p', get_vector fuel c p = Ok (r, p') /\ reachable p'.
Proof.
  intros Hr Hc Hfuel. apply reachable_inv in Hr as Hinv.
  destruct (lookup_lt_is_Some_2 (m_heads p) (N.to_nat c) Hc) as [h Hh].
  destruct (lookup_lt_is_Some_2 (m_at_end p) (N.to_nat c)) as [e He].
  { by rewrite (inv_flags p Hinv). }
  destruct (get_vector_ok fuel c h e p Hinv Hh He) as (r & h' & Hget & _ & _).
  { pose proof (Nat.div_mod_eq (N.to_nat (m_size p)) 2) as Hd.
    pose proof (Nat.mod_upper_bound (N.to_nat (m_size p)) 2). lia. }
  exists r, (moved p c h'). split; [done|]. by eapply reach_get.
Qed.

(** a read in the lapped pool, with the fuel for a pool of ten words *)
Lemma get_vector_terminates_witness :
  exists r p', get_vector 7 1 lapped_pool = Ok (r, p') /\ reachable p'.
Proof.
  apply (get_vector_terminates lapped_pool 1 7).
  - apply lapped_pool_reachable.
  - vm_compute. lia.
  - vm_compute. lia.
Defined.

(** ** The unit exchange *)

Lemma units_inv_empty : units_inv parallel.empty.
Proof. split; simpl; [constructor|]. intros i. set_solver. Qed.

Lemma add_unit_units par lit :
  units_inv par ->
  units_inv (add_unit par lit) /\
  (m_units (add_unit par lit) = m_units par /\ index lit ∈ index <$> m_units par \/
   m_units (add_unit par lit) = m_units par ++ [lit] /\ index lit ∉ index <$> m_units par).
Proof.
  intros [Hnd Hset]. unfold add_unit. destruct (decide _) as [Hin|Hnin].
  - split; [done|]. left. split; [done|]. by apply Hset.
  - assert (index lit ∉ index <$> m_units par) as Hfresh by (by rewrite <- Hset).
    split; [|by right]. split; simpl.
    + rewrite fmap_app. apply NoDup_app. split; [done|]. split.
      * intros x Hx. simpl. rewrite list_elem_of_singleton. by intros ->.
      * apply NoDup_singleton.
    + intros i. rewrite fmap_app, elem_of_app. simpl.
      rewrite elem_of_union, elem_of_singleton, list_elem_of_singleton, Hset. tauto.
Qed.

Lemma fold_add_unit inp par :
  units_inv par ->
  exists added,
    m_units (fold_left add_unit inp par) = m_units par ++ added /\
    sublist added inp /\
    (forall l, l ∈ added -> index l ∉ index <$> m_units par) /\
    (forall l, l ∈ inp -> index l ∈ index <$> m_units (fold_left add_unit inp par)) /\
    units_inv (fold_left add_unit inp par).
Proof.
  revert par. induction inp as [|lit inp IH]; intros par Hinv.
  - exists []. simpl. rewrite app_nil_r. repeat split; try done; try apply Hinv.
    + intros l Hl. by apply elem_of_nil in Hl.
    + intros l Hl. by apply elem_of_nil in Hl.
  - simpl. destruct (add_unit_units par lit Hinv) as [Hinv1 Hcase].
    destruct (IH (add_unit par lit) Hinv1) as (added & Hu & Hsub & Hfresh & Hall & Hinv').
    destruct Hcase as [[Heq Hin]|[Heq Hnin]]; rewrite Heq in *.
    + exists added. split; [done|]. split; [by apply sublist_cons|].
      split; [done|]. split; [|done].
      intros l Hl. apply elem_of_cons in Hl as [->|Hl]; [|by apply Hall].
      rewrite Hu, fmap_app, elem_of_app. by left.
    + exists (lit :: added). split; [by rewrite Hu, <- app_assoc|].
      split; [by apply sublist_skip|]. split; [|split; [|done]].
      * intros l Hl. apply elem_of_cons in Hl as [->|Hl]; [done|].
        specialize (Hfresh l Hl). rewrite fmap_app, elem_of_app in Hfresh. tauto.
      * intros l Hl. apply elem_of_cons in Hl as [->|Hl]; [|by apply Hall].
        rewrite Hu, <- app_assoc, !fmap_app, !elem_of_app. simpl.
        right. left. apply list_elem_of_here.
Qed.

Lemma set_syncing_restore s :
  m_par_syncing_clauses s = false -> set_syncing (set_syncing s true) false = s.
Proof. destruct s; simpl. by intros ->. Qed.

Lemma exchange_run par s inp limit out :
  m_par_syncing_clauses s = false ->
  exchange par s inp limit out =
    (fold_left add_unit inp par, s,
     N.of_nat (length (m_units (fold_left add_unit inp par))),
     out ++ drop (N.to_nat limit) (m_units par)).
Proof.
  intros Hs. unfold exchange. rewrite Hs. rewrite set_syncing_restore by done.
  f_equal. destruct (N.ltb_spec limit (N.of_nat (length (m_units par)))) as [Hlt|Hge].
  - f_equal. apply take_ge. rewrite length_drop. lia.
  - rewrite drop_ge by lia. by rewrite app_nil_r.
Qed.

Lemma units_inv_same par par' : same_units par par' -> units_inv par -> units_inv par'.
Proof. intros [Hu Hs]. unfold units_inv. by rewrite Hu, Hs. Qed.

Lemma init_loop_units random_gen todo nt i par s par' s' :
  init_loop random_gen todo nt i par s = Ok (par', s') -> same_units par par'.
Proof.
  revert i par s. induction todo as [|todo IH]; intros i par s Hrun; simpl in Hrun.
  - by inversion Hrun.
  - destruct (vget _ _); simpl in Hrun; [|done..].
    destruct (vset _ _ _); simpl in Hrun; [|done..].
    by apply IH in Hrun.
Qed.

Lemma init_solvers_units random_gen par s k par' s' :
  init_solvers random_gen par s k = Ok (par', s') -> same_units par par'.
Proof.
  unfold init_solvers. intros Hrun.
  destruct (init_loop _ _ _ _ _ _) as [[par1 s1]| |] eqn:Hloop; simpl in Hrun; [|done..].
  apply init_loop_units in Hloop. by inversion Hrun; subst.
Qed.

Lemma share_clause2_units fuel par s l1 l2 par' s' :
  share_clause2 fuel par s l1 l2 = Ok (par', s') -> same_units par par'.
Proof.
  unfold share_clause2. intros Hrun.
  destruct (m_par_syncing_clauses s); [by inversion Hrun|].
  destruct (begin_add_vector _ _ _ _); simpl in Hrun; [|done..].
  destruct (add_vector_elem _ _); simpl in Hrun; [|done..].
  destruct (add_vector_elem _ _); simpl in Hrun; [|done..].
  by inversion Hrun.
Qed.

Lemma share_clause_units fuel par s c par' s' :
  share_clause fuel par s c = Ok (par', s') -> same_units par par'.
Proof.
  unfold share_clause. intros Hrun.
  destruct (negb (enable_add c) || m_par_syncing_clauses s); [by inversion Hrun|].
  destruct (begin_add_vector _ _ _ _); simpl in Hrun; [|done..].
  destruct (add_vector_elems _ _); simpl in Hrun; [|done..].
  by inversion Hrun.
Qed.

Lemma _get_clauses_loop_units mk_clause_core fuel inner owner par m_lits s par' m_lits' s' :
  _get_clauses_loop mk_clause_core fuel inner owner par m_lits s = Ok (par', m_lits', s') ->
  same_units par par'.
Proof.
  revert par m_lits s. induction fuel as [|fuel IH]; intros par m_lits s Hrun; [done|].
  simpl in Hrun.
  destruct (get_vector _ _ _) as [[[[n ptr]|] p1]| |]; simpl in Hrun; [| |done..].
  - destruct (read_lits _ _ _ _ _); simpl in Hrun; [|done..].
    destruct (sassert _); simpl in Hrun; [|done..].
    by apply IH in Hrun.
  - by inversion Hrun.
Qed.

Lemma get_clauses_units mk_clause_core fuel par m_lits s par' m_lits' s' :
  get_clauses mk_clause_core fuel par m_lits s = Ok (par', m_lits', s') ->
  same_units par par'.
Proof.
  unfold get_clauses, _get_clauses. intros Hrun.
  destruct (m_par_syncing_clauses s); [by inversion Hrun|].
  destruct (_get_clauses_loop _ _ _ _ _ _ _) as [[[par1 l1] s1]| |] eqn:Hloop;
    simpl in Hrun; [|done..].
  apply _get_clauses_loop_units in Hloop. by inversion Hrun; subst.
Qed.

(** in every state of the coordinator the unit log and its index set agree
    and no index occurs twice *)
Lemma par_reachable_units par : par_reachable par -> units_inv par.
Proof.
  induction 1 as [|par nt sz _ IH|rg par s k par' s' _ IH Hrun|par s inp limit out _ IH
                  |fuel par s l1 l2 par' s' _ IH Hrun|fuel par s c par' s' _ IH Hrun
                  |mk fuel par m_lits s par' m_lits' s' _ IH Hrun].
  - apply units_inv_empty.
  - exact IH.
  - eapply units_inv_same; [by eapply init_solvers_units|done].
  - destruct (m_par_syncing_clauses s) eqn:Hs.
    + unfold exchange. by rewrite Hs.
    + rewrite exchange_run by done. simpl.
      by destruct (fold_add_unit inp par IH) as (_ & _ & _ & _ & _ & ?).
  - eapply units_inv_same; [by eapply share_clause2_units|done].
  - eapply units_inv_same; [by eapply share_clause_units|done].
  - eapply units_inv_same; [by eapply get_clauses_units|done].
Qed.

(** C6: in every state of the coordinator, a call of [exchange] that is not
    re-entrant (the reentrancy flag of the calling solver is clear) appends to
    [out] the literals of the global log from position [limit] on, in log
    order; then appends to the log, in order, the literals of [in] whose index
    is not in it yet, so that afterwards every index of [in] is in the log and
    no index occurs twice, however many callers submit it; and sets [limit] to
    the new length of the log; the solver is left as it was. From the empty
    log, for literals [u1], [u2] of different index: [exchange(s0, [u1,u2], 0)]
    leaves [out] empty and sets [limit] to 2, and then [exchange(s1, [], 0)]
    gives [out = [u1,u2]]. (A re-entrant call, made while the flag is set, is
    the no-op of the reentrancy guard.) *)
Theorem exchange_when_not_syncing :
  (forall par s inp limit out,
     par_reachable par ->
     m_par_syncing_clauses s = false ->
     exists added par',
       exchange par s inp limit out
         = (par', s, N.of_nat (length (m_units par')),
            out ++ drop (N.to_nat limit) (m_units par)) /\
       m_units par' = m_units par ++ added /\
       sublist added inp /\
       (forall l, l ∈ added -> index l ∉ index <$> m_units par) /\
       (forall l, l ∈ inp -> index l ∈ index <$> m_units par') /\
       NoDup (index <$> m_units par') /\
       par_reachable par') /\
  (forall s0 s1 u1 u2,
     m_par_syncing_clauses s0 = false ->
     m_par_syncing_clauses s1 = false ->
     index u1 <> index u2 ->
     exists par1,
       exchange parallel.empty s0 [u1; u2] 0 [] = (par1, s0, 2, []) /\
       exchange par1 s1 [] 0 [] = (par1, s1, 2, [u1; u2])) /\
  (forall par s inp limit out,
     m_par_syncing_clauses s = true ->
     exchange par s inp limit out = (par, s, limit, out)).
Proof.
  split; [|split; [|by intros par s inp limit out Hs; unfold exchange; rewrite Hs]].
  - intros par s inp limit out Hr Hs. pose proof (par_reachable_units par Hr) as Hinv.
    destruct (fold_add_unit inp par Hinv) as (added & Hu & Hsub & Hfresh & Hall & Hinv').
    exists added, (fold_left add_unit inp par).
    split; [by apply exchange_run|]. repeat (split; [done|]). split; [apply Hinv'|].
    pose proof (preach_exchange par s inp limit out Hr) as Hr'.
    by rewrite exchange_run in Hr' by done.
  - intros s0 s1 u1 u2 Hs0 Hs1 Hne.
    assert (add_unit parallel.empty u1
            = parallel.mk (vector_pool.reserve 0 0) [u1] ({[index u1]} ∪ ∅) [] [] [])
      as E1.
    { unfold add_unit. rewrite decide_False; [done|apply not_elem_of_empty]. }
    assert (add_unit (parallel.mk (vector_pool.reserve 0 0) [u1] ({[index u1]} ∪ ∅) [] [] []) u2
            = parallel.mk (vector_pool.reserve 0 0) [u1; u2]
                ({[index u2]} ∪ ({[index u1]} ∪ ∅)) [] [] [])
      as E2.
    { unfold add_unit. simpl. rewrite decide_False; [done|].
      rewrite elem_of_union, elem_of_singleton. intros [?|?%elem_of_empty]; done. }
    eexists. rewrite !exchange_run by done. simpl. rewrite E1, E2. simpl.
    split; reflexivity.
Qed.

(** a call that submits one literal twice, and the scenario for the literals of
    index 4 and 6 *)
Lemma exchange_when_not_syncing_witness :
  (exists added par',
     exchange parallel.empty (idle_solver 0) [to_literal 4; to_literal 4] 0 []
       = (par', idle_solver 0, N.of_nat (length (m_units par')),
          [] ++ drop (N.to_nat 0) (m_units parallel.empty)) /\
     m_units par' = m_units parallel.empty ++ added /\
     sublist added [to_literal 4; to_literal 4] /\
     (forall l, l ∈ added -> index l ∉ index <$> m_units parallel.empty) /\
     (forall l, l ∈ [to_literal 4; to_literal 4] -> index l ∈ index <$> m_units par') /\
     NoDup (index <$> m_units par') /\
     par_reachable par') /\
  (exists par1,
     exchange parallel.empty (idle_solver 0) [to_literal 4; to_literal 6] 0 []
       = (par1, idle_solver 0, 2, []) /\
     exchange par1 (idle_solver 1) [] 0 [] = (par1, idle_solver 1, 2, [to_literal 4; to_literal 6])).
Proof.
  split.
  - apply (proj1 exchange_when_not_syncing); [apply preach_new|reflexivity].
  - apply (proj1 (proj2 exchange_when_not_syncing)); [reflexivity|reflexivity|discriminate].
Defined.

(** ** Setting up the clones *)

Section init_facts.

Variable random_gen : N -> N * N.

Lemma init_loop_ok todo nt i par s :
  (N.to_nat i + todo <= length (m_solvers par))%nat ->
  (N.to_nat i + todo <= length (m_limits par))%nat ->
  i + N.of_nat todo < word_modulus ->
  exists par' s',
    init_loop random_gen todo nt i par s = Ok (par', s') /\
    length (m_solvers par') = length (m_solvers par) /\
    (forall j, (N.to_nat i <= j < N.to_nat i + todo)%nat ->
       exists cl, m_solvers par' !! j = Some (Some cl) /\
         m_par_id cl = N.of_nat j /\
         m_par_syncing_clauses cl = false /\
         phase_of cl =
           if decide (i <= u32 (1 + nt / 2) /\ u32 (1 + nt / 2) <= N.of_nat j)
           then "random"%string else phase_of s) /\
    (forall j, (j < N.to_nat i)%nat -> m_solvers par' !! j = m_solvers par !! j) /\
    (forall key, key <> "phase"%string -> key <> "random_seed"%string ->
       m_params s' !! key = m_params s !! key) /\
    m_par_id s' = m_par_id s /\
    m_par_syncing_clauses s' = m_par_syncing_clauses s.
Proof.
  revert i par s. induction todo as [|todo IH]; intros i par s Hsol Hlim Hw.
  - exists par, s. simpl. repeat split; try done. intros j Hj. lia.
  - simpl.
    set (s2 := set_params (set_rand s (random_gen (m_rand s)).2)
                 (set_uint (m_params (set_rand s (random_gen (m_rand s)).2))
                    "random_seed" (random_gen (m_rand s)).1)).
    set (s3 := if i =? u32 (1 + nt / 2)
               then set_params s2 (set_sym (m_params s2) "phase" "random") else s2).
    destruct (lookup_lt_is_Some_2 (m_limits par) (N.to_nat i)) as [lim Hlimi]; [lia|].
    rewrite (vget_lookup _ _ _ Hlimi). simpl.
    rewrite vset_Ok by lia. simpl.
    rewrite (u32_small (i + 1)) by lia.
    set (cl := set_par (copy (alloc_solver (m_params s3) (child_rlimit i)) s3) i).
    set (par2 := push_child _ _).
    destruct (IH (i + 1) par2 s3) as (par' & s' & Hrun & Hlen & Hnew & Hold & Hkeys & Hid & Hfl).
    { simpl. rewrite length_insert. lia. }
    { simpl. lia. }
    { lia. }
    simpl in Hlen, Hold. rewrite length_insert in Hlen.
    assert (phase_of s3 = if decide (i = u32 (1 + nt / 2)) then "random"%string
                          else phase_of s) as Hph.
    { unfold s3, phase_of, get_sym. destruct (N.eqb_spec i (u32 (1 + nt / 2))).
      - rewrite decide_True by done. simpl. unfold set_sym. by rewrite lookup_insert_eq.
      - rewrite decide_False by done. simpl. unfold set_uint.
        by rewrite lookup_insert_ne. }
    exists par', s'. split; [exact Hrun|]. split; [done|]. split; [|split; [|split]].
    + intros j Hj. destruct (decide (j = N.to_nat i)) as [->|Hne].
      * exists cl. rewrite Hold by lia. rewrite list_lookup_insert_eq by lia.
        split; [done|]. split; [simpl; lia|]. split; [done|].
        change (phase_of cl) with (phase_of s3). rewrite Hph.
        rewrite N2Nat.id. repeat case_decide; (done || lia).
      * destruct (Hnew j) as (cl' & Hcl' & Hidj & Hflj & Hphj); [lia|].
        exists cl'. split; [done|]. split; [done|]. split; [done|].
        rewrite Hphj, Hph. repeat case_decide; (done || lia).
    + intros j Hj. rewrite Hold by lia. apply list_lookup_insert_ne. lia.
    + intros key Hk1 Hk2. rewrite Hkeys by done. unfold s3.
      destruct (i =? _); simpl; unfold set_sym, set_uint;
        rewrite ?lookup_insert_ne by done; done.
    + split; [rewrite Hid|rewrite Hfl]; unfold s3; by destruct (i =? _).
Qed.

Lemma init_solvers_ok par s k :
  k < word_modulus ->
  exists par' s',
    init_solvers random_gen par s k = Ok (par', s') /\
    length (m_solvers par') = N.to_nat k /\
    m_par_id s' = k /\
    m_par_syncing_clauses s' = false /\
    (forall j, (j < N.to_nat k)%nat ->
       exists cl, m_solvers par' !! j = Some (Some cl) /\
         m_par_id cl = N.of_nat j /\
         m_par_syncing_clauses cl = false /\
         phase_of cl =
           if decide (u32 (1 + u32 (k + 1) / 2) <= N.of_nat j)
           then "random"%string else phase_of s) /\
    phase_of s' = phase_of s /\
    (forall key, key <> "phase"%string -> key <> "random_seed"%string ->
       m_params s' !! key = m_params s !! key).
Proof.
  intros Hk. unfold init_solvers.
  set (par0 := set_limits _ _).
  destruct (init_loop_ok (N.to_nat k) (u32 (k + 1)) 0 par0 s)
    as (par' & s' & Hrun & Hlen & Hnew & _ & Hkeys & Hid & Hfl).
  { simpl. rewrite length_resize. lia. }
  { simpl. rewrite length_app, length_replicate. lia. }
  { lia. }
  rewrite Hrun. simpl in *. rewrite length_resize in Hlen.
  eexists. eexists. split; [reflexivity|]. simpl.
  split; [done|]. split; [done|]. split; [done|]. split; [|split].
  - intros j Hj. destruct (Hnew j) as (cl & Hcl & Hidj & Hflj & Hphj); [lia|].
    exists cl. split; [done|]. split; [done|]. split; [done|].
    rewrite Hphj. repeat case_decide; (done || lia).
  - unfold phase_of, get_sym, set_sym. simpl. rewrite lookup_insert_eq.
    fold (get_sym (m_params s) "phase" "caching"). done.
  - intros key Hk1 Hk2. unfold set_sym. rewrite lookup_insert_ne by done.
    by apply Hkeys.
Qed.

End init_facts.

(** C8 (amended): for every [k] with [k + 1] below [2^32],
    [init_solvers(s, k)] makes [k] clones with the ids [0 .. k-1] and gives the
    master the id [k]; the clone with index [1 + (k+1)/2], when there is one,
    is configured with the phase ["random"], and every clone with a smaller
    index with the phase the master had before the call. *)
Theorem init_solvers_clones random_gen par s k :
  k + 1 < word_modulus ->
  exists par' s',
    init_solvers random_gen par s k = Ok (par', s') /\
    length (m_solvers par') = N.to_nat k /\
    m_par_id s' = k /\
    forall j, j < k ->
      exists cl, m_solvers par' !! N.to_nat j = Some (Some cl) /\
        m_par_id cl = j /\
        (j < 1 + (k + 1) / 2 -> phase_of cl = phase_of s) /\
        (j = 1 + (k + 1) / 2 -> phase_of cl = "random"%string).
Proof.
  intros Hk.
  destruct (init_solvers_ok random_gen par s k) as (par' & s' & Hrun & Hlen & Hid & _ & Hcl & _);
    [lia|].
  exists par', s'. repeat (split; [done|]). intros j Hj.
  destruct (Hcl (N.to_nat j)) as (cl & Hlook & Hidj & _ & Hph); [lia|].
  rewrite N2Nat.id in *. rewrite (u32_small (k + 1)) in Hph by done.
  pose proof (N.Div0.mul_div_le (k + 1) 2) as Hdiv.
  rewrite (u32_small (1 + (k + 1) / 2)) in Hph by word_lia.
  exists cl. split; [done|]. split; [done|]. split.
  - intros Hlt. rewrite Hph. by rewrite decide_False by lia.
  - intros ->. rewrite Hph. by rewrite decide_True by lia.
Qed.

(** five clones: the designated one has index [1 + 6/2 = 4] *)
Lemma init_solvers_clones_witness :
  exists par' s',
    init_solvers lcg parallel.empty (idle_solver 0) 5 = Ok (par', s') /\
    length (m_solvers par') = 5%nat /\
    m_par_id s' = 5 /\
    exists cl, m_solvers par' !! 4%nat = Some (Some cl) /\ phase_of cl = "random"%string.
Proof.
  destruct (init_solvers_clones lcg parallel.empty (idle_solver 0) 5)
    as (par' & s' & Hrun & Hlen & Hid & Hcl); [reflexivity|].
  exists par', s'. split; [exact Hrun|]. split; [exact Hlen|]. split; [exact Hid|].
  destruct (Hcl 4) as (cl & Hlook & _ & _ & Hph); [reflexivity|].
  exists cl. split; [exact Hlook|]. apply Hph. reflexivity.
Defined.

(** C8 fails as stated: of five clones, the one with index [1 + 5/2 = 3] has
    the phase of the master and the one with index 4 the random phase *)
Lemma designated_clone_index :
  (exists par' s' c3 c4,
     init_solvers lcg parallel.empty (idle_solver 0) 5 = Ok (par', s') /\
     m_solvers par' !! 3%nat = Some (Some c3) /\ phase_of c3 = "caching"%string /\
     m_solvers par' !! 4%nat = Some (Some c4) /\ phase_of c4 = "random"%string) /\
  ~ designated_as_stated lcg parallel.empty (idle_solver 0) 5.
Proof.
  split.
  - do 4 eexists. split; [vm_compute; reflexivity|].
    split; [vm_compute; reflexivity|]. split; [vm_compute; reflexivity|].
    split; [vm_compute; reflexivity|]. vm_compute; reflexivity.
  - intros (par' & s' & Hrun & Hall).
    destruct (init_solvers_ok lcg parallel.empty (idle_solver 0) 5)
      as (par2 & s2 & Hrun2 & _ & _ & _ & Hcl & _); [reflexivity|].
    rewrite Hrun in Hrun2. inversion Hrun2; subst par2 s2. clear Hrun2.
    destruct (Hcl 3%nat) as (cl & Hlook & _ & _ & Hph); [lia|].
    specialize (Hall 3%nat cl Hlook). rewrite Hph in Hall.
    vm_compute in Hall. discriminate.
Qed.

(** C9 (amended): when [init_solvers(s, k)] returns, the search-phase option
    of the master has the value it had before the call (the symbol that was
    set, or the default ["caching"], which is then set), and every option
    other than the phase and the random seed is unchanged. *)
Theorem init_solvers_restores_phase random_gen par s k :
  k < word_modulus ->
  exists par' s',
    init_solvers random_gen par s k = Ok (par', s') /\
    phase_of s' = phase_of s /\
    m_params s' !! "phase"%string = Some (p_sym (phase_of s)) /\
    forall key, key <> "phase"%string -> key <> "random_seed"%string ->
      m_params s' !! key = m_params s !! key.
Proof.
  intros Hk.
  destruct (init_solvers_ok random_gen par s k Hk)
    as (par' & s' & Hrun & _ & _ & _ & _ & Hph & Hkeys).
  exists par', s'. split; [done|]. split; [done|]. split; [|done].
  unfold init_solvers in Hrun.
  destruct (init_loop _ _ _ _ _ _) as [[par1 s1]| |]; simpl in Hrun; [|done..].
  inversion Hrun; subst. simpl. unfold set_sym. by rewrite lookup_insert_eq.
Qed.

(** five clones made from a master with the default phase *)
Lemma init_solvers_restores_phase_witness :
  exists par' s',
    init_solvers lcg parallel.empty (idle_solver 0) 5 = Ok (par', s') /\
    phase_of s' = "caching"%string.
Proof.
  destruct (init_solvers_restores_phase lcg parallel.empty (idle_solver 0) 5)
    as (par' & s' & Hrun & Hph & _); [reflexivity|].
  exists par', s'. split; [exact Hrun|exact Hph].
Defined.

(** C9 fails as stated: a master without a [random_seed] entry has one after
    [init_solvers(s, 1)], the seed drawn for the clone *)
Lemma random_seed_left_behind :
  (exists par' s',
     init_solvers lcg parallel.empty (idle_solver 0) 1 = Ok (par', s') /\
     m_params (idle_solver 0) !! "random_seed"%string = None /\
     m_params s' !! "random_seed"%string = Some (p_uint 38)) /\
  ~ configuration_restored lcg parallel.empty (idle_solver 0) 1.
Proof.
  split.
  - do 2 eexists. split; [vm_compute; reflexivity|]. split; reflexivity.
  - intros Hc. destruct (Hc _ _ eq_refl) as [_ Hseed]. vm_compute in Hseed. discriminate.
Qed.

(** C7: [enable_add] accepts a clause exactly when its size is at most 40 and
    its glue at most 8, or its glue is at most 2; so it accepts size 40 with
    glue 8 and size 1000 with glue 2, and rejects size 41 with glue 8 and size
    41 with glue 3. *)
Theorem enable_add_heuristic :
  (forall c, enable_add c = true <->
     (parallel.size c <= 40 /\ parallel.glue c <= 8) \/ parallel.glue c <= 2) /\
  (forall l, enable_add (mk_clause (replicate 40 l) 8) = true) /\
  (forall l, enable_add (mk_clause (replicate 41 l) 8) = false) /\
  (forall l, enable_add (mk_clause (replicate 1000 l) 2) = true) /\
  (forall l, enable_add (mk_clause (replicate 41 l) 3) = false).
Proof.
  split.
  - intros c. unfold enable_add.
    rewrite orb_true_iff, andb_true_iff, !N.leb_le. done.
  - repeat split; intros l; unfold enable_add, size, glue; simpl m_lits;
      rewrite length_replicate; reflexivity.
Qed.

(** ** More on the ring buffer *)

(** a cursor at the write cursor with its flag set: nothing to read, nothing
    changes *)
Lemma get_vector_at_tail fuel c p :
  m_heads p !! N.to_nat c = Some (m_tail p) ->
  m_at_end p !! N.to_nat c = Some true ->
  (0 < fuel)%nat ->
  get_vector fuel c p = Ok (None, p).
Proof.
  intros Hh He Hfuel. destruct fuel as [|fuel]; [lia|].
  unfold get_vector. rewrite (vget_lookup _ _ _ Hh). simpl.
  rewrite N.eqb_refl. simpl. by rewrite (vget_lookup _ _ _ He).
Qed.

(** what a complete write that returned has done, whatever fuel it ran with *)
Lemma add_vector_returned fuel owner es p p' :
  pool_inv p ->
  m_size p + N.of_nat (length es) + 2 < word_modulus ->
  add_vector fuel owner es p = Ok p' ->
  add_vector (fuel `max` S (N.to_nat (m_size p))) owner es p = Ok p'.
Proof. intros _ _ Hrun. eapply add_vector_mono; [|done]. lia. Qed.

(** what a read that returned has done, whatever fuel it ran with *)
Lemma get_vector_returned fuel c r p p' :
  pool_inv p ->
  get_vector fuel c p = Ok (r, p') ->
  exists h e h',
    m_heads p !! N.to_nat c = Some h /\
    m_at_end p !! N.to_nat c = Some e /\
    p' = moved p c h' /\
    scan p c h e r h'.
Proof.
  intros Hinv Hrun.
  assert (exists h, m_heads p !! N.to_nat c = Some h) as [h Hh].
  { unfold get_vector in Hrun.
    destruct (vget (m_heads p) c) as [h| |] eqn:Hh; simpl in Hrun; try done.
    exists h. by apply vget_Ok. }
  destruct (lookup_lt_is_Some_2 (m_at_end p) (N.to_nat c)) as [e He].
  { rewrite (inv_flags p Hinv). by eapply lookup_lt_Some. }
  destruct (get_vector_ok (fuel `max` (N.to_nat (m_size p) + 3)) c h e p)
    as (r' & h' & Hrun' & _ & Hscan); try done; [lia|].
  eapply (get_vector_mono _ (fuel `max` (N.to_nat (m_size p) + 3))) in Hrun; [|lia].
  rewrite Hrun in Hrun'. inversion Hrun'; subst.
  exists h, e, h'. done.
Qed.

(** X1: in every reachable state the write cursor and every read cursor are
    below [m_size], every consumer has one flag, and a set at-tail flag means
    that the cursor is at the write cursor. *)
Theorem reachable_cursors p :
  reachable p ->
  m_tail p < m_size p /\
  length (m_at_end p) = length (m_heads p) /\
  forall i h e,
    m_heads p !! i = Some h -> m_at_end p !! i = Some e ->
    h < m_size p /\ (e = true -> h = m_tail p).
Proof.
  intros Hr. pose proof (reachable_inv p Hr) as Hinv.
  split; [apply Hinv|]. split; [apply Hinv|].
  intros i h e Hh He. split.
  { pose proof (inv_tail p Hinv).
    destruct (inv_heads p Hinv i h e Hh He) as [[? _]|[[-> _]|[_ Hg]]];
      [lia|done|by eapply good_lt]. }
  revert i h e Hh He.
  induction Hr as [k sz Hpos Hsz Hk|p fuel owner es p' Hr IH Hw Hrun|p fuel c r p' Hr IH Hrun];
    intros i h e Hh He Hset.
  - simpl in *. by apply lookup_replicate in Hh as [-> _].
  - pose proof (reachable_inv p Hr) as Hinv0.
    apply (add_vector_returned _ _ _ _ _ Hinv0 Hw) in Hrun.
    destruct (add_vector_ok (fuel `max` S (N.to_nat (m_size p))) owner es p Hinv0 Hw)
      as (v & hs & ae & Hrun' & _ & _ & _ & _ & _ & Hlhs & _ & Hadv); [lia|].
    rewrite Hrun in Hrun'. inversion Hrun'; subst p'. simpl in *.
    destruct (lookup_lt_is_Some_2 (m_heads p) i) as [h0 Hh0].
    { rewrite <- Hlhs. by eapply lookup_lt_Some. }
    destruct (Hadv i h0 Hh0) as (h1 & _ & He1 & _). congruence.
  - pose proof (reachable_inv p Hr) as Hinv0.
    destruct (get_vector_returned fuel c r p p' Hinv0 Hrun)
      as (h0 & e0 & h' & Hh0 & He0 & -> & Hscan).
    simpl in *. destruct (decide (i = N.to_nat c)) as [->|Hne].
    + apply lookup_lt_Some in Hh0 as Hc. apply lookup_lt_Some in He0 as Hc'.
      rewrite list_lookup_insert_eq in Hh by done.
      rewrite list_lookup_insert_eq in He by done.
      inversion Hh; inversion He; subst. by apply N.eqb_eq.
    + rewrite list_lookup_insert_ne in Hh by done.
      rewrite list_lookup_insert_ne in He by done. by eapply IH.
Qed.

(** the pool that has been lapped *)
Lemma reachable_cursors_witness :
  m_tail lapped_pool < m_size lapped_pool /\
  length (m_at_end lapped_pool) = length (m_heads lapped_pool) /\
  forall i h e,
    m_heads lapped_pool !! i = Some h -> m_at_end lapped_pool !! i = Some e ->
    h < m_size lapped_pool /\ (e = true -> h = m_tail lapped_pool).
Proof. apply (reachable_cursors lapped_pool), lapped_pool_reachable. Defined.

(** X2: a pool that has just been reserved has nothing to read:
    [get_vector] answers none for every consumer and changes nothing. *)
Theorem get_vector_after_reserve num_threads sz c fuel :
  c < num_threads -> (0 < fuel)%nat ->
  get_vector fuel c (reserve num_threads sz) = Ok (None, reserve num_threads sz).
Proof.
  intros Hc Hfuel. apply get_vector_at_tail; [| |done]; simpl;
    apply lookup_replicate; split; (done || lia).
Qed.

Lemma get_vector_after_reserve_witness :
  get_vector 1 2 (reserve 3 100) = Ok (None, reserve 3 100).
Proof. apply get_vector_after_reserve; [reflexivity|lia]. Defined.

(** X3: from a reachable state a complete write (with [size + n + 2] below
    [2^32]) keeps [m_size] and the number of consumers, never shrinks the
    backing store, and leaves every stored word outside the span
    [[tail, tail+2+n)] of its record as it was. *)
Theorem add_vector_frame p fuel owner es :
  reachable p ->
  m_size p + N.of_nat (length es) + 2 < word_modulus ->
  (N.to_nat (m_size p) < fuel)%nat ->
  exists p',
    add_vector fuel owner es p = Ok p' /\
    m_size p' = m_size p /\
    length (m_heads p') = length (m_heads p) /\
    length (m_at_end p') = length (m_at_end p) /\
    (length (m_vectors p) <= length (m_vectors p'))%nat /\
    forall j x,
      (j < N.to_nat (m_tail p) \/ N.to_nat (m_tail p) + 2 + length es <= j)%nat ->
      m_vectors p !! j = Some x -> m_vectors p' !! j = Some x.
Proof.
  intros Hr Hw Hfuel. apply reachable_inv in Hr as Hinv.
  destruct (add_vector_ok fuel owner es p Hinv Hw Hfuel)
    as (v & hs & ae & Hrun & Hlv & Hout & _ & _ & _ & Hlhs & Hlae & _).
  eexists. split; [exact Hrun|]. simpl. split; [done|]. split; [done|].
  split; [by rewrite (inv_flags p Hinv)|]. split; [lia|done].
Qed.

(** a record of three words written to a fresh pool of ten *)
Lemma add_vector_frame_witness :
  exists p',
    add_vector 11 0 [7; 8; 9] (reserve 2 10) = Ok p' /\
    m_size p' = 10 /\
    length (m_heads p') = 2%nat /\
    length (m_at_end p') = 2%nat /\
    (10 <= length (m_vectors p'))%nat /\
    forall j x,
      (j < 0 \/ 5 <= j)%nat ->
      m_vectors (reserve 2 10) !! j = Some x -> m_vectors p' !! j = Some x.
Proof.
  apply (add_vector_frame (reserve 2 10) 11 0 [7; 8; 9]).
  - apply reach_reserve; reflexivity.
  - reflexivity.
  - vm_compute. lia.
Defined.

(** the position after the record that a complete write has stored is the
    write cursor it leaves *)
Lemma next_written (p' : vector_pool.t) tl n :
  m_size p' < word_modulus -> tl < m_size p' ->
  tl + 2 + n < word_modulus ->
  get_length p' tl = Ok n ->
  m_tail p' = (if m_size p' <=? tl + 2 + n then 0 else tl + 2 + n) ->
  next p' tl = Ok (m_tail p').
Proof.
  intros Hsz Ht Hw Hn Htl. unfold get_length in Hn.
  rewrite (u32_small (tl + 1)) in Hn by word_lia. apply vget_Ok in Hn.
  rewrite (next_eq p' tl n) by done. rewrite (u32_small (tl + 2 + n)) by done.
  rewrite Htl. by destruct (_ <=? _).
Qed.

Lemma scan_own p c h e r h' h1 :
  scan p c h e r h' ->
  h <> m_tail p \/ e = false ->
  get_owner p h = Ok c ->
  next p h = Ok h1 ->
  scan p c h1 (h1 =? m_tail p) r h'.
Proof.
  intros Hscan Hcont Ho Hnext.
  inversion Hscan as [|h0 e0 o n0 h0' Hc Ho' Hne' Hn' Hnext'|h0 e0 h2 r0 h0' Hc Ho' Hnext' Hs];
    subst.
  - by destruct Hcont.
  - congruence.
  - congruence.
Qed.

Lemma scan_at_tail p c r h' :
  scan p c (m_tail p) true r h' -> r = None /\ h' = m_tail p.
Proof.
  inversion 1 as [|h0 e0 o n0 h0' Hc|h0 e0 h2 r0 h0' Hc]; subst;
    [done|by destruct Hc..].
Qed.

(** X5: no duplicates: after a complete write to a reachable pool in which
    the cursor of consumer [c] is at the write cursor, [get_vector(c)] of a
    consumer other than the owner hands the record out, and a second
    [get_vector(c)] with no write in between answers none and changes
    nothing. *)
Theorem delivered_once p fuel owner es c :
  reachable p ->
  m_heads p !! N.to_nat c = Some (m_tail p) ->
  c <> owner ->
  m_size p + N.of_nat (length es) + 2 < word_modulus ->
  (N.to_nat (m_size p) < fuel)%nat ->
  exists p1 p2 ptr,
    add_vector fuel owner es p = Ok p1 /\
    get_vector fuel c p1 = Ok (Some (N.of_nat (length es), ptr), p2) /\
    slice p2 ptr (N.of_nat (length es)) = es /\
    get_vector fuel c p2 = Ok (None, p2).
Proof.
  intros Hr Hc Hne Hw Hfuel. apply reachable_inv in Hr as Hinv.
  destruct (add_vector_record fuel owner es p Hinv Hw Hfuel)
    as (p1 & Hrun & Hrec & _ & Hsz & Ht & _ & Hadv).
  pose proof (add_vector_inv fuel owner es p p1 Hinv Hw Hfuel Hrun) as Hinv1.
  destruct (Hadv _ _ Hc) as (h' & Hh' & He' & _ & Hpost).
  assert (h' = m_tail p) as ->.
  { destruct Hpost as [[_ ?]|(? & _)]; [done|lia]. }
  pose proof (inv_tail p Hinv) as Htl. pose proof (inv_size p Hinv) as Hsize.
  destruct (get_vector_ok fuel c (m_tail p) false p1 Hinv1 Hh' He')
    as (r & h2 & Hget & _ & Hscan); [lia|].
  destruct Hrec as (Ho & Hn & Hs).
  assert (r = Some (N.of_nat (length es), get_ptr (m_tail p))) as ->.
  { eapply scan_foreign; eauto. }
  assert (h2 = m_tail p1) as ->.
  { assert (next p1 (m_tail p) = Ok (m_tail p1)) as Hnext.
    { eapply next_written; [| | |exact Hn|]; rewrite ?Hsz; (done || word_lia). }
    inversion Hscan; subst; congruence. }
  exists p1, (moved p1 c (m_tail p1)), (get_ptr (m_tail p)).
  split; [done|]. split; [done|]. split; [exact Hs|].
  apply lookup_lt_Some in Hh' as Hlt. apply lookup_lt_Some in He' as Hlt'.
  apply get_vector_at_tail; simpl; [| |lia].
  - by rewrite list_lookup_insert_eq.
  - rewrite list_lookup_insert_eq by done. by rewrite N.eqb_refl.
Qed.

Lemma delivered_once_witness :
  exists p1 p2 ptr,
    add_vector 11 0 [7; 8; 9] (reserve 2 10) = Ok p1 /\
    get_vector 11 1 p1 = Ok (Some (3, ptr), p2) /\
    slice p2 ptr 3 = [7; 8; 9] /\
    get_vector 11 1 p2 = Ok (None, p2).
Proof.
  apply (delivered_once (reserve 2 10) 11 0 [7; 8; 9] 1).
  - apply reach_reserve; reflexivity.
  - reflexivity.
  - discriminate.
  - reflexivity.
  - vm_compute. lia.
Defined.

(** X6: self-exclusion: a producer whose own cursor is at the write cursor
    writes a record; its own [get_vector] then answers none and leaves its
    cursor behind the record, at the new write cursor, with the at-tail flag
    set. *)
Theorem own_record_skipped p fuel owner es :
  reachable p ->
  m_heads p !! N.to_nat owner = Some (m_tail p) ->
  m_size p + N.of_nat (length es) + 2 < word_modulus ->
  (N.to_nat (m_size p) < fuel)%nat ->
  exists p1 p2,
    add_vector fuel owner es p = Ok p1 /\
    get_vector fuel owner p1 = Ok (None, p2) /\
    m_heads p2 !! N.to_nat owner = Some (m_tail p1) /\
    m_at_end p2 !! N.to_nat owner = Some true.
Proof.
  intros Hr Hc Hw Hfuel. apply reachable_inv in Hr as Hinv.
  destruct (add_vector_record fuel owner es p Hinv Hw Hfuel)
    as (p1 & Hrun & Hrec & _ & Hsz & Ht & _ & Hadv).
  pose proof (add_vector_inv fuel owner es p p1 Hinv Hw Hfuel Hrun) as Hinv1.
  destruct (Hadv _ _ Hc) as (h' & Hh' & He' & _ & Hpost).
  assert (h' = m_tail p) as ->.
  { destruct Hpost as [[_ ?]|(? & _)]; [done|lia]. }
  pose proof (inv_tail p Hinv) as Htl. pose proof (inv_size p Hinv) as Hsize.
  destruct (get_vector_ok fuel owner (m_tail p) false p1 Hinv1 Hh' He')
    as (r & h2 & Hget & _ & Hscan); [lia|].
  destruct Hrec as (Ho & Hn & Hs).
  assert (next p1 (m_tail p) = Ok (m_tail p1)) as Hnext.
  { eapply next_written; [| | |exact Hn|]; rewrite ?Hsz; (done || word_lia). }
  eapply scan_own in Hscan; [|by right|done|done].
  rewrite N.eqb_refl in Hscan. apply scan_at_tail in Hscan as [-> ->].
  exists p1, (moved p1 owner (m_tail p1)). split; [done|]. split; [done|].
  apply lookup_lt_Some in Hh' as Hlt. apply lookup_lt_Some in He' as Hlt'.
  simpl. rewrite !list_lookup_insert_eq by done. by rewrite N.eqb_refl.
Qed.

Lemma own_record_skipped_witness :
  exists p1 p2,
    add_vector 11 0 [7; 8; 9] (reserve 2 10) = Ok p1 /\
    get_vector 11 0 p1 = Ok (None, p2) /\
    m_heads p2 !! 0%nat = Some (m_tail p1) /\
    m_at_end p2 !! 0%nat = Some true.
Proof.
  apply (own_record_skipped (reserve 2 10) 11 0 [7; 8; 9]).
  - apply reach_reserve; reflexivity.
  - reflexivity.
  - reflexivity.
  - vm_compute. lia.
Defined.

(** X7: none is stable: from a reachable state, when [get_vector] answers
    none, the consumer is at the write cursor with its flag set, and until the
    next write every further [get_vector] answers none and changes nothing. *)
Theorem none_is_stable p fuel c :
  reachable p ->
  (N.to_nat c < length (m_heads p))%nat ->
  (N.to_nat (m_size p) / 2 + 2 <= fuel)%nat ->
  exists r p',
    get_vector fuel c p = Ok (r, p') /\
    (r = None ->
       m_heads p' !! N.to_nat c = Some (m_tail p') /\
       m_at_end p' !! N.to_nat c = Some true /\
       get_vector fuel c p' = Ok (None, p')).
Proof.
  intros Hr Hc Hfuel. apply reachable_inv in Hr as Hinv.
  destruct (lookup_lt_is_Some_2 (m_heads p) (N.to_nat c) Hc) as [h Hh].
  destruct (lookup_lt_is_Some_2 (m_at_end p) (N.to_nat c)) as [e He].
  { by rewrite (inv_flags p Hinv). }
  destruct (get_vector_ok fuel c h e p Hinv Hh He) as (r & h' & Hget & _ & Hscan).
  { pose proof (Nat.div_mod_eq (N.to_nat (m_size p)) 2) as Hd.
    pose proof (Nat.mod_upper_bound (N.to_nat (m_size p)) 2). lia. }
  exists r, (moved p c h'). split; [done|]. intros ->.
  apply scan_skips in Hscan as (a & _ & _ & ->).
  apply lookup_lt_Some in He as Hc'.
  assert (m_heads (moved p c (m_tail p)) !! N.to_nat c = Some (m_tail p)) as Hh'.
  { simpl. by rewrite list_lookup_insert_eq. }
  assert (m_at_end (moved p c (m_tail p)) !! N.to_nat c = Some true) as He'.
  { simpl. rewrite list_lookup_insert_eq by done. by rewrite N.eqb_refl. }
  split; [done|]. split; [done|]. apply get_vector_at_tail; [done|done|lia].
Qed.

Lemma none_is_stable_witness :
  exists r p',
    get_vector 7 0 two_records = Ok (r, p') /\
    (r = None ->
       m_heads p' !! 0%nat = Some (m_tail p') /\
       m_at_end p' !! 0%nat = Some true /\
       get_vector 7 0 p' = Ok (None, p')).
Proof.
  apply (none_is_stable two_records 7 0).
  - apply (reach_add (run (add_vector 11 0 [1; 2] (reserve 2 10)) (reserve 2 10))
             11 0 [3; 4]); [|reflexivity|vm_compute; reflexivity].
    apply (reach_add (reserve 2 10) 11 0 [1; 2]); [|reflexivity|vm_compute; reflexivity].
    apply reach_reserve; reflexivity.
  - vm_compute. lia.
  - vm_compute. lia.
Defined.

Lemma scan_det p c h e r1 h1 r2 h2 :
  scan p c h e r1 h1 -> scan p c h e r2 h2 -> r1 = r2 /\ h1 = h2.
Proof.
  intros H1. revert r2 h2.
  induction H1 as [|h e o n h' Hc Ho Hne Hn Hnext|h e h1 r h' Hc Ho Hnext Hs IH];
    intros r2 h2 H2.
  - by apply scan_at_tail in H2 as [-> ->].
  - inversion H2; subst; [by destruct Hc| |]; split; congruence.
  - apply IH. eapply scan_own; eauto.
Qed.

Lemma scan_in_moved p c d x h e r h' :
  scan p c h e r h' -> scan (moved p d x) c h e r h'.
Proof.
  induction 1 as [|h e o n h' Hc Ho Hne Hn Hnext|h e h1 r h' Hc Ho Hnext Hs IH].
  - exact (scan_none (moved p d x) c).
  - exact (scan_found (moved p d x) c h e o n h' Hc Ho Hne Hn Hnext).
  - exact (scan_skip (moved p d x) c h e h1 r h' Hc Ho Hnext IH).
Qed.

Lemma moved_comm p c d x y :
  c <> d -> moved (moved p c x) d y = moved (moved p d y) c x.
Proof.
  intros Hne. unfold moved. simpl.
  rewrite (list_insert_insert_ne (m_heads p) (N.to_nat d) (N.to_nat c)) by lia.
  rewrite (list_insert_insert_ne (m_at_end p) (N.to_nat d) (N.to_nat c)) by lia.
  done.
Qed.

(** X8: consumers do not disturb each other: from a reachable state, what
    [get_vector] answers to a consumer is the same before and after a
    [get_vector] of another consumer, and the two reads lead to the same state
    in either order. *)
Theorem consumers_independent p fuel c d :
  reachable p ->
  c <> d ->
  (N.to_nat c < length (m_heads p))%nat ->
  (N.to_nat d < length (m_heads p))%nat ->
  (N.to_nat (m_size p) / 2 + 2 <= fuel)%nat ->
  exists rc rd pc pd pcd,
    get_vector fuel c p = Ok (rc, pc) /\
    get_vector fuel d p = Ok (rd, pd) /\
    get_vector fuel d pc = Ok (rd, pcd) /\
    get_vector fuel c pd = Ok (rc, pcd).
Proof.
  intros Hr Hne Hc Hd Hfuel. apply reachable_inv in Hr as Hinv.
  assert (N.to_nat (m_size p) + 3 <= 2 * fuel)%nat as Hfuel2.
  { pose proof (Nat.div_mod_eq (N.to_nat (m_size p)) 2) as Hdm.
    pose proof (Nat.mod_upper_bound (N.to_nat (m_size p)) 2). lia. }
  destruct (lookup_lt_is_Some_2 (m_heads p) (N.to_nat c) Hc) as [hc Hhc].
  destruct (lookup_lt_is_Some_2 (m_heads p) (N.to_nat d) Hd) as [hd Hhd].
  destruct (lookup_lt_is_Some_2 (m_at_end p) (N.to_nat c)) as [ec Hec].
  { by rewrite (inv_flags p Hinv). }
  destruct (lookup_lt_is_Some_2 (m_at_end p) (N.to_nat d)) as [ed Hed].
  { by rewrite (inv_flags p Hinv). }
  destruct (get_vector_ok fuel c hc ec p Hinv Hhc Hec Hfuel2)
    as (rc & hc' & Hgc & Hinvc & Hsc).
  destruct (get_vector_ok fuel d hd ed p Hinv Hhd Hed Hfuel2)
    as (rd & hd' & Hgd & Hinvd & Hsd).
  assert (N.to_nat c <> N.to_nat d) as Hne' by lia.
  destruct (get_vector_ok fuel d hd ed (moved p c hc') Hinvc)
    as (rd2 & hd2 & Hgd2 & _ & Hsd2); try done.
  { simpl. by rewrite list_lookup_insert_ne. }
  { simpl. by rewrite list_lookup_insert_ne. }
  destruct (get_vector_ok fuel c hc ec (moved p d hd') Hinvd)
    as (rc2 & hc2 & Hgc2 & _ & Hsc2); try done.
  { simpl. by rewrite list_lookup_insert_ne. }
  { simpl. by rewrite list_lookup_insert_ne. }
  apply scan_moved in Hsd2, Hsc2.
  destruct (scan_det _ _ _ _ _ _ _ _ Hsd Hsd2) as [<- <-].
  destruct (scan_det _ _ _ _ _ _ _ _ Hsc Hsc2) as [<- <-].
  exists rc, rd, (moved p c hc'), (moved p d hd'), (moved (moved p c hc') d hd').
  split; [done|]. split; [done|]. split; [done|].
  rewrite Hgc2. do 2 f_equal. symmetry. by apply moved_comm.
Qed.

Lemma consumers_independent_witness :
  exists rc rd pc pd pcd,
    get_vector 7 0 lapped_pool = Ok (rc, pc) /\
    get_vector 7 1 lapped_pool = Ok (rd, pd) /\
    get_vector 7 1 pc = Ok (rd, pcd) /\
    get_vector 7 0 pd = Ok (rc, pcd).
Proof.
  apply (consumers_independent lapped_pool 7 0 1).
  - apply lapped_pool_reachable.
  - discriminate.
  - vm_compute. lia.
  - vm_compute. lia.
  - vm_compute. lia.
Defined.

(** ** More on the unit exchange *)

Lemma fold_add_unit_known inp par :
  (forall l, l ∈ inp -> index l ∈ m_unit_set par) ->
  fold_left add_unit inp par = par.
Proof.
  induction inp as [|lit inp IH]; intros Hall; [done|]. simpl.
  assert (add_unit par lit = par) as ->.
  { unfold add_unit. rewrite decide_True; [done|]. apply Hall, list_elem_of_here. }
  apply IH. intros l Hl. apply Hall. by apply list_elem_of_further.
Qed.

(** X9: submitting again changes nothing: after a call of [exchange] by a
    solver whose flag is clear, a second call with the same literals and the
    limit and result of the first leaves the log, the limit and the result as
    they are. *)
Theorem exchange_again par s inp limit out :
  m_par_syncing_clauses s = false ->
  units_inv par ->
  exists par1 limit1 out1,
    exchange par s inp limit out = (par1, s, limit1, out1) /\
    exchange par1 s inp limit1 out1 = (par1, s, limit1, out1).
Proof.
  intros Hs Hinv.
  destruct (fold_add_unit inp par Hinv) as (added & Hu & _ & _ & Hall & Hinv1).
  do 3 eexists. rewrite exchange_run by done. split; [reflexivity|].
  rewrite exchange_run by done.
  rewrite fold_add_unit_known.
  - rewrite Nat2N.id. rewrite drop_all. by rewrite app_nil_r.
  - intros l Hl. apply Hinv1. by apply Hall.
Qed.

Lemma exchange_again_witness :
  exists par1 limit1 out1,
    exchange one_unit (idle_solver 0) [to_literal 1; to_literal 5] 0 []
      = (par1, idle_solver 0, limit1, out1) /\
    exchange par1 (idle_solver 0) [to_literal 1; to_literal 5] limit1 out1
      = (par1, idle_solver 0, limit1, out1).
Proof.
  apply (exchange_again one_unit (idle_solver 0)); [reflexivity|].
  split; simpl.
  - apply NoDup_singleton.
  - intros i. rewrite elem_of_singleton, list_elem_of_singleton. done.
Defined.

(** X10: a caller receives what the others added since its last call, once:
    when solver [a] has called [exchange], then solver [b] calls it, the next
    call of [a] with the limit it was given appends to its result the literals
    that the call of [b] added to the log, in their order in the input of [b],
    and nothing else. *)
Theorem exchange_receives_others par sa sb ina la outa inb lb outb ina' out :
  m_par_syncing_clauses sa = false ->
  m_par_syncing_clauses sb = false ->
  units_inv par ->
  exists par1 la1 outa1 par2 lb2 outb2 added par3 la3,
    exchange par sa ina la outa = (par1, sa, la1, outa1) /\
    exchange par1 sb inb lb outb = (par2, sb, lb2, outb2) /\
    m_units par2 = m_units par1 ++ added /\
    sublist added inb /\
    exchange par2 sa ina' la1 out = (par3, sa, la3, out ++ added).
Proof.
  intros Hsa Hsb Hinv.
  destruct (fold_add_unit ina par Hinv) as (added1 & Hu1 & _ & _ & _ & Hinv1).
  destruct (fold_add_unit inb _ Hinv1) as (added & Hu2 & Hsub & _ & _ & Hinv2).
  do 9 eexists. rewrite !exchange_run by done.
  split; [reflexivity|]. split; [reflexivity|]. split; [exact Hu2|].
  split; [exact Hsub|]. do 2 f_equal.
  rewrite Hu2, Nat2N.id. by rewrite drop_app_length.
Qed.

Lemma exchange_receives_others_witness :
  exists par1 la1 outa1 par2 lb2 outb2 added par3 la3,
    exchange parallel.empty (idle_solver 0) [to_literal 4] 0 [] = (par1, idle_solver 0, la1, outa1) /\
    exchange par1 (idle_solver 1) [to_literal 4; to_literal 6] 0 []
      = (par2, idle_solver 1, lb2, outb2) /\
    m_units par2 = m_units par1 ++ added /\
    sublist added [to_literal 4; to_literal 6] /\
    exchange par2 (idle_solver 0) [] la1 [] = (par3, idle_solver 0, la3, [] ++ added).
Proof.
  apply (exchange_receives_others parallel.empty (idle_solver 0) (idle_solver 1));
    [reflexivity|reflexivity|apply units_inv_empty].
Defined.

(** ** More on the clones *)

Section init_more.

Variable random_gen : N -> N * N.

Lemma state_after_S j d :
  state_after random_gen j (random_gen d).2 = state_after random_gen (S j) d.
Proof. unfold state_after. by rewrite Nat.iter_succ_r. Qed.

Lemma init_loop_wiring todo nt i par s :
  (N.to_nat i + todo <= length (m_solvers par))%nat ->
  (N.to_nat i + todo <= length (m_limits par))%nat ->
  i + N.of_nat todo < word_modulus ->
  exists par' s',
    init_loop random_gen todo nt i par s = Ok (par', s') /\
    m_pool par' = m_pool par /\ m_units par' = m_units par /\
    m_unit_set par' = m_unit_set par /\ m_limits par' = m_limits par /\
    m_scoped_rlimit par' =
      m_scoped_rlimit par ++ ((fun j => child_rlimit (i + N.of_nat j)) <$> seq 0 todo) /\
    m_rand s' = state_after random_gen todo (m_rand s) /\
    m_clauses s' = m_clauses s /\ m_rlimit s' = m_rlimit s /\
    ((0 < todo)%nat ->
       m_params s' !! "random_seed"%string
         = Some (p_uint (draw random_gen (todo - 1) (m_rand s)))) /\
    (todo = 0%nat -> s' = s) /\
    forall j, (j < todo)%nat ->
      exists cl, m_solvers par' !! (N.to_nat i + j)%nat = Some (Some cl) /\
        m_params cl !! "random_seed"%string
          = Some (p_uint (draw random_gen j (m_rand s))) /\
        m_clauses cl = m_clauses s /\
        m_rlimit cl = child_rlimit (i + N.of_nat j).
Proof.
  revert i par s. induction todo as [|todo IH]; intros i par s Hsol Hlim Hw.
  - exists par, s. simpl. rewrite app_nil_r. repeat split; try done; lia.
  - simpl.
    set (s2 := set_params (set_rand s (random_gen (m_rand s)).2)
                 (set_uint (m_params (set_rand s (random_gen (m_rand s)).2))
                    "random_seed" (random_gen (m_rand s)).1)).
    set (s3 := if i =? u32 (1 + nt / 2)
               then set_params s2 (set_sym (m_params s2) "phase" "random") else s2).
    destruct (lookup_lt_is_Some_2 (m_limits par) (N.to_nat i)) as [lim Hlimi]; [lia|].
    rewrite (vget_lookup _ _ _ Hlimi). simpl.
    rewrite vset_Ok by lia. simpl.
    rewrite (u32_small (i + 1)) by lia.
    set (cl := set_par (copy (alloc_solver (m_params s3) (child_rlimit i)) s3) i).
    set (par2 := push_child _ _).
    assert (m_rand s3 = (random_gen (m_rand s)).2 /\ m_clauses s3 = m_clauses s /\
            m_rlimit s3 = m_rlimit s /\
            m_params s3 !! "random_seed"%string = Some (p_uint (random_gen (m_rand s)).1))
      as (Hr3 & Hc3 & Hl3 & Hp3).
    { unfold s3. destruct (i =? _); simpl; unfold set_sym, set_uint;
        rewrite ?lookup_insert_ne by done; rewrite lookup_insert_eq; done. }
    destruct (IH (i + 1) par2 s3)
      as (par' & s' & Hrun & Hpool & Hunits & Hset & Hlims & Hsc & Hrand & Hcl & Hrl
          & Hseed & _ & Hnew).
    { simpl. rewrite length_insert. lia. }
    { simpl. lia. }
    { lia. }
    exists par', s'. split; [exact Hrun|]. simpl in *.
    split; [done|]. split; [done|]. split; [done|]. split; [done|]. split.
    { rewrite Hsc, <- app_assoc. f_equal. simpl. rewrite N.add_0_r. f_equal.
      rewrite <- fmap_S_seq, <- list_fmap_compose. apply list_fmap_ext.
      intros _ j _. simpl. f_equal. lia. }
    split; [by rewrite Hrand, Hr3, state_after_S|].
    split; [congruence|]. split; [congruence|]. split.
    { intros _. destruct todo as [|todo'].
      - simpl in Hrun. inversion Hrun; subst. by rewrite Hp3.
      - rewrite Hseed by lia. rewrite Hr3. unfold draw.
        rewrite state_after_S. simpl. by rewrite Nat.sub_0_r. }
    split; [done|].
    intros [|j] Hj.
    + exists cl. rewrite Nat.add_0_r.
      assert (m_solvers par' !! N.to_nat i = Some (Some cl)) as ->.
      { destruct (init_loop_ok random_gen todo nt (i + 1) par2 s3)
          as (par'' & s'' & Hrun'' & _ & _ & Hold & _);
          try (simpl; rewrite ?length_insert; lia).
        rewrite Hrun in Hrun''. inversion Hrun''; subst par'' s''.
        rewrite Hold by lia. simpl. apply list_lookup_insert_eq. lia. }
      split; [done|]. split; [exact Hp3|]. split; [exact Hc3|].
      simpl. by rewrite N.add_0_r.
    + destruct (Hnew j) as (cl' & Hlook & Hs' & Hc' & Hr'); [lia|].
      exists cl'. replace (N.to_nat i + S j)%nat with (N.to_nat (i + 1) + j)%nat by lia.
      split; [done|]. split.
      { rewrite Hs', Hr3. unfold draw. by rewrite state_after_S. }
      split; [congruence|]. rewrite Hr'. f_equal. lia.
Qed.

(** X11: each clone is made with the seed drawn for it: [init_solvers(s, k)]
    draws [k] numbers from the generator of the master, one per clone and in
    the order of the clones; clone [j] is configured with the [j]-th of them
    as its [random_seed], and the master keeps the last one in its own
    configuration (with [k = 0] nothing is drawn and the option is as it
    was). *)
Theorem init_solvers_seeds par s k :
  k < word_modulus ->
  exists par' s',
    init_solvers random_gen par s k = Ok (par', s') /\
    m_rand s' = state_after random_gen (N.to_nat k) (m_rand s) /\
    (forall j, (j < N.to_nat k)%nat ->
       exists cl, m_solvers par' !! j = Some (Some cl) /\
         m_params cl !! "random_seed"%string
           = Some (p_uint (draw random_gen j (m_rand s)))) /\
    (0 < k ->
       m_params s' !! "random_seed"%string
         = Some (p_uint (draw random_gen (N.to_nat k - 1) (m_rand s)))) /\
    (k = 0 ->
       m_params s' !! "random_seed"%string = m_params s !! "random_seed"%string).
Proof.
  intros Hk. unfold init_solvers.
  set (par0 := set_limits _ _).
  destruct (init_loop_wiring (N.to_nat k) (u32 (k + 1)) 0 par0 s)
    as (par' & s' & Hrun & _ & _ & _ & _ & _ & Hrand & _ & _ & Hseed & Hzero & Hnew).
  { simpl. rewrite length_resize. lia. }
  { simpl. rewrite length_app, length_replicate. lia. }
  { lia. }
  rewrite Hrun. simpl. do 2 eexists. split; [reflexivity|]. simpl.
  split; [done|]. split; [|split].
  - intros j Hj. destruct (Hnew j Hj) as (cl & Hlook & Hs & _). exists cl. done.
  - intros Hpos. unfold set_sym. rewrite lookup_insert_ne by done. apply Hseed. lia.
  - intros ->. unfold set_sym. rewrite lookup_insert_ne by done. simpl.
    by rewrite (Hzero eq_refl).
Qed.

(** X12: [init_solvers(s, k)] leaves the pool and the unit log alone,
    appends [k] fresh resource limits to [m_limits] and registers one child
    limit per clone, in the order of the clones; clone [j] is bound to the
    limit [j], has the clauses of the master, the id [j] and a clear
    reentrancy flag; the clauses and the resource limit of the master are
    unchanged, and its reentrancy flag is clear. *)
Theorem init_solvers_wiring par s k :
  k < word_modulus ->
  exists par' s',
    init_solvers random_gen par s k = Ok (par', s') /\
    m_pool par' = m_pool par /\ m_units par' = m_units par /\
    m_unit_set par' = m_unit_set par /\
    m_limits par' = m_limits par ++ replicate (N.to_nat k) (mk_reslimit 0) /\
    m_scoped_rlimit par' =
      m_scoped_rlimit par ++ ((fun j => child_rlimit (N.of_nat j)) <$> seq 0 (N.to_nat k)) /\
    m_clauses s' = m_clauses s /\ m_rlimit s' = m_rlimit s /\
    m_par_syncing_clauses s' = false /\
    forall j, (j < N.to_nat k)%nat ->
      exists cl, m_solvers par' !! j = Some (Some cl) /\
        m_par_id cl = N.of_nat j /\
        m_rlimit cl = child_rlimit (N.of_nat j) /\
        m_clauses cl = m_clauses s /\
        m_par_syncing_clauses cl = false.
Proof.
  intros Hk.
  destruct (init_solvers_ok random_gen par s k Hk)
    as (par1 & s1 & Hrun1 & _ & _ & Hfl & Hcl1 & _).
  unfold init_solvers in *.
  set (par0 := set_limits _ _) in *.
  destruct (init_loop_wiring (N.to_nat k) (u32 (k + 1)) 0 par0 s)
    as (par' & s' & Hrun & Hpool & Hunits & Hset & Hlims & Hsc & _ & Hcl & Hrl & _ & _ & Hnew).
  { simpl. rewrite length_resize. lia. }
  { simpl. rewrite length_app, length_replicate. lia. }
  { lia. }
  rewrite Hrun in *. simpl in *. inversion Hrun1; subst par1 s1. clear Hrun1.
  do 2 eexists. split; [reflexivity|]. simpl.
  split; [done|]. split; [done|]. split; [done|]. split; [done|].
  split; [by rewrite Hsc|].
  split; [done|]. split; [done|]. split; [done|].
  intros j Hj. destruct (Hnew j Hj) as (cl & Hlook & _ & Hc & Hr).
  destruct (Hcl1 j Hj) as (cl' & Hlook' & Hid & Hflag & _).
  rewrite Hlook in Hlook'. inversion Hlook'; subst cl'.
  exists cl. done.
Qed.

(** X13: the phase of every clone: of the clones made by
    [init_solvers(s, k)], those with an index from [1 + (k+1)/2] on are all
    configured with the phase ["random"], because the option stays set for the
    rest of the loop, and those before it with the phase of the master; so
    with [k <= 3] every clone has the phase of the master. *)
Theorem init_solvers_phases par s k :
  k + 1 < word_modulus ->
  exists par' s',
    init_solvers random_gen par s k = Ok (par', s') /\
    (forall j, (j < N.to_nat k)%nat ->
       exists cl, m_solvers par' !! j = Some (Some cl) /\
         phase_of cl =
           if decide (1 + (k + 1) / 2 <= N.of_nat j) then "random"%string
           else phase_of s) /\
    (k <= 3 ->
       forall j cl, m_solvers par' !! j = Some (Some cl) -> phase_of cl = phase_of s).
Proof.
  intros Hk.
  destruct (init_solvers_ok random_gen par s k) as (par' & s' & Hrun & Hlen & _ & _ & Hcl & _);
    [lia|].
  pose proof (N.Div0.mul_div_le (k + 1) 2) as Hdiv.
  rewrite (u32_small (k + 1)) in Hcl by done.
  rewrite (u32_small (1 + (k + 1) / 2)) in Hcl by word_lia.
  exists par', s'. split; [done|]. split.
  - intros j Hj. destruct (Hcl j Hj) as (cl & Hlook & _ & _ & Hph). by exists cl.
  - intros Hk3 j cl Hlook.
    assert (j < N.to_nat k)%nat as Hj.
    { rewrite <- Hlen. by eapply lookup_lt_Some. }
    destruct (Hcl j Hj) as (cl' & Hlook' & _ & _ & Hph).
    rewrite Hlook in Hlook'. inversion Hlook'; subst cl'.
    rewrite Hph. apply decide_False.
    assert (k = 0 \/ k = 1 \/ k = 2 \/ k = 3) as [-> | [-> | [-> | ->]]] by lia;
      vm_compute (1 + _ / 2); lia.
Qed.

End init_more.

Lemma init_solvers_seeds_witness :
  exists par' s',
    init_solvers lcg parallel.empty (idle_solver 0) 3 = Ok (par', s') /\
    m_params s' !! "random_seed"%string = Some (p_uint (draw lcg 2 0)).
Proof.
  destruct (init_solvers_seeds lcg parallel.empty (idle_solver 0) 3)
    as (par' & s' & Hrun & _ & _ & Hlast & _); [reflexivity|].
  exists par', s'. split; [exact Hrun|]. apply Hlast. reflexivity.
Defined.

Lemma init_solvers_wiring_witness :
  exists par' s',
    init_solvers lcg parallel.empty (idle_solver 0) 3 = Ok (par', s') /\
    m_scoped_rlimit par' = [child_rlimit 0; child_rlimit 1; child_rlimit 2].
Proof.
  destruct (init_solvers_wiring lcg parallel.empty (idle_solver 0) 3)
    as (par' & s' & Hrun & _ & _ & _ & _ & Hsc & _); [reflexivity|].
  exists par', s'. split; [exact Hrun|]. exact Hsc.
Defined.

Lemma init_solvers_phases_witness :
  exists par' s',
    init_solvers lcg parallel.empty (idle_solver 0) 7 = Ok (par', s') /\
    exists cl, m_solvers par' !! 6%nat = Some (Some cl) /\ phase_of cl = "random"%string.
Proof.
  destruct (init_solvers_phases lcg parallel.empty (idle_solver 0) 7)
    as (par' & s' & Hrun & Hcl & _); [reflexivity|].
  exists par', s'. split; [exact Hrun|].
  destruct (Hcl 6%nat) as (cl & Hlook & Hph); [vm_compute; lia|].
  exists cl. split; [exact Hlook|]. exact Hph.
Defined.

(** ** Receiving clauses *)

Lemma cseg_seg v a b : cseg v a b -> seg v a b.
Proof. induction 1; [constructor|]. by eapply seg_cons. Qed.

Lemma cgood_good v sz a : cgood v sz a -> good v sz a.
Proof. induction 1; [by eapply good_last|by eapply good_step]. Qed.

Lemma cseg_trans v a b c : cseg v a b -> cseg v b c -> cseg v a c.
Proof. induction 1; [done|]. intros Hc. eapply cseg_cons; eauto. Qed.

Lemma cseg_ext v v' a b :
  (forall j x, (j < N.to_nat b)%nat -> v !! j = Some x -> v' !! j = Some x) ->
  cseg v a b -> cseg v' a b.
Proof.
  intros Hext. induction 1 as [|a len b Hlen H2 Hseg IH]; [constructor|].
  pose proof (seg_le _ _ _ (cseg_seg _ _ _ Hseg)) as Hle.
  eapply cseg_cons; [|done|by apply IH]. apply Hext; [lia|done].
Qed.

Lemma cgood_ext v v' sz a :
  (forall j x, (N.to_nat a < j)%nat -> v !! j = Some x -> v' !! j = Some x) ->
  (length v <= length v')%nat ->
  cgood v sz a -> cgood v' sz a.
Proof.
  intros Hext Hlen Hg.
  induction Hg as [a len Hl H2 Ha Hsz Hw Hin|a len Hl H2 Ha Hg IH].
  - eapply cgood_last; eauto; [apply Hext; [lia|done]|lia].
  - eapply cgood_step; eauto.
    + apply Hext; [lia|done].
    + apply IH. intros j x Hj. apply Hext. lia.
Qed.

Lemma cseg_cgood v sz a b : cseg v a b -> cgood v sz b -> cgood v sz a.
Proof.
  induction 1 as [|a len b Hlen H2 Hseg IH]; [done|]. intros Hg.
  specialize (IH Hg). pose proof (good_lt _ _ _ (cgood_good _ _ _ IH)) as Hlt.
  eapply cgood_step; eauto.
Qed.

Lemma clause_reachable_reachable p : clause_reachable p -> reachable p.
Proof.
  induction 1; [by apply reach_reserve|by eapply reach_add|by eapply reach_get].
Qed.

(** one step of a cursor that has something to read *)
Lemma next_chead p h e :
  clause_inv p ->
  chead_ok (m_vectors p) (m_size p) (m_tail p) h e ->
  h <> m_tail p \/ e = false ->
  exists len h1,
    get_length p h = Ok len /\ 2 <= len /\
    h + 2 + len < word_modulus /\
    (N.to_nat (h + 2 + len) <= length (m_vectors p))%nat /\
    next p h = Ok h1 /\
    chead_ok (m_vectors p) (m_size p) (m_tail p) h1 (h1 =? m_tail p) /\
    (pending p h1 (N.eqb h1 (m_tail p)) < pending p h e)%nat.
Proof.
  intros [Hinv Hlap Hheads] Hok Hcont.
  pose proof Hinv as [Hsz Ht Hv _ _ _ _].
  assert ((h < m_tail p /\ cseg (m_vectors p) h (m_tail p)) \/
          (m_tail p <= h /\ cgood (m_vectors p) (m_size p) h)) as Hcase.
  { destruct Hok as [?|[[-> ->]|?]]; [by left| |by right]. by destruct Hcont. }
  assert (pending p h e =
          if h <? m_tail p then N.to_nat (m_tail p - h)
          else (N.to_nat (m_size p - h + m_tail p) + 1)%nat) as Hpend.
  { unfold pending. destruct (N.eqb_spec h (m_tail p)) as [->|?]; [|done].
    destruct Hcont as [?| ->]; done. }
  rewrite Hpend. unfold get_length.
  destruct Hcase as [[Hlt Hseg]|[Hge Hg]].
  - inversion Hseg as [|a len b Hlen H2 Hrest]; subst; [lia|].
    pose proof (seg_le _ _ _ (cseg_seg _ _ _ Hrest)) as Hle.
    exists len, (h + 2 + len).
    rewrite (u32_small (h + 1)) by word_lia. rewrite (vget_lookup _ _ _ Hlen).
    rewrite (next_eq p h len) by (done || lia). rewrite (u32_small (h + 2 + len)) by word_lia.
    destruct (N.leb_spec (m_size p) (h + 2 + len)); [lia|].
    split; [done|]. split; [done|]. split; [word_lia|]. split; [lia|]. split; [done|].
    destruct (N.ltb_spec h (m_tail p)); [|lia]. unfold pending.
    destruct (N.eqb_spec (h + 2 + len) (m_tail p)) as [Heq|Hne]; simpl.
    + split; [by right; left|lia].
    + split; [left; split; [lia|done]|].
      destruct (N.ltb_spec (h + 2 + len) (m_tail p)); lia.
  - pose proof (good_lt _ _ _ (cgood_good _ _ _ Hg)) as Hhsz.
    destruct (N.ltb_spec h (m_tail p)); [lia|].
    inversion Hg as [a len Hlen H2 Ha Hend Hw Hin|a len Hlen H2 Ha Hrest]; subst.
    + exists len, 0.
      rewrite (u32_small (h + 1)) by word_lia. rewrite (vget_lookup _ _ _ Hlen).
      rewrite (next_eq p h len) by done. rewrite (u32_small (h + 2 + len)) by done.
      destruct (N.leb_spec (m_size p) (h + 2 + len)); [|lia].
      split; [done|]. split; [done|]. split; [done|]. split; [done|]. split; [done|].
      unfold pending. destruct (N.eqb_spec 0 (m_tail p)) as [Heq|Hne]; simpl.
      * split; [by right; left|lia].
      * split; [left; split; [lia|done]|].
        destruct (N.ltb_spec 0 (m_tail p)); lia.
    + pose proof (good_lt _ _ _ (cgood_good _ _ _ Hrest)) as Hnsz.
      pose proof (inv_vectors p Hinv).
      exists len, (h + 2 + len).
      rewrite (u32_small (h + 1)) by word_lia. rewrite (vget_lookup _ _ _ Hlen).
      rewrite (next_eq p h len) by done. rewrite (u32_small (h + 2 + len)) by word_lia.
      destruct (N.leb_spec (m_size p) (h + 2 + len)); [lia|].
      split; [done|]. split; [done|]. split; [word_lia|]. split; [lia|]. split; [done|].
      unfold pending. destruct (N.eqb_spec (h + 2 + len) (m_tail p)); [lia|]. simpl.
      split; [right; right; split; [lia|done]|].
      destruct (N.ltb_spec (h + 2 + len) (m_tail p)); lia.
Qed.

(** where a read leaves the cursor, and what it hands out *)
Lemma scan_clause p c h e r h' :
  clause_inv p ->
  chead_ok (m_vectors p) (m_size p) (m_tail p) h e ->
  scan p c h e r h' ->
  chead_ok (m_vectors p) (m_size p) (m_tail p) h' (h' =? m_tail p) /\
  match r with
  | None => True
  | Some (n, ptr) =>
      2 <= n /\ n < word_modulus /\
      (N.to_nat (ptr + n) <= length (m_vectors p))%nat /\
      (pending p h' (N.eqb h' (m_tail p)) < pending p h e)%nat
  end.
Proof.
  intros Hinv Hok Hscan.
  induction Hscan as [|h e o n h' Hc Ho Hne Hn Hnext|h e h1 r h' Hc Ho Hnext Hs IH].
  - split; [|done]. right. left. by rewrite N.eqb_refl.
  - destruct (next_chead p h e Hinv Hok Hc)
      as (len & h1 & Hlen & H2 & Hw & Hin & Hnext' & Hok1 & Hpend).
    rewrite Hn in Hlen. rewrite Hnext in Hnext'. inversion Hlen; inversion Hnext'; subst.
    split; [done|]. unfold get_ptr. repeat split; (done || word_lia).
  - destruct (next_chead p h e Hinv Hok Hc)
      as (len & h1' & Hlen & H2 & Hw & Hin & Hnext' & Hok1 & Hpend).
    rewrite Hnext in Hnext'. inversion Hnext'; subst h1'.
    destruct (IH Hok1) as [Hok' Hr]. split; [done|].
    destruct r as [[n ptr]|]; [|done].
    destruct Hr as (? & ? & ? & ?). repeat split; (done || lia).
Qed.

Lemma moved_cinv p c h1 :
  clause_inv p ->
  (N.to_nat c < length (m_heads p))%nat ->
  chead_ok (m_vectors p) (m_size p) (m_tail p) h1 (h1 =? m_tail p) ->
  clause_inv (moved p c h1).
Proof.
  intros [Hinv Hlap Hheads] Hc Hok. split.
  - apply moved_inv; [done|done|].
    destruct Hok as [[? ?%cseg_seg]|[?|[? ?%cgood_good]]];
      [by left|by right; left|by right; right].
  - done.
  - simpl. intros i h e Hh He. pose proof (inv_flags p Hinv) as Hfl.
    destruct (decide (i = N.to_nat c)) as [->|Hne].
    + rewrite list_lookup_insert_eq in Hh by done.
      rewrite list_lookup_insert_eq in He by lia.
      inversion Hh; inversion He; subst. done.
    + rewrite list_lookup_insert_ne in Hh by done.
      rewrite list_lookup_insert_ne in He by done. by eapply Hheads.
Qed.

(** a property of cursors that a step of the loop of [begin_add_vector] keeps
    is kept by the loop *)
Lemma advance_head_closed (I : N -> Prop) fuel cap i q q' h :
  (forall a b, I a -> m_tail q < a -> next q a = Ok b -> I b) ->
  advance_head fuel cap i q = Ok q' ->
  m_heads q !! N.to_nat i = Some h ->
  I h ->
  exists h', q' = set_heads q (<[N.to_nat i := h']> (m_heads q)) /\ I h'.
Proof.
  revert q h. induction fuel as [|fuel IH]; intros q h Hstep Hrun Hh HI; [done|].
  simpl in Hrun. rewrite (vget_lookup _ _ _ Hh) in Hrun. simpl in Hrun.
  destruct (N.ltb_spec (m_tail q) h) as [Hlt|Hge]; simpl in Hrun;
    [destruct (h <? u32 (m_tail q + cap)); simpl in Hrun|].
  - destruct (next q h) as [h1| |] eqn:Hnext; simpl in Hrun; [|done..].
    apply lookup_lt_Some in Hh as Hi.
    rewrite vset_Ok in Hrun by done. simpl in Hrun.
    destruct (IH (set_heads q (<[N.to_nat i:=h1]> (m_heads q))) h1) as (h' & -> & HI').
    + exact Hstep.
    + exact Hrun.
    + simpl. by rewrite list_lookup_insert_eq.
    + eapply Hstep; eauto.
    + exists h'. simpl. by rewrite list_insert_insert_eq.
  - inversion Hrun; subst q'. exists h. rewrite list_insert_id by done.
    by rewrite set_heads_id.
  - inversion Hrun; subst q'. exists h. rewrite list_insert_id by done.
    by rewrite set_heads_id.
Qed.

Lemma for_heads_closed (I : N -> Prop) fuel cap todo i q q' :
  (forall a b, I a -> m_tail q < a -> next q a = Ok b -> I b) ->
  for_heads fuel cap todo i q = Ok q' ->
  (forall j h, m_heads q !! j = Some h -> I h) ->
  m_vectors q' = m_vectors q /\ m_size q' = m_size q /\ m_tail q' = m_tail q /\
  forall j h, m_heads q' !! j = Some h -> I h.
Proof.
  revert i q.
  induction todo as [|todo IH]; intros i q Hstep Hrun HI.
  - by inversion Hrun; subst.
  - simpl in Hrun.
    destruct (advance_head fuel cap i q) as [q1| |] eqn:Hadv; simpl in Hrun; [|done..].
    destruct (vset (m_at_end q1) i false) as [ae| |] eqn:Hae; simpl in Hrun; [|done..].
    assert (exists h', q1 = set_heads q (<[N.to_nat i := h']> (m_heads q)) /\
              (m_heads q !! N.to_nat i = None \/ I h')) as (h' & -> & HI').
    { destruct (m_heads q !! N.to_nat i) as [h|] eqn:Hh.
      - destruct (advance_head_closed I fuel cap i q q1 h) as (h' & -> & ?); eauto.
      - destruct fuel; simpl in Hadv; [done|].
        unfold vget in Hadv. by rewrite Hh in Hadv. }
    destruct (IH _ (set_at_end (set_heads q (<[N.to_nat i:=h']> (m_heads q))) ae)
                Hstep Hrun) as (Hv & Hs & Ht & Hall).
    { simpl. intros j h Hj. destruct (decide (j = N.to_nat i)) as [->|Hne].
      - destruct HI' as [Hnone|?].
        + apply lookup_lt_Some in Hj. rewrite length_insert in Hj.
          apply lookup_ge_None in Hnone. lia.
        + apply lookup_lt_Some in Hj as Hlt. rewrite length_insert in Hlt.
          rewrite list_lookup_insert_eq in Hj by done. by inversion Hj; subst.
      - rewrite list_lookup_insert_ne in Hj by done. by eapply HI. }
    done.
Qed.

Lemma next_cgood p a :
  m_size p < word_modulus ->
  cgood (m_vectors p) (m_size p) a ->
  exists a', next p a = Ok a' /\
    (a' = 0 \/ (a + 2 <= a' /\ cgood (m_vectors p) (m_size p) a')).
Proof.
  intros Hsz Hg. inversion Hg as [a0 len Hlen H2 Ha Hend Hw Hin|a0 len Hlen H2 Ha Hrest]; subst.
  - exists 0. rewrite (next_eq p a len) by done.
    rewrite u32_small by done.
    destruct (N.leb_spec (m_size p) (a + 2 + len)); [|lia]. auto.
  - exists (a + 2 + len). rewrite (next_eq p a len) by (done || lia).
    rewrite u32_small by word_lia.
    destruct (N.leb_spec (m_size p) (a + 2 + len)); [lia|].
    split; [done|]. right. split; [lia|done].
Qed.

Lemma add_vector_elems_heads es q q' :
  add_vector_elems es q = Ok q' -> m_heads q' = m_heads q.
Proof.
  revert q. induction es as [|e es IH]; intros q Hrun; simpl in Hrun.
  - by inversion Hrun.
  - unfold add_vector_elem, push in Hrun.
    destruct (vset _ _ _); simpl in Hrun; [|done..]. by rewrite (IH _ Hrun).
Qed.

(** a property of cursors that a step of the loop of [begin_add_vector] keeps
    holds for the cursors after a complete write *)
Lemma add_vector_closed (I : N -> Prop) fuel owner es p p' :
  (forall a b, I a -> m_tail p < a ->
     next (set_vectors p (vreserve (m_vectors p)
            (u32 (m_size p + u32 (N.of_nat (length es) + 2))) 0)) a = Ok b -> I b) ->
  add_vector fuel owner es p = Ok p' ->
  (forall j h, m_heads p !! j = Some h -> I h) ->
  forall j h, m_heads p' !! j = Some h -> I h.
Proof.
  intros Hstep Hrun HI. unfold add_vector, begin_add_vector in Hrun.
  destruct (sassert _); simpl in Hrun; [|done..].
  destruct (for_heads _ _ _ _ _) as [q1| |] eqn:Hfor; simpl in Hrun; [|done..].
  eapply for_heads_closed in Hfor as (_ & _ & _ & Hall); [|exact Hstep|exact HI].
  unfold push in Hrun.
  destruct (vset (m_vectors q1) _ _); simpl in Hrun; [|done..].
  destruct (vset _ _ _); simpl in Hrun; [|done..].
  destruct (add_vector_elems _ _) as [q2| |] eqn:Hel; simpl in Hrun; [|done..].
  apply add_vector_elems_heads in Hel. simpl in Hel.
  inversion Hrun; subst p'. unfold end_add_vector.
  destruct (_ <=? _); simpl; rewrite Hel; exact Hall.
Qed.

Lemma add_vector_cinv fuel owner es p p' :
  clause_inv p ->
  (2 <= length es)%nat ->
  m_size p + N.of_nat (length es) + 2 < word_modulus ->
  (N.to_nat (m_size p) < fuel)%nat ->
  add_vector fuel owner es p = Ok p' ->
  clause_inv p'.
Proof.
  intros Hcinv H2 Hw Hfuel Hrun. pose proof Hcinv as [Hinv Hclap Hcheads].
  pose proof (add_vector_inv fuel owner es p p' Hinv Hw Hfuel Hrun) as Hinv'.
  assert (forall j h, m_heads p' !! j = Some h ->
            m_tail p < h -> cgood (m_vectors p) (m_size p) h) as Hclosed.
  { eapply (add_vector_closed
              (fun h => m_tail p < h -> cgood (m_vectors p) (m_size p) h));
      [|exact Hrun|].
    - intros a b Ha Hlt Hnext. destruct (next_cgood p a (inv_size p Hinv) (Ha Hlt))
        as (a' & Hnext' & Ha').
      eapply next_grows in Hnext'; [|apply grows_reserve].
      rewrite Hnext in Hnext'. inversion Hnext'; subst a'.
      intros Hb. destruct Ha' as [->|[_ ?]]; [lia|done].
    - intros j h Hh Hlt.
      destruct (lookup_lt_is_Some_2 (m_at_end p) j) as [e He].
      { rewrite (inv_flags p Hinv). by eapply lookup_lt_Some. }
      destruct (Hcheads j h e Hh He) as [[? _]|[[? _]|[_ ?]]]; (done || lia). }
  destruct (add_vector_ok fuel owner es p Hinv Hw Hfuel)
    as (v & hs & ae & Hrun' & Hlv & Hout & Hown & Hn & Hin & Hlhs & Hlae & Hadv).
  rewrite Hrun in Hrun'. inversion Hrun' as [Hp']. clear Hrun Hrun'. subst p'.
  destruct Hinv as [Hsz Ht Hv Hfl Hthr Hlap Hheads]. simpl in Hclosed.
  set (n := N.of_nat (length es)) in *.
  set (tl := m_tail p) in *.
  assert (2 <= n) as H2n by lia.
  assert (cseg v tl (tl + 2 + n)) as Hrec.
  { eapply cseg_cons; [|done|apply cseg_nil].
    replace (N.to_nat (tl + 1)) with (S (N.to_nat tl)) by lia. done. }
  assert (forall a, cseg (m_vectors p) a tl -> cseg v a tl) as Hkeep.
  { intros a. apply cseg_ext. intros j x Hj. apply Hout. lia. }
  assert (forall a, tl + 2 + n <= a ->
            cgood (m_vectors p) (m_size p) a -> cgood v (m_size p) a) as Hold.
  { intros a Ha. apply cgood_ext; [|lia]. intros j x Hj. apply Hout. lia. }
  split; [done| |]; simpl.
  - destruct (N.leb_spec (m_size p) (tl + 2 + n)); [constructor|].
    eapply cseg_trans; [by apply Hkeep|done].
  - intros i h' e Hh' He.
    destruct (lookup_lt_is_Some_2 (m_heads p) i) as [h Hh].
    { rewrite <- Hlhs. by eapply lookup_lt_Some. }
    destruct (lookup_lt_is_Some_2 (m_at_end p) i) as [e0 He0].
    { rewrite Hfl. by eapply lookup_lt_Some. }
    destruct (Hadv i h Hh) as (h2 & Hh2 & He2 & _ & Hpost).
    rewrite Hh' in Hh2. inversion Hh2; subst h2. clear Hh2.
    rewrite He in He2. inversion He2; subst e. clear He2.
    specialize (Hcheads i h e0 Hh He0). fold tl in Hcheads, Hpost.
    specialize (Hclosed i h' Hh').
    assert ((h' <= tl /\ cseg (m_vectors p) h' tl) \/
            (tl + 2 + n <= h' /\ cgood (m_vectors p) (m_size p) h')) as Hmid.
    { destruct Hpost as [[Hnot ->]|(_ & _ & [->|[Hge Hg]])].
      - destruct Hcheads as [[? ?]|[[-> _]|[Hge Hg]]].
        + left. split; [lia|done].
        + left. split; [lia|constructor].
        + destruct (decide (h = tl)) as [->|Hne].
          * left. split; [lia|constructor].
          * right. split; [lia|done].
      - left. split; [lia|done].
      - right. split; [lia|]. apply Hclosed. lia. }
    unfold chead_ok.
    destruct (N.leb_spec (m_size p) (tl + 2 + n)) as [Hwrap|Hfit].
    + right. right. split; [lia|].
      destruct Hmid as [[Hle Hs]|[Hge Hg]].
      * eapply cseg_cgood; [by apply Hkeep|].
        eapply cgood_last; try done; [|lia|lia].
        replace (N.to_nat (tl + 1)) with (S (N.to_nat tl)) by lia. done.
      * apply cgood_good, good_lt in Hg. lia.
    + destruct Hmid as [[Hle Hs]|[Hge Hg]].
      * left. split; [lia|]. eapply cseg_trans; [by apply Hkeep|done].
      * right. right. split; [lia|]. by apply Hold.
Qed.

Lemma reserve_cinv num_threads sz :
  0 < sz -> sz < word_modulus -> num_threads < word_modulus ->
  clause_inv (reserve num_threads sz).
Proof.
  intros Hpos Hsz Hthr. split; [by apply reserve_inv|constructor|].
  simpl. intros i h e Hh He. apply lookup_replicate in Hh as [-> _].
  apply lookup_replicate in He as [-> _]. right. left. done.
Qed.

Lemma clause_reachable_inv p : clause_reachable p -> clause_inv p.
Proof.
  induction 1 as [k sz Hpos Hsz Hk|p fuel owner es p' Hr IH H2 Hw Hrun|p fuel c r p' Hr IH Hrun].
  - by apply reserve_cinv.
  - eapply (add_vector_cinv (fuel `max` S (N.to_nat (m_size p)))); try done; [lia|].
    eapply add_vector_mono; [|done]. lia.
  - destruct (get_vector_returned fuel c r p p' (cinv_pool p IH) Hrun)
      as (h & e & h' & Hh & He & -> & Hscan).
    apply moved_cinv; [done|by eapply lookup_lt_Some|].
    eapply scan_clause; [done| |done]. by eapply cinv_heads.
Qed.

Lemma to_literal_index (l : list literal) : to_literal <$> (index <$> l) = l.
Proof. induction l as [|[x] l IH]; [done|]. rewrite !fmap_cons. by f_equal. Qed.

Lemma last_cons_default {A : Type} (l : list A) (x d : A) :
  default d (last (x :: l)) = default x (last l).
Proof.
  revert x d. induction l as [|y l IH]; intros x d; [done|].
  change (last (x :: y :: l)) with (last (y :: l)).
  by rewrite (IH y d), (IH y x).
Qed.

Lemma read_lits_from todo ptr i p acc :
  (N.to_nat (ptr + i) + todo <= length (m_vectors p))%nat ->
  i + N.of_nat todo < word_modulus ->
  read_lits todo ptr i p acc
    = Ok (acc ++ (to_literal <$> take todo (drop (N.to_nat (ptr + i)) (m_vectors p)))).
Proof.
  revert i acc. induction todo as [|todo IH]; intros i acc Hin Hw; simpl.
  - by rewrite app_nil_r.
  - destruct (lookup_lt_is_Some_2 (m_vectors p) (N.to_nat (ptr + i))) as [x Hx]; [lia|].
    rewrite (vget_lookup _ _ _ Hx). simpl.
    rewrite (u32_small (i + 1)) by lia.
    rewrite IH by lia.
    rewrite (drop_S _ _ _ Hx). simpl. rewrite <- app_assoc. simpl.
    by replace (N.to_nat (ptr + (i + 1))) with (S (N.to_nat (ptr + i))) by lia.
Qed.

Lemma read_lits_ok n ptr p :
  (N.to_nat (ptr + n) <= length (m_vectors p))%nat ->
  n < word_modulus ->
  read_lits (N.to_nat n) ptr 0 p [] = Ok (to_literal <$> slice p ptr n).
Proof.
  intros Hin Hw. rewrite read_lits_from by lia. unfold slice.
  by rewrite N.add_0_r.
Qed.

Lemma slice_length p ptr n :
  (N.to_nat (ptr + n) <= length (m_vectors p))%nat ->
  length (slice p ptr n) = N.to_nat n.
Proof. intros Hin. unfold slice. rewrite length_take, length_drop. lia. Qed.

Lemma drain_moved p c d x h e cls :
  drain (moved p d x) c h e cls -> drain p c h e cls.
Proof.
  induction 1 as [h e h' Hs|h e n ptr h' cls Hs Hd IH].
  - eapply drain_done. by eapply scan_moved.
  - change (slice (moved p d x) ptr n) with (slice p ptr n).
    eapply drain_more; [by eapply scan_moved|exact IH].
Qed.

Lemma set_pool_set_pool par p q : set_pool (set_pool par p) q = set_pool par q.
Proof. done. Qed.

Section get_facts.

Variable mk_clause_core : list literal -> solver -> solver.

Lemma _get_clauses_loop_ok fuel inner c par m_lits s h e :
  clause_inv (m_pool par) ->
  m_heads (m_pool par) !! N.to_nat c = Some h ->
  m_at_end (m_pool par) !! N.to_nat c = Some e ->
  (pending (m_pool par) h e < fuel)%nat ->
  (N.to_nat (m_size (m_pool par)) + 3 <= 2 * inner)%nat ->
  exists cls,
    drain (m_pool par) c h e cls /\
    Forall (fun cl => (2 <= length cl)%nat) cls /\
    _get_clauses_loop mk_clause_core fuel inner c par m_lits s
      = Ok (set_pool par (moved (m_pool par) c (m_tail (m_pool par))),
            default m_lits (last (fmap (M:=list) to_literal <$> cls)),
            fold_left (fun s cl => mk_clause_core cl s) (fmap (M:=list) to_literal <$> cls) s).
Proof.
  revert par m_lits s h e.
  induction fuel as [|fuel IH]; intros par m_lits s h e Hcinv Hh He Hpend Hinner; [lia|].
  set (q := m_pool par) in *.
  destruct (get_vector_ok inner c h e q (cinv_pool q Hcinv) Hh He Hinner)
    as (r & h' & Hget & Hinv' & Hscan).
  pose proof (scan_clause q c h e r h' Hcinv (cinv_heads q Hcinv _ _ _ Hh He) Hscan)
    as [Hok Hr].
  apply lookup_lt_Some in Hh as Hlt. apply lookup_lt_Some in He as Hlt'.
  simpl. fold q. rewrite Hget. simpl.
  destruct r as [[n ptr]|].
  - destruct Hr as (H2 & Hw & Hin & Hdec).
    rewrite read_lits_ok by done. simpl.
    destruct (N.leb_spec 2 n) as [_|?]; [|lia]. simpl.
    destruct (IH (set_pool par (moved q c h')) (to_literal <$> slice (moved q c h') ptr n)
                 (mk_clause_core (to_literal <$> slice (moved q c h') ptr n) s)
                 h' (N.eqb h' (m_tail q)))
      as (cls & Hd & Hall & Hrun).
    + by apply moved_cinv.
    + simpl. by rewrite list_lookup_insert_eq.
    + simpl. by rewrite list_lookup_insert_eq.
    + change (pending (m_pool (set_pool par (moved q c h'))) h' (N.eqb h' (m_tail q)))
        with (pending q h' (N.eqb h' (m_tail q))). lia.
    + done.
    + exists (slice q ptr n :: cls). split; [|split].
      * eapply drain_more; [done|]. exact (drain_moved q c c h' _ _ _ Hd).
      * constructor; [|done]. rewrite slice_length by done. lia.
      * rewrite Hrun. rewrite set_pool_set_pool.
        change (m_pool (set_pool par (moved q c h'))) with (moved q c h').
        change (m_tail (moved q c h')) with (m_tail q). rewrite moved_moved.
        rewrite fmap_cons, last_cons_default. done.
  - exists []. split; [by eapply drain_done|]. split; [constructor|].
    apply scan_skips in Hscan as (a & _ & _ & ->). done.
Qed.

Lemma pending_le p h e :
  m_tail p < m_size p -> h < m_size p ->
  (pending p h e <= N.to_nat (m_size p) + 1)%nat.
Proof.
  intros Ht Hh. unfold pending. destruct (_ && _); [lia|].
  destruct (N.ltb_spec h (m_tail p)); lia.
Qed.

Lemma get_clauses_ok fuel par m_lits s h e :
  clause_inv (m_pool par) ->
  m_par_syncing_clauses s = false ->
  m_heads (m_pool par) !! N.to_nat (m_par_id s) = Some h ->
  m_at_end (m_pool par) !! N.to_nat (m_par_id s) = Some e ->
  (N.to_nat (m_size (m_pool par)) + 2 <= fuel)%nat ->
  exists cls,
    drain (m_pool par) (m_par_id s) h e cls /\
    Forall (fun cl => (2 <= length cl)%nat) cls /\
    get_clauses mk_clause_core fuel par m_lits s
      = Ok (set_pool par (moved (m_pool par) (m_par_id s) (m_tail (m_pool par))),
            default m_lits (last (fmap (M:=list) to_literal <$> cls)),
            set_syncing
              (fold_left (fun s cl => mk_clause_core cl s) (fmap (M:=list) to_literal <$> cls)
                         (set_syncing s true))
              false).
Proof.
  intros Hcinv Hs Hh He Hfuel. pose proof (cinv_pool _ Hcinv) as Hinv.
  destruct (_get_clauses_loop_ok fuel fuel (m_par_id s) par m_lits (set_syncing s true) h e)
    as (cls & Hd & Hall & Hrun); try done.
  { assert (h < m_size (m_pool par)) as Hlt.
    { destruct (inv_heads _ Hinv _ _ _ Hh He) as [[? ?]|[[? ?]|[? ?%good_lt]]];
        pose proof (inv_tail _ Hinv); lia. }
    pose proof (pending_le (m_pool par) h e (inv_tail _ Hinv) Hlt). lia. }
  { lia. }
  exists cls. split; [done|]. split; [done|].
  unfold get_clauses, _get_clauses. rewrite Hs.
  change (m_par_id (set_syncing s true)) with (m_par_id s). rewrite Hrun. done.
Qed.

End get_facts.

(** a complete write seen by a consumer whose cursor is at the write cursor *)
Lemma written_record fuel owner es p c :
  pool_inv p ->
  m_heads p !! N.to_nat c = Some (m_tail p) ->
  m_size p + N.of_nat (length es) + 2 < word_modulus ->
  (N.to_nat (m_size p) < fuel)%nat ->
  exists p1,
    add_vector fuel owner es p = Ok p1 /\
    pool_inv p1 /\
    m_size p1 = m_size p /\
    m_heads p1 !! N.to_nat c = Some (m_tail p) /\
    m_at_end p1 !! N.to_nat c = Some false /\
    record_at p1 (m_tail p) owner es /\
    next p1 (m_tail p) = Ok (m_tail p1) /\
    (N.to_nat (get_ptr (m_tail p) + N.of_nat (length es)) <= length (m_vectors p1))%nat.
Proof.
  intros Hinv Hc Hw Hfuel.
  destruct (add_vector_record fuel owner es p Hinv Hw Hfuel)
    as (p1 & Hrun & Hrec & Hlen & Hsz & Ht & _ & Hadv).
  pose proof (add_vector_inv fuel owner es p p1 Hinv Hw Hfuel Hrun) as Hinv1.
  destruct (Hadv _ _ Hc) as (h' & Hh' & He' & _ & Hpost).
  assert (h' = m_tail p) as ->.
  { destruct Hpost as [[_ ?]|(? & _)]; [done|lia]. }
  pose proof (inv_tail p Hinv) as Htl. pose proof (inv_size p Hinv) as Hsize.
  exists p1. repeat (split; [done|]). split.
  - destruct Hrec as (_ & Hn & _).
    eapply next_written; [| | |exact Hn|]; rewrite ?Hsz; (done || word_lia).
  - unfold get_ptr. lia.
Qed.

(** the first [get_vector] of a consumer after a foreign record was written at
    its cursor, and the second *)
Lemma read_written fuel c p1 tl owner es :
  pool_inv p1 ->
  m_heads p1 !! N.to_nat c = Some tl ->
  m_at_end p1 !! N.to_nat c = Some false ->
  record_at p1 tl owner es ->
  next p1 tl = Ok (m_tail p1) ->
  c <> owner ->
  (N.to_nat (m_size p1) + 3 <= 2 * fuel)%nat ->
  get_vector fuel c p1
    = Ok (Some (N.of_nat (length es), get_ptr tl), moved p1 c (m_tail p1)) /\
  get_vector fuel c (moved p1 c (m_tail p1)) = Ok (None, moved p1 c (m_tail p1)).
Proof.
  intros Hinv1 Hh He (Ho & Hn & Hs) Hnext Hne Hfuel.
  destruct (get_vector_ok fuel c tl false p1 Hinv1 Hh He Hfuel)
    as (r & h2 & Hget & _ & Hscan).
  assert (r = Some (N.of_nat (length es), get_ptr tl)) as ->.
  { eapply scan_foreign; eauto. }
  assert (h2 = m_tail p1) as ->.
  { inversion Hscan; subst; congruence. }
  split; [done|].
  apply lookup_lt_Some in Hh as Hlt. apply lookup_lt_Some in He as Hlt'.
  apply get_vector_at_tail; simpl; [| |lia].
  - by rewrite list_lookup_insert_eq.
  - rewrite list_lookup_insert_eq by done. by rewrite N.eqb_refl.
Qed.

(** the [get_vector] of the producer after it wrote a record at its cursor *)
Lemma skip_written fuel p1 tl owner es :
  pool_inv p1 ->
  m_heads p1 !! N.to_nat owner = Some tl ->
  m_at_end p1 !! N.to_nat owner = Some false ->
  record_at p1 tl owner es ->
  next p1 tl = Ok (m_tail p1) ->
  (N.to_nat (m_size p1) + 3 <= 2 * fuel)%nat ->
  get_vector fuel owner p1 = Ok (None, moved p1 owner (m_tail p1)).
Proof.
  intros Hinv1 Hh He (Ho & Hn & Hs) Hnext Hfuel.
  destruct (get_vector_ok fuel owner tl false p1 Hinv1 Hh He Hfuel)
    as (r & h2 & Hget & _ & Hscan).
  eapply scan_own in Hscan; [|by right|done|done].
  rewrite N.eqb_refl in Hscan. by apply scan_at_tail in Hscan as [-> ->].
Qed.

Lemma set_syncing_idle s :
  m_par_syncing_clauses s = false -> set_syncing (set_syncing s true) false = s.
Proof. intros Hs. destruct s; simpl in *; by subst. Qed.

Section clauses.

Variable mk_clause_core : list literal -> solver -> solver.

Lemma _get_clauses_loop_S fuel inner owner par m_lits s :
  _get_clauses_loop mk_clause_core (S fuel) inner owner par m_lits s
  = (r <- get_vector inner owner (m_pool par) ;;
     let par := set_pool par (snd r) in
     match fst r with
     | Some (n, ptr) =>
         m_lits <- read_lits (N.to_nat n) ptr 0 (m_pool par) [] ;;
         SASSERT (2 <=? n) ;;
         let s := mk_clause_core m_lits s in
         _get_clauses_loop mk_clause_core fuel inner owner par m_lits s
     | None => Ok (par, m_lits, s)
     end).
Proof. done. Qed.

Lemma _get_clauses_loop_found fuel inner owner par m_lits s n ptr p' :
  get_vector inner owner (m_pool par) = Ok (Some (n, ptr), p') ->
  (N.to_nat (ptr + n) <= length (m_vectors p'))%nat ->
  n < word_modulus ->
  _get_clauses_loop mk_clause_core (S fuel) inner owner par m_lits s
  = if 2 <=? n
    then _get_clauses_loop mk_clause_core fuel inner owner (set_pool par p')
           (to_literal <$> slice p' ptr n)
           (mk_clause_core (to_literal <$> slice p' ptr n) s)
    else AssertFail.
Proof.
  intros Hget Hin Hw. rewrite _get_clauses_loop_S, Hget. simpl.
  rewrite read_lits_ok by done. simpl. by destruct (2 <=? n).
Qed.

Lemma _get_clauses_loop_none fuel inner owner par m_lits s p' :
  get_vector inner owner (m_pool par) = Ok (None, p') ->
  _get_clauses_loop mk_clause_core (S fuel) inner owner par m_lits s
  = Ok (set_pool par p', m_lits, s).
Proof. intros Hget. by rewrite _get_clauses_loop_S, Hget. Qed.

(** X15: on a pool that holds clauses, [get_clauses(s)] of a solver whose
    flag is clear and whose id is one of the consumers returns without a
    failed assertion or an out-of-range read; it hands to [mk_clause_core], in
    the order of the pool, the records that repeated [get_vector] calls give
    this solver, each with two literals or more; it leaves the cursor of the
    solver at the write cursor and nothing else of the coordinator changed;
    the flag of the solver is set during the insertions and clear again
    afterwards. *)
Theorem get_clauses_drains fuel par m_lits s :
  clause_reachable (m_pool par) ->
  m_par_syncing_clauses s = false ->
  (N.to_nat (m_par_id s) < length (m_heads (m_pool par)))%nat ->
  (N.to_nat (m_size (m_pool par)) + 2 <= fuel)%nat ->
  exists h e cls,
    m_heads (m_pool par) !! N.to_nat (m_par_id s) = Some h /\
    m_at_end (m_pool par) !! N.to_nat (m_par_id s) = Some e /\
    drain (m_pool par) (m_par_id s) h e cls /\
    Forall (fun cl => (2 <= length cl)%nat) cls /\
    get_clauses mk_clause_core fuel par m_lits s
      = Ok (set_pool par (moved (m_pool par) (m_par_id s) (m_tail (m_pool par))),
            default m_lits (last (fmap (M:=list) to_literal <$> cls)),
            set_syncing
              (fold_left (fun s cl => mk_clause_core cl s)
                         (fmap (M:=list) to_literal <$> cls) (set_syncing s true))
              false).
Proof.
  intros Hr Hs Hc Hfuel. apply clause_reachable_inv in Hr as Hcinv.
  pose proof (cinv_pool _ Hcinv) as Hinv.
  destruct (lookup_lt_is_Some_2 _ _ Hc) as [h Hh].
  destruct (lookup_lt_is_Some_2 (m_at_end (m_pool par)) (N.to_nat (m_par_id s)))
    as [e He]; [by rewrite (inv_flags _ Hinv)|].
  destruct (get_clauses_ok mk_clause_core fuel par m_lits s h e Hcinv Hs Hh He Hfuel)
    as (cls & Hd & Hall & Hrun).
  by exists h, e, cls.
Qed.

(** a record written by another solver at the cursor of [s2], then
    [get_clauses(s2)] *)
Lemma get_clauses_after_write fuel par s2 owner lits m_lits0 :
  pool_inv (m_pool par) ->
  m_par_syncing_clauses s2 = false ->
  m_par_id s2 <> owner ->
  m_heads (m_pool par) !! N.to_nat (m_par_id s2) = Some (m_tail (m_pool par)) ->
  m_size (m_pool par) + N.of_nat (length lits) + 2 < word_modulus ->
  (N.to_nat (m_size (m_pool par)) + 2 <= fuel)%nat ->
  exists p1,
    add_vector fuel owner (index <$> lits) (m_pool par) = Ok p1 /\
    get_clauses mk_clause_core fuel (set_pool par p1) m_lits0 s2
      = if 2 <=? N.of_nat (length lits)
        then Ok (set_pool par (moved p1 (m_par_id s2) (m_tail p1)), lits,
                 set_syncing (mk_clause_core lits (set_syncing s2 true)) false)
        else AssertFail.
Proof.
  intros Hinv Hs2 Hne Hc Hw Hfuel.
  destruct (written_record fuel owner (index <$> lits) (m_pool par)
              (m_par_id s2) Hinv Hc)
    as (p1 & Hrun & Hinv1 & Hsz & Hh & He & Hrec & Hnext & Hin);
    [by rewrite length_fmap|lia|]. rewrite length_fmap in Hin.
  destruct (read_written fuel (m_par_id s2) p1 _ _ _ Hinv1 Hh He Hrec Hnext Hne)
    as [Hget1 Hget2]; [lia|]. rewrite length_fmap in Hget1.
  exists p1. split; [done|].
  unfold get_clauses, _get_clauses. rewrite Hs2.
  change (m_par_id (set_syncing s2 true)) with (m_par_id s2).
  destruct fuel as [|[|fuel]]; [lia..|].
  rewrite (_get_clauses_loop_found _ _ _ (set_pool par p1) _ _ _ _ _ Hget1);
    [|simpl; lia|lia].
  destruct (2 <=? N.of_nat (length lits)); [|done].
  rewrite (_get_clauses_loop_none _ _ _
             (set_pool (set_pool par p1) (moved p1 (m_par_id s2) (m_tail p1)))
             _ _ _ Hget2).
  destruct Hrec as (_ & _ & Hslice). rewrite length_fmap in Hslice.
  change (slice (moved p1 (m_par_id s2) (m_tail p1)) ?a ?b) with (slice p1 a b).
  rewrite Hslice, to_literal_index. done.
Qed.

(** X16: a clause of two literals or more that passes [enable_add] and is
    shared by one solver is received by another solver whose cursor was at
    the write cursor: its [get_clauses] inserts exactly that clause, with the
    literals in order, once. *)
Theorem shared_clause_received fuel par s1 s2 c m_lits0 :
  reachable (m_pool par) ->
  enable_add c = true ->
  m_par_syncing_clauses s1 = false ->
  m_par_syncing_clauses s2 = false ->
  m_par_id s2 <> m_par_id s1 ->
  m_heads (m_pool par) !! N.to_nat (m_par_id s2) = Some (m_tail (m_pool par)) ->
  2 <= size c ->
  m_size (m_pool par) + size c + 2 < word_modulus ->
  (N.to_nat (m_size (m_pool par)) + 2 <= fuel)%nat ->
  exists par1,
    share_clause fuel par s1 c = Ok (par1, s1) /\
    get_clauses mk_clause_core fuel par1 m_lits0 s2
      = Ok (set_pool par1 (moved (m_pool par1) (m_par_id s2) (m_tail (m_pool par1))),
            m_lits c,
            set_syncing (mk_clause_core (m_lits c) (set_syncing s2 true)) false).
Proof.
  intros Hr Hadd Hs1 Hs2 Hne Hc H2 Hw Hfuel. apply reachable_inv in Hr as Hinv.
  unfold size in *.
  destruct (get_clauses_after_write fuel par s2 (m_par_id s1) (m_lits c) m_lits0
              Hinv Hs2 Hne Hc Hw Hfuel) as (p1 & Hrun & Hget).
  exists (set_pool par p1). split.
  { rewrite share_clause_add_vector by done. by rewrite Hrun. }
  rewrite Hget. by destruct (N.leb_spec 2 (N.of_nat (length (m_lits c)))); [|lia].
Qed.

(** X17: a binary clause shared with [share_clause(s, l1, l2)] is received
    by another solver whose cursor was at the write cursor: its
    [get_clauses] inserts the clause [l1, l2] once. *)
Theorem binary_clause_received fuel par s1 s2 l1 l2 m_lits0 :
  reachable (m_pool par) ->
  m_par_syncing_clauses s1 = false ->
  m_par_syncing_clauses s2 = false ->
  m_par_id s2 <> m_par_id s1 ->
  m_heads (m_pool par) !! N.to_nat (m_par_id s2) = Some (m_tail (m_pool par)) ->
  m_size (m_pool par) + 4 < word_modulus ->
  (N.to_nat (m_size (m_pool par)) + 2 <= fuel)%nat ->
  exists par1,
    share_clause2 fuel par s1 l1 l2 = Ok (par1, s1) /\
    get_clauses mk_clause_core fuel par1 m_lits0 s2
      = Ok (set_pool par1 (moved (m_pool par1) (m_par_id s2) (m_tail (m_pool par1))),
            [l1; l2],
            set_syncing (mk_clause_core [l1; l2] (set_syncing s2 true)) false).
Proof.
  intros Hr Hs1 Hs2 Hne Hc Hw Hfuel. apply reachable_inv in Hr as Hinv.
  destruct (get_clauses_after_write fuel par s2 (m_par_id s1) [l1; l2] m_lits0
              Hinv Hs2 Hne Hc) as (p1 & Hrun & Hget); [simpl; lia|done|].
  exists (set_pool par p1). split; [|done].
  rewrite share_clause2_add_vector by done. simpl in Hrun. by rewrite Hrun.
Qed.

(** X19: [share_clause(s, c)] does not refuse a clause of fewer than two
    literals that passes [enable_add]; the [get_clauses] of another solver
    that comes upon it fails [SASSERT(n >= 2)]. *)
Theorem short_clause_asserts fuel par s1 s2 c m_lits0 :
  reachable (m_pool par) ->
  enable_add c = true ->
  m_par_syncing_clauses s1 = false ->
  m_par_syncing_clauses s2 = false ->
  m_par_id s2 <> m_par_id s1 ->
  m_heads (m_pool par) !! N.to_nat (m_par_id s2) = Some (m_tail (m_pool par)) ->
  size c < 2 ->
  m_size (m_pool par) + size c + 2 < word_modulus ->
  (N.to_nat (m_size (m_pool par)) + 2 <= fuel)%nat ->
  exists par1,
    share_clause fuel par s1 c = Ok (par1, s1) /\
    get_clauses mk_clause_core fuel par1 m_lits0 s2 = AssertFail.
Proof.
  intros Hr Hadd Hs1 Hs2 Hne Hc H2 Hw Hfuel. apply reachable_inv in Hr as Hinv.
  unfold size in *.
  destruct (get_clauses_after_write fuel par s2 (m_par_id s1) (m_lits c) m_lits0
              Hinv Hs2 Hne Hc Hw Hfuel) as (p1 & Hrun & Hget).
  exists (set_pool par p1). split.
  { rewrite share_clause_add_vector by done. by rewrite Hrun. }
  rewrite Hget. by destruct (N.leb_spec 2 (N.of_nat (length (m_lits c)))); [lia|].
Qed.

(** X18: a solver is not handed the clause it shared: after
    [share_clause(s, c)] of a solver whose cursor was at the write cursor, its
    own [get_clauses] inserts nothing, leaves the solver as it was and moves
    its cursor to the new write cursor. *)
Theorem own_clause_not_received fuel par s c m_lits0 :
  reachable (m_pool par) ->
  enable_add c = true ->
  m_par_syncing_clauses s = false ->
  m_heads (m_pool par) !! N.to_nat (m_par_id s) = Some (m_tail (m_pool par)) ->
  m_size (m_pool par) + size c + 2 < word_modulus ->
  (N.to_nat (m_size (m_pool par)) + 2 <= fuel)%nat ->
  exists par1,
    share_clause fuel par s c = Ok (par1, s) /\
    get_clauses mk_clause_core fuel par1 m_lits0 s
      = Ok (set_pool par1 (moved (m_pool par1) (m_par_id s) (m_tail (m_pool par1))),
            m_lits0, s).
Proof.
  intros Hr Hadd Hs Hc Hw Hfuel. apply reachable_inv in Hr as Hinv.
  unfold size in *.
  destruct (written_record fuel (m_par_id s) (index <$> m_lits c) (m_pool par)
              (m_par_id s) Hinv Hc)
    as (p1 & Hrun & Hinv1 & Hsz & Hh & He & Hrec & Hnext & Hin);
    [by rewrite length_fmap|lia|].
  pose proof (skip_written fuel p1 _ _ _ Hinv1 Hh He Hrec Hnext) as Hget.
  exists (set_pool par p1). split.
  { rewrite share_clause_add_vector by done. by rewrite Hrun. }
  unfold get_clauses, _get_clauses. rewrite Hs.
  change (m_par_id (set_syncing s true)) with (m_par_id s).
  destruct fuel as [|fuel]; [lia|].
  rewrite (_get_clauses_loop_none _ _ _ (set_pool par p1) _ _ _ (Hget ltac:(lia))).
  simpl. by rewrite set_syncing_idle.
Qed.

(** X14: in a pool that holds clauses (reserved, then complete writes of two
    words or more and reads in any order), the record that [get_vector] hands
    out has a length of two or more and lies inside the backing store: the
    [n] words from [ptr] on are all there. *)
Theorem get_vector_in_store fuel c p n ptr p' :
  clause_reachable p ->
  get_vector fuel c p = Ok (Some (n, ptr), p') ->
  2 <= n /\ (N.to_nat (ptr + n) <= length (m_vectors p'))%nat /\
  length (slice p' ptr n) = N.to_nat n.
Proof.
  intros Hr Hrun. apply clause_reachable_inv in Hr as Hcinv.
  destruct (get_vector_returned fuel c _ p p' (cinv_pool p Hcinv) Hrun)
    as (h & e & h' & Hh & He & -> & Hscan).
  destruct (scan_clause p c h e _ h' Hcinv (cinv_heads p Hcinv _ _ _ Hh He) Hscan)
    as (_ & H2 & _ & Hin & _).
  split; [done|]. split; [done|]. by apply slice_length.
Qed.

End clauses.

Lemma clause_pool_reachable : clause_reachable clause_pool.
Proof.
  apply (creach_add (reserve 2 10) 11 0 [7; 8; 9]);
    [|simpl; lia|reflexivity|vm_compute; reflexivity].
  apply creach_reserve; reflexivity.
Qed.

(** the clause of solver [0] in [clause_pool] is handed to solver [1] *)
Lemma get_vector_in_store_witness :
  2 <= 3 /\
  (N.to_nat (2 + 3) <= length (m_vectors (moved clause_pool 1 5)))%nat /\
  length (slice (moved clause_pool 1 5) 2 3) = N.to_nat 3.
Proof.
  apply (get_vector_in_store 11 1 clause_pool 3 2 (moved clause_pool 1 5)).
  - apply clause_pool_reachable.
  - vm_compute. reflexivity.
Defined.

(** solver [1] drains [clause_pool] *)
Lemma get_clauses_drains_witness :
  exists h e cls,
    m_heads clause_pool !! 1%nat = Some h /\
    m_at_end clause_pool !! 1%nat = Some e /\
    drain clause_pool 1 h e cls /\
    Forall (fun cl => (2 <= length cl)%nat) cls /\
    get_clauses learn 12 (set_pool parallel.empty clause_pool) [] (idle_solver 1)
      = Ok (set_pool parallel.empty (moved clause_pool 1 (m_tail clause_pool)),
            default [] (last (fmap (M:=list) to_literal <$> cls)),
            set_syncing
              (fold_left (fun s cl => learn cl s)
                         (fmap (M:=list) to_literal <$> cls)
                         (set_syncing (idle_solver 1) true))
              false).
Proof.
  apply (get_clauses_drains learn 12 (set_pool parallel.empty clause_pool) []
           (idle_solver 1)).
  - apply clause_pool_reachable.
  - reflexivity.
  - vm_compute. lia.
  - vm_compute. lia.
Defined.

(** solver [0] shares a clause of three literals, solver [1] receives it *)
Lemma shared_clause_received_witness :
  exists par1,
    share_clause 12 sharing (idle_solver 0) three_lits = Ok (par1, idle_solver 0) /\
    get_clauses learn 12 par1 [] (idle_solver 1)
      = Ok (set_pool par1 (moved (m_pool par1) 1 (m_tail (m_pool par1))),
            m_lits three_lits,
            set_syncing (learn (m_lits three_lits) (set_syncing (idle_solver 1) true))
                        false).
Proof.
  apply (shared_clause_received learn 12 sharing (idle_solver 0) (idle_solver 1)
           three_lits []).
  - apply reach_reserve; reflexivity.
  - reflexivity.
  - reflexivity.
  - reflexivity.
  - discriminate.
  - reflexivity.
  - vm_compute. discriminate.
  - reflexivity.
  - vm_compute. lia.
Defined.

(** solver [0] shares a binary clause, solver [1] receives it *)
Lemma binary_clause_received_witness :
  exists par1,
    share_clause2 12 sharing (idle_solver 0) (to_literal 3) (to_literal 5)
      = Ok (par1, idle_solver 0) /\
    get_clauses learn 12 par1 [] (idle_solver 1)
      = Ok (set_pool par1 (moved (m_pool par1) 1 (m_tail (m_pool par1))),
            [to_literal 3; to_literal 5],
            set_syncing (learn [to_literal 3; to_literal 5]
                               (set_syncing (idle_solver 1) true)) false).
Proof.
  apply (binary_clause_received learn 12 sharing (idle_solver 0) (idle_solver 1)
           (to_literal 3) (to_literal 5) []).
  - apply reach_reserve; reflexivity.
  - reflexivity.
  - reflexivity.
  - discriminate.
  - reflexivity.
  - reflexivity.
  - vm_compute. lia.
Defined.

(** solver [0] shares a clause and asks for clauses itself *)
Lemma own_clause_not_received_witness :
  exists par1,
    share_clause 12 sharing (idle_solver 0) three_lits = Ok (par1, idle_solver 0) /\
    get_clauses learn 12 par1 [] (idle_solver 0)
      = Ok (set_pool par1 (moved (m_pool par1) 0 (m_tail (m_pool par1))),
            [], idle_solver 0).
Proof.
  apply (own_clause_not_received learn 12 sharing (idle_solver 0) three_lits []).
  - apply reach_reserve; reflexivity.
  - reflexivity.
  - reflexivity.
  - reflexivity.
  - reflexivity.
  - vm_compute. lia.
Defined.

(** solver [0] shares a clause of one literal, solver [1] asks for clauses *)
Lemma short_clause_asserts_witness :
  exists par1,
    share_clause 12 sharing (idle_solver 0) one_lit = Ok (par1, idle_solver 0) /\
    get_clauses learn 12 par1 [] (idle_solver 1) = AssertFail.
Proof.
  apply (short_clause_asserts learn 12 sharing (idle_solver 0) (idle_solver 1)
           one_lit []).
  - apply reach_reserve; reflexivity.
  - reflexivity.
  - reflexivity.
  - reflexivity.
  - discriminate.
  - reflexivity.
  - reflexivity.
  - reflexivity.
  - vm_compute. lia.
Defined.
